(** * aws-c-common: byte buffers, byte cursors and the dynamic array

    A shallow embedding of [source/byte_buf.c] and of the two CBMC proof
    harnesses for [aws_array_list], with the properties stated about them.

    Conventions of the embedding.
    - A [size_t] or [uint64_t] is a [Z] in [0, 2^64); every C operation that
      can wrap is written with [size_wrap].
    - A pointer is a flat address, a [Z]; [NULL] is address 0.  Pointer
      arithmetic inside an object does not wrap and is plain [Z] arithmetic.
    - The byte heap is a total function from addresses to [byte].  Structs
      live outside of it, as records that are passed and returned.
    - A struct pointer that the code tests against [NULL] is an [option].
    - [assert] is kept: a function with assertions returns an [outcome] and
      [Aborts] when one of them fails. *)

From Stdlib Require Import ZArith List Bool Lia.
From Stdlib Require Import Strings.Byte Strings.String Strings.Ascii.
Import ListNotations.

Local Open Scope Z_scope.

(** ** Machine integers, pointers, return codes *)

Definition SIZE_MAX : Z := 2 ^ 64 - 1.

Definition size_wrap (x : Z) : Z := x mod 2 ^ 64.

Definition is_size_t (x : Z) : Prop := 0 <= x <= SIZE_MAX.

Definition NULL : Z := 0.

(** [AWS_OP_SUCCESS] and [AWS_OP_ERR] of [aws/common/error.h]. *)
Definition AWS_OP_SUCCESS : Z := 0.
Definition AWS_OP_ERR : Z := -1.

(** The error codes that [byte_buf.c] and the allocator wrapper raise. *)
Inductive aws_common_error : Type :=
| AWS_ERROR_SUCCESS
| AWS_ERROR_OOM
| AWS_ERROR_DEST_COPY_TOO_SMALL.

(** Value of a [uint8_t]. *)
Definition u8 (b : byte) : Z := Z.of_N (Byte.to_N b).

(** ** Outcomes of functions that assert or loop *)

Inductive outcome (A : Type) : Type :=
| Returns (a : A)
| Aborts
| OutOfFuel.

Arguments Returns {A} a.
Arguments Aborts {A}.
Arguments OutOfFuel {A}.

Definition c_assert {A : Type} (c : bool) (k : outcome A) : outcome A :=
  if c then k else Aborts.

Notation "'assert!' c ';;' k" := (c_assert c k)
  (at level 10, c at level 100, k at level 200).

(** ** The world: byte heap, last-error slot, allocator requests *)

Definition heap_t : Type := Z -> byte.

Record world : Type := mkWorld {
  heap : heap_t;
  last_error : aws_common_error;
  acquired : list (Z * Z);  (* (allocator, size) of each aws_mem_acquire, newest first *)
  released : list (Z * Z)   (* (allocator, pointer) of each aws_mem_release, newest first *)
}.

Definition set_heap (w : world) (h : heap_t) : world :=
  mkWorld h (last_error w) (acquired w) (released w).

(** Modelled from the spec: [aws_raise_error] (inline in
    [aws/common/error.h]) stores the code in the last-error slot and
    returns [AWS_OP_ERR]. *)
Definition aws_raise_error (w : world) (err : aws_common_error) : Z * world :=
  (AWS_OP_ERR, mkWorld (heap w) err (acquired w) (released w)).

(** Modelled from the spec: [aws_mem_release] hands the memory back to the
    allocator. *)
Definition aws_mem_release (w : world) (allocator p : Z) : world :=
  mkWorld (heap w) (last_error w) (acquired w) ((allocator, p) :: released w).

(** ** libc and library memory primitives *)

Definition in_range (p n a : Z) : bool := (p <=? a) && (a <? p + n).

(** [memcpy(dst, src, n)]: the [n] bytes at [dst] become the bytes that were
    at [src] before the call.  C leaves overlapping copies undefined; the
    theorems that read the source after the copy assume the two ranges are
    apart. *)
Definition memcpy (h : heap_t) (dst src n : Z) : heap_t :=
  fun a => if in_range dst n a then h (src + (a - dst)) else h a.

(** Modelled from the spec: [aws_secure_zero(p, n)] overwrites [n] bytes at
    [p] with zero (in a way the optimizer may not elide). *)
Definition aws_secure_zero (h : heap_t) (p n : Z) : heap_t :=
  fun a => if in_range p n a then x00 else h a.

(** [memcmp(a, b, n)]: 0 when the first [n] bytes agree, otherwise the
    difference of the first two bytes that differ, as [unsigned char]. *)
Fixpoint memcmp_loop (h : heap_t) (a b : Z) (n : nat) : Z :=
  match n with
  | O => 0
  | S n' =>
      if u8 (h a) =? u8 (h b) then memcmp_loop h (a + 1) (b + 1) n'
      else u8 (h a) - u8 (h b)
  end.

Definition memcmp (h : heap_t) (a b n : Z) : Z :=
  memcmp_loop h a b (Z.to_nat n).

(** [memchr(p, c, n)]: address of the first byte equal to
    [(unsigned char)c] among the [n] bytes at [p], or [NULL]. *)
Fixpoint memchr_loop (h : heap_t) (p : Z) (c : Z) (n : nat) : Z :=
  match n with
  | O => NULL
  | S n' => if u8 (h p) =? c then p else memchr_loop h (p + 1) c n'
  end.

Definition memchr (h : heap_t) (p c n : Z) : Z :=
  memchr_loop h p (c mod 256) (Z.to_nat n).


(** The bytes a heap holds at [p .. p + n). *)
Fixpoint read_bytes (h : heap_t) (p : Z) (n : nat) : list byte :=
  match n with
  | O => []
  | S n' => h p :: read_bytes h (p + 1) n'
  end.

(** ** Structures *)

(** [struct aws_byte_cursor { size_t len; uint8_t *ptr; }] *)
Record aws_byte_cursor : Type := mkCursor {
  cursor_len : Z;
  cursor_ptr : Z
}.

(** [struct aws_byte_buf { size_t len; uint8_t *buffer; size_t capacity;
    struct aws_allocator *allocator; }] *)
Record aws_byte_buf : Type := mkBuf {
  buf_len : Z;
  buf_buffer : Z;
  buf_capacity : Z;
  buf_allocator : Z
}.

(** [AWS_ZERO_STRUCT] on a cursor. *)
Definition zero_cursor : aws_byte_cursor := mkCursor 0 NULL.

Definition cursor_bytes (h : heap_t) (c : aws_byte_cursor) : list byte :=
  read_bytes h (cursor_ptr c) (Z.to_nat (cursor_len c)).

(** Modelled from the spec: [aws_byte_cursor_from_buf] (inline in
    [aws/common/byte_buf.h]) is the view of the buffer's used region. *)
Definition aws_byte_cursor_from_buf (b : aws_byte_buf) : aws_byte_cursor :=
  mkCursor (buf_len b) (buf_buffer b).

(** ** Byte buffer operations *)

Section Allocation.

(** The allocator's own [mem_acquire]: from the world, the allocator handle
    and the size, the pointer it hands out ([NULL] on failure) and the heap
    it leaves. *)
Variable mem_acquire : world -> Z -> Z -> Z * heap_t.

(** Modelled from the spec: [aws_mem_acquire] calls the allocator and, when
    it gets no memory, raises the out-of-memory error. *)
Definition aws_mem_acquire (w : world) (allocator size : Z) : Z * world :=
  let '(p, h) := mem_acquire w allocator size in
  (p, mkWorld h
        (if p =? NULL then AWS_ERROR_OOM else last_error w)
        ((allocator, size) :: acquired w)
        (released w)).

Definition aws_byte_buf_init (w : world) (buf : aws_byte_buf)
    (allocator capacity : Z) : Z * aws_byte_buf * world :=
  let '(p, w) := aws_mem_acquire w allocator capacity in
  let buf := mkBuf (buf_len buf) p (buf_capacity buf) (buf_allocator buf) in
  if buf_buffer buf =? NULL then (AWS_OP_ERR, buf, w)
  else
    let buf := mkBuf 0 (buf_buffer buf) (buf_capacity buf) (buf_allocator buf) in
    let buf := mkBuf (buf_len buf) (buf_buffer buf) capacity (buf_allocator buf) in
    let buf := mkBuf (buf_len buf) (buf_buffer buf) (buf_capacity buf) allocator in
    (AWS_OP_SUCCESS, buf, w).

Definition aws_byte_buf_secure_zero (w : world) (buf : aws_byte_buf)
    : aws_byte_buf * world :=
  let w :=
    if negb (buf_buffer buf =? NULL)
    then set_heap w (aws_secure_zero (heap w) (buf_buffer buf) (buf_capacity buf))
    else w in
  (mkBuf 0 (buf_buffer buf) (buf_capacity buf) (buf_allocator buf), w).

Definition aws_byte_buf_init_copy_from_cursor (w : world)
    (dest : option aws_byte_buf) (allocator : Z) (src : aws_byte_cursor)
    : outcome (Z * aws_byte_buf * world) :=
  assert! negb (allocator =? NULL) ;;
  match dest with
  | None => Aborts
  | Some dest =>
      let dest := mkBuf 0 (buf_buffer dest) 0 NULL in
      if cursor_ptr src =? NULL then
        Returns (AWS_OP_SUCCESS, mkBuf (buf_len dest) NULL (buf_capacity dest) (buf_allocator dest), w)
      else
        let '(p, w) := aws_mem_acquire w allocator (size_wrap (1 * cursor_len src)) in
        let dest := mkBuf (buf_len dest) p (buf_capacity dest) (buf_allocator dest) in
        if buf_buffer dest =? NULL then Returns (AWS_OP_ERR, dest, w)
        else
          let dest := mkBuf (cursor_len src) (buf_buffer dest) (cursor_len src) allocator in
          let w := set_heap w (memcpy (heap w) (buf_buffer dest) (cursor_ptr src) (cursor_len src)) in
          Returns (AWS_OP_SUCCESS, dest, w)
  end.

Definition aws_byte_buf_append (w : world) (to : aws_byte_buf)
    (from : aws_byte_cursor) : outcome (Z * aws_byte_buf * world) :=
  assert! negb (cursor_ptr from =? NULL) ;;
  assert! negb (buf_buffer to =? NULL) ;;
  if size_wrap (buf_capacity to - buf_len to) <? cursor_len from then
    let '(rc, w) := aws_raise_error w AWS_ERROR_DEST_COPY_TOO_SMALL in
    Returns (rc, to, w)
  else
    let w := set_heap w (memcpy (heap w) (buf_buffer to + buf_len to) (cursor_ptr from) (cursor_len from)) in
    let to := mkBuf (size_wrap (buf_len to + cursor_len from)) (buf_buffer to) (buf_capacity to) (buf_allocator to) in
    Returns (AWS_OP_SUCCESS, to, w).

Definition aws_byte_buf_clean_up (w : world) (buf : aws_byte_buf)
    : aws_byte_buf * world :=
  let w :=
    if negb (buf_allocator buf =? NULL) && negb (buf_buffer buf =? NULL)
    then aws_mem_release w (buf_allocator buf) (buf_buffer buf)
    else w in
  (mkBuf 0 NULL 0 NULL, w).

(** A [struct aws_byte_buf *] among the variadic arguments of
    [aws_byte_buf_cat].  The call writes the fields of no structure but
    [*dest], so an argument is either [dest] itself, whose fields are read
    as they are at its turn, or a pointer to another structure, given by
    the value it has all along. *)
Inductive cat_arg : Type :=
| dest_itself
| other_buf (buffer : aws_byte_buf).

(** The variadic arguments of [aws_byte_buf_cat] are the list [args];
    [number_of_args] is its length. *)
Fixpoint aws_byte_buf_cat_loop (w : world) (dest : aws_byte_buf)
    (args : list cat_arg) : outcome (Z * aws_byte_buf * world) :=
  match args with
  | [] => Returns (AWS_OP_SUCCESS, dest, w)
  | arg :: args' =>
      let buffer := match arg with dest_itself => dest | other_buf b => b end in
      let cursor := aws_byte_cursor_from_buf buffer in
      match aws_byte_buf_append w dest cursor with
      | Returns (rc, dest, w) =>
          if negb (rc =? 0) then Returns (AWS_OP_ERR, dest, w)
          else aws_byte_buf_cat_loop w dest args'
      | Aborts => Aborts
      | OutOfFuel => OutOfFuel
      end
  end.

Definition aws_byte_buf_cat (w : world) (dest : option aws_byte_buf)
    (args : list cat_arg) : outcome (Z * aws_byte_buf * world) :=
  match dest with
  | None => Aborts
  | Some dest => aws_byte_buf_cat_loop w dest args
  end.

(** ** The dynamic array

    [source/array_list.c] and [aws/common/array_list.inl] are not part of
    the sources at hand; the three operations that the proof harnesses call
    are modelled from the specification. *)

(** [struct aws_array_list { struct aws_allocator *alloc; size_t current_size;
    size_t length; size_t item_size; void *data; }] *)
Record aws_array_list : Type := mkArrayList {
  al_alloc : Z;
  al_current_size : Z;
  al_length : Z;
  al_item_size : Z;
  al_data : Z
}.

(** Modelled from the spec: [aws_array_list_clean_up] releases the storage
    if allocated, then zeroes [alloc], [current_size], [length], [item_size]
    and [data]. *)
Definition aws_array_list_clean_up (w : world) (list : aws_array_list)
    : aws_array_list * world :=
  let w :=
    if negb (al_alloc list =? NULL) && negb (al_data list =? NULL)
    then aws_mem_release w (al_alloc list) (al_data list)
    else w in
  (mkArrayList NULL 0 0 0 NULL, w).




(** ** The proof harnesses

    The nondeterministic list and [n] of a harness are its arguments, what
    [ASSUME_BOUNDED_ARRAY_LIST] assumes is a hypothesis of the theorems, and
    the harness [Aborts] when one of its assertions fails. *)

Definition aws_array_list_clean_up_harness (w : world) (list : aws_array_list)
    : outcome unit :=
  let '(list, w) := aws_array_list_clean_up w list in
  assert! (al_alloc list =? NULL) ;;
  assert! (al_current_size list =? 0) ;;
  assert! (al_length list =? 0) ;;
  assert! (al_item_size list =? 0) ;;
  assert! (al_data list =? NULL) ;;
  Returns tt.


End Allocation.



(** ** Byte cursor comparison *)

Definition aws_byte_cursor_eq (h : heap_t) (a b : option aws_byte_cursor) : bool :=
  match a, b with
  | Some a, Some b =>
      if negb (cursor_len a =? cursor_len b) then false
      else if (cursor_ptr a =? NULL) || (cursor_ptr b =? NULL)
      then cursor_ptr a =? cursor_ptr b
      else memcmp h (cursor_ptr a) (cursor_ptr b) (cursor_len a) =? 0
  | None, None => true
  | _, _ => false
  end.

Definition aws_byte_cursor_eq_byte_buf (h : heap_t) (a : option aws_byte_cursor)
    (b : option aws_byte_buf) : bool :=
  match a, b with
  | Some a, Some b =>
      if negb (cursor_len a =? buf_len b) then false
      else if (cursor_ptr a =? NULL) || (buf_buffer b =? NULL)
      then cursor_ptr a =? buf_buffer b
      else memcmp h (cursor_ptr a) (buf_buffer b) (cursor_len a) =? 0
  | None, None => true
  | _, _ => false
  end.

(** ** The lowercase table *)

Module TolowerTable.

(** A C character constant is an [int], the code of the character. *)
Definition char_constant (s : list byte) : option Z :=
  match s with
  | [b] => Some (u8 b)
  | _ => None
  end.

Definition no_char_constant (z : Z) : option (list byte) := None.

Declare Scope c_char_scope.
String Notation Z char_constant no_char_constant : c_char_scope.
Local Open Scope c_char_scope.

(* Every possible uint8_t value, lowercased *)
Definition s_tolower_table : list Z := [
    0;   1;   2;   3;   4;   5;   6;   7;   8;   9;   10;  11;  12;  13;  14;  15;  16;  17;  18;  19;  20;  21;
    22;  23;  24;  25;  26;  27;  28;  29;  30;  31;  32;  33;  34;  35;  36;  37;  38;  39;  40;  41;  42;  43;
    44;  45;  46;  47;  48;  49;  50;  51;  52;  53;  54;  55;  56;  57;  58;  59;  60;  61;  62;  63;  64;  "a";
    "b"; "c"; "d"; "e"; "f"; "g"; "h"; "i"; "j"; "k"; "l"; "m"; "n"; "o"; "p"; "q"; "r"; "s"; "t"; "u"; "v"; "w";
    "x"; "y"; "z"; 91;  92;  93;  94;  95;  96;  "a"; "b"; "c"; "d"; "e"; "f"; "g"; "h"; "i"; "j"; "k"; "l"; "m";
    "n"; "o"; "p"; "q"; "r"; "s"; "t"; "u"; "v"; "w"; "x"; "y"; "z"; 123; 124; 125; 126; 127; 128; 129; 130; 131;
    132; 133; 134; 135; 136; 137; 138; 139; 140; 141; 142; 143; 144; 145; 146; 147; 148; 149; 150; 151; 152; 153;
    154; 155; 156; 157; 158; 159; 160; 161; 162; 163; 164; 165; 166; 167; 168; 169; 170; 171; 172; 173; 174; 175;
    176; 177; 178; 179; 180; 181; 182; 183; 184; 185; 186; 187; 188; 189; 190; 191; 192; 193; 194; 195; 196; 197;
    198; 199; 200; 201; 202; 203; 204; 205; 206; 207; 208; 209; 210; 211; 212; 213; 214; 215; 216; 217; 218; 219;
    220; 221; 222; 223; 224; 225; 226; 227; 228; 229; 230; 231; 232; 233; 234; 235; 236; 237; 238; 239; 240; 241;
    242; 243; 244; 245; 246; 247; 248; 249; 250; 251; 252; 253; 254; 255]%Z.

End TolowerTable.

Import TolowerTable.

(** [s_tolower_table[b]] for a [uint8_t] [b]. *)
Definition tolower (b : byte) : Z := nth (Byte.to_nat b) s_tolower_table 0.

Fixpoint eq_case_insensitive_loop (h : heap_t) (a b : aws_byte_cursor)
    (i : Z) (n : nat) : bool :=
  match n with
  | O => true
  | S n' =>
      if negb (tolower (h (cursor_ptr a + i)) =? tolower (h (cursor_ptr b + i)))
      then false
      else eq_case_insensitive_loop h a b (i + 1) n'
  end.

Definition aws_byte_cursor_eq_case_insensitive (h : heap_t)
    (a b : option aws_byte_cursor) : bool :=
  match a, b with
  | Some a, Some b =>
      if negb (cursor_len a =? cursor_len b) then false
      else eq_case_insensitive_loop h a b 0 (Z.to_nat (cursor_len a))
  | None, None => true
  | _, _ => false
  end.

(** ** FNV-1a over the lowercased bytes *)

Definition fnv_offset_basis : Z := 0xcbf29ce484222325.
Definition fnv_prime : Z := 0x100000001b3.

(** The body of [while (i != end)], run for the [end - i] bytes left. *)
Fixpoint hash_loop (h : heap_t) (i : Z) (n : nat) (hash : Z) : Z :=
  match n with
  | O => hash
  | S n' =>
      let lower := tolower (h i) in
      let hash := Z.lxor hash lower in
      let hash := size_wrap (hash * fnv_prime) in
      hash_loop h (i + 1) n' hash
  end.

Definition aws_hash_byte_cursor_ptr_case_insensitive (h : heap_t)
    (item : aws_byte_cursor) : Z :=
  let i := cursor_ptr item in
  let end_ := cursor_ptr item + cursor_len item in
  hash_loop h i (Z.to_nat (end_ - i)) fnv_offset_basis.

(** ** Splitting *)

(** [split_on] is a [char], signed here: compared with a byte it is
    promoted as it is, while [memchr] converts it to [unsigned char]. *)
Definition aws_byte_cursor_next_split (h : heap_t) (input_str : aws_byte_cursor)
    (split_on : Z) (substr : aws_byte_cursor) : bool * aws_byte_cursor :=
  let first_run := cursor_ptr substr =? NULL in
  let substr := if first_run then mkCursor 0 (cursor_ptr input_str) else substr in
  if cursor_ptr substr >? cursor_ptr input_str + cursor_len input_str then
    (false, zero_cursor)
  else
    let substr := mkCursor (cursor_len substr) (cursor_ptr substr + cursor_len substr) in
    let substr :=
      mkCursor (size_wrap (cursor_len input_str - (cursor_ptr substr - cursor_ptr input_str)))
               (cursor_ptr substr) in
    if negb first_run && (cursor_len substr =? 0) then (false, zero_cursor)
    else
      let skip := negb first_run && (u8 (h (cursor_ptr substr)) =? split_on) in
      let substr :=
        if skip
        then mkCursor (size_wrap (cursor_len substr - 1)) (cursor_ptr substr + 1)
        else substr in
      if skip && (cursor_len substr =? 0) then (true, substr)
      else
        let new_location := memchr h (cursor_ptr substr) split_on (cursor_len substr) in
        let substr :=
          if negb (new_location =? NULL)
          then mkCursor (new_location - cursor_ptr substr) (cursor_ptr substr)
          else substr in
        (true, substr).

(** [sizeof(struct aws_byte_cursor)] on an LP64 target. *)
Definition sizeof_aws_byte_cursor : Z := 16.

Section Split.

(** The output list, through the two things the split uses of it. *)
Variable array_list : Type.
Variable item_size_of : array_list -> Z.
Variable aws_array_list_push_back : array_list -> aws_byte_cursor -> Z * array_list.

Fixpoint split_on_char_n_loop (fuel : nat) (h : heap_t)
    (input_str : aws_byte_cursor) (split_on max_splits split_count : Z)
    (substr : aws_byte_cursor) (output : array_list) : outcome (Z * array_list) :=
  match fuel with
  | O => OutOfFuel
  | S fuel' =>
      if negb (split_count <=? max_splits) then Returns (AWS_OP_SUCCESS, output)
      else
        let '(more, substr) := aws_byte_cursor_next_split h input_str split_on substr in
        if negb more then Returns (AWS_OP_SUCCESS, output)
        else
          let substr :=
            if split_count =? max_splits
            then mkCursor (size_wrap (cursor_len input_str - (cursor_ptr substr - cursor_ptr input_str)))
                          (cursor_ptr substr)
            else substr in
          let '(rc, output) := aws_array_list_push_back output substr in
          if negb (rc =? 0) then Returns (AWS_OP_ERR, output)
          else
            split_on_char_n_loop fuel' h input_str split_on max_splits
              (size_wrap (split_count + 1)) substr output
  end.

Definition aws_byte_cursor_split_on_char_n (fuel : nat) (h : heap_t)
    (input_str : option aws_byte_cursor) (split_on n : Z)
    (output : option array_list) : outcome (Z * array_list) :=
  match input_str, output with
  | Some input_str, Some output =>
      assert! negb (cursor_ptr input_str =? NULL) ;;
      assert! (item_size_of output >=? sizeof_aws_byte_cursor) ;;
      let max_splits := if n >? 0 then n else SIZE_MAX in
      let split_count := 0 in
      let substr := zero_cursor in
      split_on_char_n_loop fuel h input_str split_on max_splits split_count substr output
  | _, _ => Aborts
  end.

Definition aws_byte_cursor_split_on_char (fuel : nat) (h : heap_t)
    (input_str : option aws_byte_cursor) (split_on : Z)
    (output : option array_list) : outcome (Z * array_list) :=
  aws_byte_cursor_split_on_char_n fuel h input_str split_on 0 output.

End Split.

(** ** Definitions used to state the properties *)

(** Length of the segment that starts at [q] when [n] bytes are left: up to
    the first [c], or all of them. *)
Definition segment_len (h : heap_t) (q c n : Z) : Z :=
  let new_location := memchr h q c n in
  if negb (new_location =? NULL) then new_location - q else n.

(** The results of [n] successive calls of [aws_byte_cursor_next_split] on
    one state cursor. *)
Fixpoint next_split_calls (n : nat) (h : heap_t) (input_str : aws_byte_cursor)
    (split_on : Z) (substr : aws_byte_cursor) : list (bool * aws_byte_cursor) :=
  match n with
  | O => []
  | S n' =>
      let r := aws_byte_cursor_next_split h input_str split_on substr in
      r :: next_split_calls n' h input_str split_on (snd r)
  end.

Definition segment_text (h : heap_t) (c : aws_byte_cursor) : string :=
  string_of_list_byte (cursor_bytes h c).

(** Two bytes that are equal, or the two cases of one ASCII letter. *)
Definition is_ascii_upper (x : byte) : Prop := 65 <= u8 x <= 90.

Definition same_ignoring_ascii_case (x y : byte) : Prop :=
  x = y \/
  (is_ascii_upper x /\ u8 y = u8 x + 32) \/
  (is_ascii_upper y /\ u8 x = u8 y + 32).

(** ** Concrete worlds, allocators and lists *)

(** A heap that holds [bs] at [base] and zero elsewhere. *)
Definition heap_of_bytes (base : Z) (bs : list byte) : heap_t :=
  fun a => if base <=? a then nth (Z.to_nat (a - base)) bs x00 else x00.

Definition empty_world : world :=
  mkWorld (fun _ => x00) AWS_ERROR_SUCCESS [] [].

(** An allocator that is out of memory. *)
Definition oom_allocator (w : world) (allocator size : Z) : Z * heap_t :=
  (NULL, heap w).

(** An allocator that hands out the block at address [base]. *)
Definition block_allocator (base : Z) (w : world) (allocator size : Z)
    : Z * heap_t :=
  (base, heap w).

(** Modelled from the spec: [aws_array_list_push_back] on a list of cursors
    with room to grow appends the cursor and succeeds. *)
Definition cursor_list_push_back (l : list aws_byte_cursor) (c : aws_byte_cursor)
    : Z * list aws_byte_cursor :=
  (AWS_OP_SUCCESS, l ++ [c]).

(** ** The rest of [byte_buf.c] *)

Definition aws_byte_buf_clean_up_secure (w : world) (buf : aws_byte_buf)
    : aws_byte_buf * world :=
  let '(buf, w) := aws_byte_buf_secure_zero w buf in
  aws_byte_buf_clean_up w buf.

Definition aws_byte_buf_eq (h : heap_t) (a b : option aws_byte_buf) : bool :=
  match a, b with
  | Some a, Some b =>
      if negb (buf_len a =? buf_len b) then false
      else if (buf_buffer a =? NULL) || (buf_buffer b =? NULL)
      then buf_buffer a =? buf_buffer b
      else memcmp h (buf_buffer a) (buf_buffer b) (buf_len a) =? 0
  | None, None => true
  | _, _ => false
  end.

(** [typedef bool(aws_byte_predicate_fn)(uint8_t value)] *)
Definition aws_byte_predicate_fn : Type := byte -> bool.

(** The loop of [aws_byte_cursor_right_trim_pred]; each turn decrements
    [len], so [len] turns are all it can take. *)
Fixpoint right_trim_loop (turns : nat) (h : heap_t) (predicate : aws_byte_predicate_fn)
    (trimmed : aws_byte_cursor) : aws_byte_cursor :=
  match turns with
  | O => trimmed
  | S turns' =>
      if (cursor_len trimmed >? 0) &&
         predicate (h (cursor_ptr trimmed + cursor_len trimmed - 1))
      then right_trim_loop turns' h predicate
             (mkCursor (size_wrap (cursor_len trimmed - 1)) (cursor_ptr trimmed))
      else trimmed
  end.

Definition aws_byte_cursor_right_trim_pred (h : heap_t) (source : aws_byte_cursor)
    (predicate : aws_byte_predicate_fn) : aws_byte_cursor :=
  let trimmed := source in
  right_trim_loop (Z.to_nat (cursor_len trimmed)) h predicate trimmed.

(** The loop of [aws_byte_cursor_left_trim_pred]. *)
Fixpoint left_trim_loop (turns : nat) (h : heap_t) (predicate : aws_byte_predicate_fn)
    (trimmed : aws_byte_cursor) : aws_byte_cursor :=
  match turns with
  | O => trimmed
  | S turns' =>
      if (cursor_len trimmed >? 0) && predicate (h (cursor_ptr trimmed))
      then left_trim_loop turns' h predicate
             (mkCursor (size_wrap (cursor_len trimmed - 1)) (cursor_ptr trimmed + 1))
      else trimmed
  end.

Definition aws_byte_cursor_left_trim_pred (h : heap_t) (source : aws_byte_cursor)
    (predicate : aws_byte_predicate_fn) : aws_byte_cursor :=
  let trimmed := source in
  left_trim_loop (Z.to_nat (cursor_len trimmed)) h predicate trimmed.

Definition aws_byte_cursor_trim_pred (h : heap_t) (source : aws_byte_cursor)
    (predicate : aws_byte_predicate_fn) : aws_byte_cursor :=
  let left_trimmed := aws_byte_cursor_left_trim_pred h source predicate in
  aws_byte_cursor_right_trim_pred h left_trimmed predicate.

Definition aws_byte_cursor_satisfies_pred (h : heap_t) (source : aws_byte_cursor)
    (predicate : aws_byte_predicate_fn) : bool :=
  let trimmed := aws_byte_cursor_left_trim_pred h source predicate in
  cursor_len trimmed =? 0.

(** ** Splitting, as a specification *)

(** The segments of the [m] bytes that follow the [len] bytes at [start],
    which lie in one segment with them: cut at every byte equal to [c]. *)
Fixpoint split_cursors (h : heap_t) (c : Z) (start len : Z) (m : nat)
    : list aws_byte_cursor :=
  match m with
  | O => [mkCursor len start]
  | S m' =>
      if u8 (h (start + len)) =? c
      then mkCursor len start :: split_cursors h c (start + len + 1) 0 m'
      else split_cursors h c start (len + 1) m'
  end.

(** The segments joined again, with the delimiter between them. *)
Fixpoint join_bytes (d : byte) (segments : list (list byte)) : list byte :=
  match segments with
  | [] => []
  | s :: rest =>
      match rest with
      | [] => s
      | _ :: _ => s ++ d :: join_bytes d rest
      end
  end.

(** What [aws_byte_cursor_split_on_char_n] pushes, from the segments still
    to come: they are pushed as they are while [split_count < max_splits],
    and at [split_count == max_splits] the next one is stretched to the end
    of the input and is the last. *)
Fixpoint pushed_segments (input_str : aws_byte_cursor) (max_splits split_count : Z)
    (segments : list aws_byte_cursor) : list aws_byte_cursor :=
  match segments with
  | [] => []
  | s :: rest =>
      if split_count <? max_splits
      then s :: pushed_segments input_str max_splits (split_count + 1) rest
      else if split_count =? max_splits
      then [mkCursor (cursor_ptr input_str + cursor_len input_str - cursor_ptr s)
              (cursor_ptr s)]
      else []
  end.

(** What the calls return for these segments: [true] with each, then
    [false] with the zeroed state. *)
Definition split_results (segments : list aws_byte_cursor) : list (bool * aws_byte_cursor) :=
  map (pair true) segments ++ [(false, zero_cursor)].

(** The segments that follow a state: none when the state's segment ends
    the input, otherwise (it ends at a delimiter) those of the bytes after
    that delimiter. *)
Definition segments_after (h : heap_t) (input_str : aws_byte_cursor) (c : Z)
    (substr : aws_byte_cursor) : list aws_byte_cursor :=
  let next := cursor_ptr substr + cursor_len substr in
  let end_ := cursor_ptr input_str + cursor_len input_str in
  if next <? end_
  then split_cursors h c (next + 1) 0 (Z.to_nat (end_ - (next + 1)))
  else [].

(** A list of cursors with room for so many more, as a static array list:
    [push_back] appends while there is room and fails without a change
    when there is none. *)
Definition bounded_list_push_back (l : list aws_byte_cursor * nat) (c : aws_byte_cursor)
    : Z * (list aws_byte_cursor * nat) :=
  match snd l with
  | O => (AWS_OP_ERR, l)
  | S r => (AWS_OP_SUCCESS, (fst l ++ [c], r))
  end.

(** The lengths of sources of [aws_byte_buf_cat] that are not the
    destination, summed. *)
Definition total_len (args : list aws_byte_buf) : Z :=
  fold_right (fun b acc => buf_len b + acc) 0 args.

(** ** The test logger ([tests/logging/test_logger.c]) *)

(** [buffer[i] = v] *)
Definition store_byte (h : heap_t) (p : Z) (v : byte) : heap_t :=
  fun a => if a =? p then v else h a.

(** [strlen(s)]: the index of the first zero byte, looked for among the
    first [fuel] bytes. *)
Fixpoint strlen_loop (fuel : nat) (h : heap_t) (s n : Z) : outcome Z :=
  match fuel with
  | O => OutOfFuel
  | S fuel' =>
      if u8 (h (s + n)) =? 0 then Returns n else strlen_loop fuel' h s (n + 1)
  end.

Definition strlen (fuel : nat) (h : heap_t) (s : Z) : outcome Z :=
  strlen_loop fuel h s 0.

(** [struct test_logger_impl], by the fields the code uses. *)
Record test_logger_impl : Type := mkImpl {
  impl_level : Z;
  impl_log_buffer : aws_byte_buf;
  impl_allocator : Z
}.

(** The two functions a test logger's vtable points to. *)
Inductive test_logger_fn : Type :=
| s_test_logger_get_log_level_fn
| s_test_logger_log_fn.

(** [struct aws_logger_vtable], by the fields the code sets. *)
Record aws_logger_vtable : Type := mkVtable {
  get_log_level_fn : option test_logger_fn;
  log_fn : option test_logger_fn
}.

(** [struct aws_logger { struct aws_logger_vtable *vtable; void *p_impl; }] *)
Record aws_logger : Type := mkLogger {
  logger_vtable : Z;
  logger_p_impl : Z
}.

Section TestLogger.

(** What [test_logger.h] and [error.h] declare and the sources at hand do
    not show. *)
Variable AWS_ERROR_INVALID_ARGUMENT : aws_common_error.
Variable TEST_LOGGER_MAX_BUFFER_SIZE : Z.
Variable sizeof_test_logger_impl : Z.
Variable sizeof_aws_logger_vtable : Z.

Variable mem_acquire : world -> Z -> Z -> Z * heap_t.

(** [test_logger_init]: the structures it allocates are outside the byte
    heap; the call returns what it has written into the block of the
    implementation and into the block of the vtable.  [impl] is what the
    fresh block of the implementation holds. *)
Definition test_logger_init (w : world) (logger : aws_logger)
    (impl : test_logger_impl) (allocator level : Z)
    : Z * aws_logger * test_logger_impl * aws_logger_vtable * world :=
  let vtable0 := mkVtable None None in
  let '(impl_p, w) := aws_mem_acquire mem_acquire w allocator sizeof_test_logger_impl in
  if impl_p =? NULL then
    let '(rc, w) := aws_raise_error w AWS_ERROR_OOM in
    (rc, logger, impl, vtable0, w)
  else
    let '(vtable_p, w) := aws_mem_acquire mem_acquire w allocator sizeof_aws_logger_vtable in
    if vtable_p =? NULL then
      let w := aws_mem_release w allocator impl_p in
      let '(rc, w) := aws_raise_error w AWS_ERROR_OOM in
      (rc, logger, impl, vtable0, w)
    else
      let vtable := mkVtable (Some s_test_logger_get_log_level_fn) (log_fn vtable0) in
      let vtable := mkVtable (get_log_level_fn vtable) (Some s_test_logger_log_fn) in
      let '(rc, log_buffer, w) :=
        aws_byte_buf_init mem_acquire w (impl_log_buffer impl) allocator
          TEST_LOGGER_MAX_BUFFER_SIZE in
      let impl := mkImpl (impl_level impl) log_buffer (impl_allocator impl) in
      if negb (rc =? 0) then
        let w := aws_mem_release w allocator vtable_p in
        let w := aws_mem_release w allocator impl_p in
        (AWS_OP_ERR, logger, impl, vtable, w)
      else
        let impl := mkImpl level (impl_log_buffer impl) (impl_allocator impl) in
        let impl := mkImpl (impl_level impl) (impl_log_buffer impl) allocator in
        let logger := mkLogger vtable_p (logger_p_impl logger) in
        let logger := mkLogger (logger_vtable logger) impl_p in
        (AWS_OP_SUCCESS, logger, impl, vtable, w).

(** [test_logger_cleanup]; [impl] is what [logger->p_impl] points to. *)
Definition test_logger_cleanup (w : world) (logger : aws_logger)
    (impl : test_logger_impl) : test_logger_impl * world :=
  let '(log_buffer, w) := aws_byte_buf_clean_up w (impl_log_buffer impl) in
  let impl := mkImpl (impl_level impl) log_buffer (impl_allocator impl) in
  let allocator := impl_allocator impl in
  let w := aws_mem_release w allocator (logger_p_impl logger) in
  (impl, w).

Definition test_logger_get_contents (w : world) (impl : test_logger_impl)
    (buffer max_length : Z) : Z * world :=
  let copy_length := size_wrap (max_length - 1) in
  let copy_length :=
    if buf_len (impl_log_buffer impl) <? copy_length
    then buf_len (impl_log_buffer impl)
    else copy_length in
  if copy_length <? 0 then aws_raise_error w AWS_ERROR_INVALID_ARGUMENT
  else
    let w :=
      if copy_length >? 0
      then set_heap w (memcpy (heap w) buffer (buf_buffer (impl_log_buffer impl)) copy_length)
      else w in
    let w := set_heap w (store_byte (heap w) (buffer + copy_length) x00) in
    (AWS_OP_SUCCESS, w).

Definition test_logger_compare_contents (fuel : nat) (h : heap_t)
    (impl : test_logger_impl) (expected_contents : Z) : outcome Z :=
  match strlen fuel h expected_contents with
  | Returns min_length =>
      let min_length :=
        if buf_len (impl_log_buffer impl) <? min_length
        then buf_len (impl_log_buffer impl)
        else min_length in
      if negb (memcmp h expected_contents (buf_buffer (impl_log_buffer impl)) min_length =? 0)
      then Returns AWS_OP_ERR
      else Returns AWS_OP_SUCCESS
  | Aborts => Aborts
  | OutOfFuel => OutOfFuel
  end.

End TestLogger.

(** An allocator that hands out a fresh block at each call, and none once
    [limit] blocks have been asked for. *)
Definition counting_allocator (limit : nat) (w : world) (allocator size : Z)
    : Z * heap_t :=
  let served := List.length (acquired w) in
  if (served <? limit)%nat
  then (1000 + 1000 * Z.of_nat served, heap w)
  else (NULL, heap w).

(** * Properties *)

(** ** Arithmetic and memory lemmas *)

Lemma size_wrap_small x : is_size_t x -> size_wrap x = x.
Proof.
  unfold is_size_t, SIZE_MAX, size_wrap. intros H. apply Z.mod_small. lia.
Qed.

Lemma in_range_true p n a : p <= a < p + n -> in_range p n a = true.
Proof. unfold in_range. intros H. apply andb_true_iff. split; [apply Z.leb_le | apply Z.ltb_lt]; lia. Qed.

Lemma in_range_false p n a : a < p \/ p + n <= a -> in_range p n a = false.
Proof.
  unfold in_range. intros H. apply andb_false_iff.
  destruct H; [left; apply Z.leb_gt | right; apply Z.ltb_ge]; lia.
Qed.

Lemma u8_inj x y : u8 x = u8 y -> x = y.
Proof.
  unfold u8. intros H. apply N2Z.inj in H.
  assert (E : Byte.of_N (Byte.to_N x) = Byte.of_N (Byte.to_N y)) by now rewrite H.
  rewrite !Byte.of_to_N in E. now injection E.
Qed.

Lemma memcmp_loop_zero h a b n :
  memcmp_loop h a b n = 0 <->
  (forall i, 0 <= i < Z.of_nat n -> h (a + i) = h (b + i)).
Proof.
  revert a b. induction n as [|n IH]; intros a b; cbn [memcmp_loop].
  - split; [intros _ i Hi; lia | reflexivity].
  - destruct (Z.eqb_spec (u8 (h a)) (u8 (h b))) as [E|E].
    + rewrite IH. apply u8_inj in E. split.
      * intros H i Hi. destruct (Z.eq_dec i 0) as [->|Hz].
        -- now rewrite !Z.add_0_r.
        -- specialize (H (i - 1) ltac:(lia)).
           now replace (a + 1 + (i - 1)) with (a + i) in H by lia;
             replace (b + 1 + (i - 1)) with (b + i) in H by lia.
      * intros H i Hi. specialize (H (i + 1) ltac:(lia)).
        now replace (a + (i + 1)) with (a + 1 + i) in H by lia;
          replace (b + (i + 1)) with (b + 1 + i) in H by lia.
    + split.
      * intros H. exfalso. lia.
      * intros H. exfalso. apply E. specialize (H 0 ltac:(lia)).
        rewrite !Z.add_0_r in H. now rewrite H.
Qed.

Lemma memcmp_zero h a b n :
  0 <= n ->
  (memcmp h a b n = 0 <-> forall i, 0 <= i < n -> h (a + i) = h (b + i)).
Proof.
  intros Hn. unfold memcmp. rewrite memcmp_loop_zero, Z2Nat.id by exact Hn.
  reflexivity.
Qed.

Lemma memchr_loop_hit h q c n :
  u8 (h q) = c -> memchr_loop h q c (S n) = q.
Proof. intros H. cbn [memchr_loop]. now rewrite H, Z.eqb_refl. Qed.

Lemma memchr_loop_miss h q c n :
  u8 (h q) <> c -> memchr_loop h q c (S n) = memchr_loop h (q + 1) c n.
Proof. intros H. cbn [memchr_loop]. apply Z.eqb_neq in H. now rewrite H. Qed.

(** ** One call of [aws_byte_cursor_next_split] *)

Ltac resolve_cmp :=
  repeat match goal with
  | |- context [?a =? ?b] =>
      first [ replace (a =? b) with true by (symmetry; apply Z.eqb_eq; lia)
            | replace (a =? b) with false by (symmetry; apply Z.eqb_neq; lia) ]
  | |- context [?a >? ?b] =>
      first [ replace (a >? b) with true by (symmetry; rewrite Z.gtb_ltb; apply Z.ltb_lt; lia)
            | replace (a >? b) with false by (symmetry; rewrite Z.gtb_ltb; apply Z.ltb_ge; lia) ]
  | |- context [?a <=? ?b] =>
      first [ replace (a <=? b) with true by (symmetry; apply Z.leb_le; lia)
            | replace (a <=? b) with false by (symmetry; apply Z.leb_gt; lia) ]
  end.

(** The first call, on a zeroed state: the first segment. *)
Lemma next_split_first h n p c :
  p <> NULL -> is_size_t n ->
  aws_byte_cursor_next_split h (mkCursor n p) c zero_cursor
  = (true, mkCursor (segment_len h p c n) p).
Proof.
  intros Hp Hn. unfold aws_byte_cursor_next_split, segment_len, zero_cursor.
  cbn [cursor_ptr cursor_len].
  replace (NULL =? NULL) with true by reflexivity.
  cbn [cursor_ptr cursor_len negb andb].
  unfold is_size_t in Hn.
  replace (p >? p + n) with false by (symmetry; rewrite Z.gtb_ltb; apply Z.ltb_ge; lia).
  replace (p + 0) with p by lia.
  replace (n - (p - p)) with n by lia.
  rewrite size_wrap_small by exact Hn.
  destruct (memchr h p c n =? NULL); reflexivity.
Qed.

(** A later call, when the previous segment [l] bytes at [q] is followed by
    the delimiter: the segment after that delimiter. *)
Lemma next_split_next h n p c l q :
  0 < p -> is_size_t n -> p <= q -> 0 <= l -> q + l < p + n ->
  u8 (h (q + l)) = c ->
  aws_byte_cursor_next_split h (mkCursor n p) c (mkCursor l q)
  = (true, mkCursor (segment_len h (q + l + 1) c (p + n - (q + l + 1))) (q + l + 1)).
Proof.
  intros Hp Hn Hq Hl Hin Hc.
  unfold aws_byte_cursor_next_split, segment_len, NULL, is_size_t in *.
  cbn [cursor_ptr cursor_len].
  replace (q =? 0) with false by (symmetry; apply Z.eqb_neq; lia).
  cbn [cursor_ptr cursor_len negb andb].
  replace (q >? p + n) with false by (symmetry; rewrite Z.gtb_ltb; apply Z.ltb_ge; lia).
  rewrite (size_wrap_small (n - (q + l - p))) by (unfold is_size_t; lia).
  replace (n - (q + l - p) =? 0) with false by (symmetry; apply Z.eqb_neq; lia).
  rewrite Hc, Z.eqb_refl.
  cbn [cursor_ptr cursor_len negb andb].
  rewrite (size_wrap_small (n - (q + l - p) - 1)) by (unfold is_size_t; lia).
  replace (n - (q + l - p) - 1) with (p + n - (q + l + 1)) by lia.
  destruct (p + n - (q + l + 1) =? 0) eqn:E.
  - apply Z.eqb_eq in E. rewrite E. reflexivity.
  - destruct (memchr h (q + l + 1) c (p + n - (q + l + 1)) =? 0); reflexivity.
Qed.

(** A later call, when the previous segment ended the input: the scan is
    over and the state is zeroed. *)
Lemma next_split_done h n p c l q :
  0 < p -> is_size_t n -> p <= q -> 0 <= l -> q + l = p + n ->
  aws_byte_cursor_next_split h (mkCursor n p) c (mkCursor l q) = (false, zero_cursor).
Proof.
  intros Hp Hn Hq Hl Hin. unfold aws_byte_cursor_next_split, NULL, is_size_t in *.
  cbn [cursor_ptr cursor_len].
  replace (q =? 0) with false by (symmetry; apply Z.eqb_neq; lia).
  cbn [cursor_ptr cursor_len negb andb].
  replace (q >? p + n) with false by (symmetry; rewrite Z.gtb_ltb; apply Z.ltb_ge; lia).
  replace (n - (q + l - p)) with 0 by lia.
  reflexivity.
Qed.

(** ** One turn of the loop of [aws_byte_cursor_split_on_char_n] *)

Section SplitLoop.

Variable array_list : Type.
Variable item_size_of : array_list -> Z.
Variable push_back : array_list -> aws_byte_cursor -> Z * array_list.

Local Abbreviation loop := (split_on_char_n_loop array_list push_back).

Lemma split_loop_push fuel h input_str c max_splits split_count substr output
    substr' output' :
  split_count < max_splits ->
  aws_byte_cursor_next_split h input_str c substr = (true, substr') ->
  push_back output substr' = (AWS_OP_SUCCESS, output') ->
  loop (S fuel) h input_str c max_splits split_count substr output
  = loop fuel h input_str c max_splits (size_wrap (split_count + 1)) substr' output'.
Proof.
  intros Hlt Hnext Hpush. cbn [split_on_char_n_loop].
  replace (split_count <=? max_splits) with true by (symmetry; apply Z.leb_le; lia).
  cbn [negb]. rewrite Hnext. cbn [negb].
  replace (split_count =? max_splits) with false by (symmetry; apply Z.eqb_neq; lia).
  rewrite Hpush. reflexivity.
Qed.

Lemma split_loop_push_rest fuel h input_str c max_splits substr output
    substr' output' :
  let rest :=
    mkCursor (size_wrap (cursor_len input_str - (cursor_ptr substr' - cursor_ptr input_str)))
             (cursor_ptr substr') in
  aws_byte_cursor_next_split h input_str c substr = (true, substr') ->
  push_back output rest = (AWS_OP_SUCCESS, output') ->
  loop (S fuel) h input_str c max_splits max_splits substr output
  = loop fuel h input_str c max_splits (size_wrap (max_splits + 1)) rest output'.
Proof.
  intros rest Hnext Hpush. cbn [split_on_char_n_loop].
  rewrite Z.leb_refl. cbn [negb]. rewrite Hnext. cbn [negb].
  rewrite Z.eqb_refl. fold rest. rewrite Hpush. reflexivity.
Qed.

Lemma split_loop_exhausted fuel h input_str c max_splits split_count substr output :
  split_count <= max_splits ->
  fst (aws_byte_cursor_next_split h input_str c substr) = false ->
  loop (S fuel) h input_str c max_splits split_count substr output
  = Returns (AWS_OP_SUCCESS, output).
Proof.
  intros Hle Hnext. cbn [split_on_char_n_loop].
  replace (split_count <=? max_splits) with true by (symmetry; apply Z.leb_le; lia).
  cbn [negb].
  destruct (aws_byte_cursor_next_split h input_str c substr) as [more s'].
  cbn [fst] in Hnext. subst more. reflexivity.
Qed.

Lemma split_loop_capped fuel h input_str c max_splits split_count substr output :
  max_splits < split_count ->
  loop (S fuel) h input_str c max_splits split_count substr output
  = Returns (AWS_OP_SUCCESS, output).
Proof.
  intros Hlt. cbn [split_on_char_n_loop].
  replace (split_count <=? max_splits) with false by (symmetry; apply Z.leb_gt; lia).
  reflexivity.
Qed.

End SplitLoop.

(** ** Splitting "a,b,,c," on ',' *)

Section SplitExample.

Variable h : heap_t.
Variable p : Z.
Hypothesis p_valid : 0 < p.
Hypothesis input_bytes : read_bytes h p 7 = list_byte_of_string "a,b,,c,".

(** The output list: any implementation whose [push_back] appends. *)
Variable array_list : Type.
Variable item_size_of : array_list -> Z.
Variable push_back : array_list -> aws_byte_cursor -> Z * array_list.
Variable contents : array_list -> list aws_byte_cursor.
Hypothesis push_back_appends :
  forall l c, exists l',
    push_back l c = (AWS_OP_SUCCESS, l') /\ contents l' = contents l ++ [c].

Local Abbreviation input_str := (mkCursor 7 p).
Local Abbreviation comma := 44.

Lemma example_bytes :
  h p = "a"%byte /\ h (p + 1) = ","%byte /\ h (p + 2) = "b"%byte /\
  h (p + 3) = ","%byte /\ h (p + 4) = ","%byte /\ h (p + 5) = "c"%byte /\
  h (p + 6) = ","%byte.
Proof.
  pose proof input_bytes as H. cbn [read_bytes] in H.
  injection H as H0 H1 H2 H3 H4 H5 H6.
  replace (p + 1 + 1) with (p + 2) in * by lia.
  replace (p + 2 + 1) with (p + 3) in * by lia.
  replace (p + 3 + 1) with (p + 4) in * by lia.
  replace (p + 4 + 1) with (p + 5) in * by lia.
  replace (p + 5 + 1) with (p + 6) in * by lia.
  repeat split; assumption.
Qed.

Ltac known_byte :=
  match goal with
  | |- context [h ?e] => ring_simplify e
  end;
  match goal with
  | H : h ?a = _ |- context [h ?a] => rewrite H
  end.

Ltac byte_is := known_byte; reflexivity.
Ltac byte_is_not := known_byte; let E := fresh in intro E; vm_compute in E; discriminate E.

Ltac scan :=
  unfold segment_len, memchr;
  match goal with
  | |- context [Z.to_nat ?n] =>
      ring_simplify n;
      match goal with
      | |- context [Z.to_nat ?m] =>
          let k := eval vm_compute in (Z.to_nat m) in change (Z.to_nat m) with k
      end
  end;
  change (44 mod 256) with 44;
  repeat first
    [ rewrite memchr_loop_hit by byte_is
    | rewrite memchr_loop_miss by byte_is_not ];
  cbn [memchr_loop]; unfold NULL;
  resolve_cmp; cbn [negb].

Ltac bounds := unfold is_size_t, SIZE_MAX, NULL; lia.

Ltac push_step Hcall Hpush :=
  erewrite split_loop_push;
  [ | vm_compute; reflexivity | exact Hcall | exact Hpush ].

Lemma example_call1 :
  aws_byte_cursor_next_split h input_str comma zero_cursor = (true, mkCursor 1 p).
Proof.
  destruct example_bytes as (H0 & H1 & H2 & H3 & H4 & H5 & H6).
  rewrite next_split_first by bounds.
  scan. do 2 f_equal. lia.
Qed.

Lemma example_call2 :
  aws_byte_cursor_next_split h input_str comma (mkCursor 1 p) = (true, mkCursor 1 (p + 2)).
Proof.
  destruct example_bytes as (H0 & H1 & H2 & H3 & H4 & H5 & H6).
  rewrite next_split_next by first [bounds | byte_is].
  scan. f_equal. f_equal; lia.
Qed.

Lemma example_call3 :
  aws_byte_cursor_next_split h input_str comma (mkCursor 1 (p + 2)) = (true, mkCursor 0 (p + 4)).
Proof.
  destruct example_bytes as (H0 & H1 & H2 & H3 & H4 & H5 & H6).
  rewrite next_split_next by first [bounds | byte_is].
  scan. f_equal. f_equal; lia.
Qed.

Lemma example_call4 :
  aws_byte_cursor_next_split h input_str comma (mkCursor 0 (p + 4)) = (true, mkCursor 1 (p + 5)).
Proof.
  destruct example_bytes as (H0 & H1 & H2 & H3 & H4 & H5 & H6).
  rewrite next_split_next by first [bounds | byte_is].
  scan. f_equal. f_equal; lia.
Qed.

Lemma example_call5 :
  aws_byte_cursor_next_split h input_str comma (mkCursor 1 (p + 5)) = (true, mkCursor 0 (p + 7)).
Proof.
  destruct example_bytes as (H0 & H1 & H2 & H3 & H4 & H5 & H6).
  rewrite next_split_next by first [bounds | byte_is].
  scan. f_equal. f_equal; lia.
Qed.

Lemma example_call6 :
  aws_byte_cursor_next_split h input_str comma (mkCursor 0 (p + 7)) = (false, zero_cursor).
Proof. apply next_split_done; bounds. Qed.

Lemma example_calls :
  next_split_calls 6 h input_str comma zero_cursor
  = [ (true, mkCursor 1 p); (true, mkCursor 1 (p + 2)); (true, mkCursor 0 (p + 4));
      (true, mkCursor 1 (p + 5)); (true, mkCursor 0 (p + 7)); (false, zero_cursor) ].
Proof.
  cbn [next_split_calls].
  rewrite example_call1; cbn [snd]. rewrite example_call2; cbn [snd].
  rewrite example_call3; cbn [snd]. rewrite example_call4; cbn [snd].
  rewrite example_call5; cbn [snd]. rewrite example_call6. reflexivity.
Qed.

Lemma example_texts :
  segment_text h (mkCursor 1 p) = "a"%string /\
  segment_text h (mkCursor 1 (p + 2)) = "b"%string /\
  segment_text h (mkCursor 0 (p + 4)) = ""%string /\
  segment_text h (mkCursor 1 (p + 5)) = "c"%string /\
  segment_text h (mkCursor 0 (p + 7)) = ""%string /\
  segment_text h (mkCursor 3 (p + 4)) = ",c,"%string.
Proof.
  destruct example_bytes as (H0 & H1 & H2 & H3 & H4 & H5 & H6).
  unfold segment_text, cursor_bytes. cbn [cursor_len cursor_ptr].
  change (Z.to_nat 1) with 1%nat. change (Z.to_nat 0) with 0%nat.
  change (Z.to_nat 3) with 3%nat. cbn [read_bytes].
  replace (p + 4 + 1) with (p + 5) by lia.
  replace (p + 5 + 1) with (p + 6) by lia.
  rewrite H0, H2, H4, H5, H6. repeat split; reflexivity.
Qed.

Lemma example_unlimited fuel output :
  (6 <= fuel)%nat ->
  exists output',
    split_on_char_n_loop array_list push_back fuel h input_str comma SIZE_MAX 0
      zero_cursor output = Returns (AWS_OP_SUCCESS, output') /\
    contents output'
    = contents output ++
      [ mkCursor 1 p; mkCursor 1 (p + 2); mkCursor 0 (p + 4); mkCursor 1 (p + 5);
        mkCursor 0 (p + 7) ].
Proof.
  intros Hfuel.
  do 6 (destruct fuel as [|fuel]; [lia|]).
  destruct (push_back_appends output (mkCursor 1 p)) as (o1 & P1 & C1).
  destruct (push_back_appends o1 (mkCursor 1 (p + 2))) as (o2 & P2 & C2).
  destruct (push_back_appends o2 (mkCursor 0 (p + 4))) as (o3 & P3 & C3).
  destruct (push_back_appends o3 (mkCursor 1 (p + 5))) as (o4 & P4 & C4).
  destruct (push_back_appends o4 (mkCursor 0 (p + 7))) as (o5 & P5 & C5).
  exists o5. split.
  - push_step example_call1 P1.
    push_step example_call2 P2.
    push_step example_call3 P3.
    push_step example_call4 P4.
    push_step example_call5 P5.
    apply split_loop_exhausted.
    + vm_compute. discriminate.
    + now rewrite example_call6.
  - rewrite C5, C4, C3, C2, C1, <- !app_assoc. reflexivity.
Qed.

Lemma example_two_splits fuel output :
  (4 <= fuel)%nat ->
  exists output',
    split_on_char_n_loop array_list push_back fuel h input_str comma 2 0
      zero_cursor output = Returns (AWS_OP_SUCCESS, output') /\
    contents output'
    = contents output ++ [ mkCursor 1 p; mkCursor 1 (p + 2); mkCursor 3 (p + 4) ].
Proof.
  intros Hfuel.
  do 4 (destruct fuel as [|fuel]; [lia|]).
  destruct (push_back_appends output (mkCursor 1 p)) as (o1 & P1 & C1).
  destruct (push_back_appends o1 (mkCursor 1 (p + 2))) as (o2 & P2 & C2).
  destruct (push_back_appends o2 (mkCursor 3 (p + 4))) as (o3 & P3 & C3).
  exists o3. split.
  - push_step example_call1 P1.
    push_step example_call2 P2.
    change (size_wrap (size_wrap (0 + 1) + 1)) with 2.
    assert (Hrest :
      mkCursor (size_wrap (cursor_len input_str - (cursor_ptr (mkCursor 0 (p + 4)) - cursor_ptr input_str)))
               (cursor_ptr (mkCursor 0 (p + 4))) = mkCursor 3 (p + 4)).
    { cbn [cursor_len cursor_ptr].
      replace (7 - (p + 4 - p)) with 3 by lia. reflexivity. }
    erewrite split_loop_push_rest;
      [ | exact example_call3 | rewrite Hrest; exact P3 ].
    apply split_loop_capped. vm_compute. reflexivity.
  - rewrite C3, C2, C1, <- !app_assoc. reflexivity.
Qed.

End SplitExample.

(** C1.  The input "a,b,,c," split on ',': six successive calls of
    [aws_byte_cursor_next_split] on a zeroed state give the segments "a",
    "b", "", "c", "" and then [false] with the state zeroed again;
    [aws_byte_cursor_split_on_char_n] with [n = 0] pushes these five
    segments, and with [n = 2] it pushes "a", "b" and the unsplit
    remainder ",c,".  The input may lie at any address of any heap, and the
    output list may be any implementation whose [push_back] appends. *)
Theorem split_on_comma_example
    (h : heap_t) (p : Z)
    (array_list : Type) (item_size_of : array_list -> Z)
    (push_back : array_list -> aws_byte_cursor -> Z * array_list)
    (contents : array_list -> list aws_byte_cursor) (output : array_list) :
  0 < p ->
  read_bytes h p 7 = list_byte_of_string "a,b,,c," ->
  (forall l c, exists l',
      push_back l c = (AWS_OP_SUCCESS, l') /\ contents l' = contents l ++ [c]) ->
  sizeof_aws_byte_cursor <= item_size_of output ->
  contents output = [] ->
  let input_str := mkCursor 7 p in
  let split_n := aws_byte_cursor_split_on_char_n array_list item_size_of push_back in
  let calls := next_split_calls 6 h input_str 44 zero_cursor in
  map (fun r => (fst r, segment_text h (snd r))) calls
  = [ (true, "a"); (true, "b"); (true, ""); (true, "c"); (true, ""); (false, "") ]%string
  /\ nth 5 calls (true, input_str) = (false, zero_cursor)
  /\ (forall fuel, (6 <= fuel)%nat ->
        exists output',
          split_n fuel h (Some input_str) 44 0 (Some output)
          = Returns (AWS_OP_SUCCESS, output') /\
          map (segment_text h) (contents output') = [ "a"; "b"; ""; "c"; "" ]%string)
  /\ (forall fuel, (4 <= fuel)%nat ->
        exists output',
          split_n fuel h (Some input_str) 44 2 (Some output)
          = Returns (AWS_OP_SUCCESS, output') /\
          map (segment_text h) (contents output') = [ "a"; "b"; ",c," ]%string).
Proof.
  intros Hp Hbytes Hpush Hsize Hempty input_str split_n calls.
  destruct (example_texts h p Hbytes) as (T1 & T2 & T3 & T4 & T5 & T6).
  assert (Hcalls : calls
    = [ (true, mkCursor 1 p); (true, mkCursor 1 (p + 2)); (true, mkCursor 0 (p + 4));
        (true, mkCursor 1 (p + 5)); (true, mkCursor 0 (p + 7)); (false, zero_cursor) ])
    by exact (example_calls h p Hp Hbytes).
  assert (Hentry : forall fuel n,
    split_n fuel h (Some input_str) 44 n (Some output)
    = split_on_char_n_loop array_list push_back fuel h input_str 44
        (if n >? 0 then n else SIZE_MAX) 0 zero_cursor output).
  { intros fuel n. unfold split_n, aws_byte_cursor_split_on_char_n, input_str, c_assert.
    cbn [cursor_ptr].
    replace (p =? NULL) with false by (symmetry; apply Z.eqb_neq; unfold NULL; lia).
    replace (item_size_of output >=? sizeof_aws_byte_cursor) with true
      by (symmetry; rewrite Z.geb_leb; apply Z.leb_le; lia).
    reflexivity. }
  repeat split.
  - rewrite Hcalls. cbn [map fst snd]. rewrite T1, T2, T3, T4, T5. reflexivity.
  - rewrite Hcalls. reflexivity.
  - intros fuel Hfuel. rewrite Hentry. change (0 >? 0) with false. cbv iota.
    destruct (example_unlimited h p Hp Hbytes array_list push_back contents Hpush
                fuel output Hfuel) as (output' & Hrun & Hout).
    exists output'. split; [exact Hrun|].
    rewrite Hout, Hempty. cbn [app map]. rewrite T1, T2, T3, T4, T5. reflexivity.
  - intros fuel Hfuel. rewrite Hentry. change (2 >? 0) with true. cbv iota.
    destruct (example_two_splits h p Hp Hbytes array_list push_back contents Hpush
                fuel output Hfuel) as (output' & Hrun & Hout).
    exists output'. split; [exact Hrun|].
    rewrite Hout, Hempty. cbn [app map]. rewrite T1, T2, T6. reflexivity.
Qed.

(** The example at address 4096 of a heap that holds the input, with the
    list of cursors as output. *)
Lemma split_on_comma_example_witness :
  let h := heap_of_bytes 4096 (list_byte_of_string "a,b,,c,") in
  let input_str := mkCursor 7 4096 in
  let split_n :=
    aws_byte_cursor_split_on_char_n (list aws_byte_cursor)
      (fun _ => sizeof_aws_byte_cursor) cursor_list_push_back in
  let calls := next_split_calls 6 h input_str 44 zero_cursor in
  map (fun r => (fst r, segment_text h (snd r))) calls
  = [ (true, "a"); (true, "b"); (true, ""); (true, "c"); (true, ""); (false, "") ]%string
  /\ nth 5 calls (true, input_str) = (false, zero_cursor)
  /\ (forall fuel, (6 <= fuel)%nat ->
        exists output',
          split_n fuel h (Some input_str) 44 0 (Some [])
          = Returns (AWS_OP_SUCCESS, output') /\
          map (segment_text h) output' = [ "a"; "b"; ""; "c"; "" ]%string)
  /\ (forall fuel, (4 <= fuel)%nat ->
        exists output',
          split_n fuel h (Some input_str) 44 2 (Some [])
          = Returns (AWS_OP_SUCCESS, output') /\
          map (segment_text h) output' = [ "a"; "b"; ",c," ]%string).
Proof.
  apply (split_on_comma_example
           (heap_of_bytes 4096 (list_byte_of_string "a,b,,c,")) 4096
           (list aws_byte_cursor) (fun _ => sizeof_aws_byte_cursor)
           cursor_list_push_back (fun l => l) []).
  - lia.
  - reflexivity.
  - intros l c. exists (l ++ [c]). split; reflexivity.
  - lia.
  - reflexivity.
Defined.

(** ** The dynamic array *)

(** C2.  After [aws_array_list_clean_up] the list has [alloc == NULL],
    [current_size == 0], [length == 0], [item_size == 0] and
    [data == NULL], whatever its fields were before the call, so the five
    assertions of the harness pass; of the world only the release log can
    change. *)
Theorem aws_array_list_clean_up_zeroes (w : world) (list : aws_array_list) :
  let list' := fst (aws_array_list_clean_up w list) in
  let w' := snd (aws_array_list_clean_up w list) in
  al_alloc list' = NULL /\
  al_current_size list' = 0 /\
  al_length list' = 0 /\
  al_item_size list' = 0 /\
  al_data list' = NULL /\
  aws_array_list_clean_up_harness w list = Returns tt /\
  heap w' = heap w /\ last_error w' = last_error w /\ acquired w' = acquired w.
Proof.
  unfold aws_array_list_clean_up_harness, aws_array_list_clean_up.
  cbn [fst snd al_alloc al_current_size al_length al_item_size al_data].
  destruct (negb (al_alloc list =? NULL) && negb (al_data list =? NULL));
    repeat split; reflexivity.
Qed.






(** ** Byte buffers *)

Lemma memcpy_copied h dst src n i :
  0 <= i < n -> memcpy h dst src n (dst + i) = h (src + i).
Proof.
  intros Hi. unfold memcpy. rewrite in_range_true by lia. f_equal. lia.
Qed.

Lemma memcpy_elsewhere h dst src n a :
  a < dst \/ dst + n <= a -> memcpy h dst src n a = h a.
Proof. intros Ha. unfold memcpy. now rewrite in_range_false. Qed.

(** C4, as the claim states it, fails where an assertion of
    [aws_byte_buf_append] does.  The view of a cleaned-up buffer is an empty
    cursor with a null pointer; it fits into a buffer that holds 3 of its 8
    bytes, and the call aborts instead of returning success; this is the
    call [aws_byte_buf_cat] makes for a cleaned-up argument.  So does the
    call on a cleaned-up destination. *)
Lemma aws_byte_buf_append_null_aborts :
  let to := mkBuf 3 8192 8 1 in
  let cleaned := fst (aws_byte_buf_clean_up empty_world (mkBuf 2 4096 2 1)) in
  let from := aws_byte_cursor_from_buf cleaned in
  buf_len to <= buf_capacity to /\
  cursor_len from <= buf_capacity to - buf_len to /\
  aws_byte_buf_append empty_world to from = Aborts /\
  (forall r, aws_byte_buf_append empty_world to from <> Returns r) /\
  aws_byte_buf_cat empty_world (Some to) [other_buf cleaned] = Aborts /\
  aws_byte_buf_append empty_world cleaned (mkCursor 0 4096) = Aborts.
Proof.
  cbn [buf_len buf_capacity cursor_len aws_byte_cursor_from_buf aws_byte_buf_clean_up fst].
  repeat split; try lia.
  intros r. discriminate.
Qed.

(** C4, amended.  For a destination with a non-null buffer and
    [len <= capacity] and a source with a non-null pointer: when
    [source.len > dest.capacity - dest.len] the call returns the error with
    destination-too-small raised, and the destination and the heap are as
    before; otherwise it returns success, the [source.len] bytes at
    [dest.buffer + dest.len] are the source's bytes, every other byte of
    the heap is as before, [len] has advanced by [source.len] and
    [buffer], [capacity] and [allocator] are unchanged. *)
Theorem aws_byte_buf_append_checked (w : world) (to : aws_byte_buf)
    (from : aws_byte_cursor) :
  buf_buffer to <> NULL ->
  cursor_ptr from <> NULL ->
  is_size_t (buf_len to) ->
  is_size_t (buf_capacity to) ->
  is_size_t (cursor_len from) ->
  buf_len to <= buf_capacity to ->
  (cursor_len from > buf_capacity to - buf_len to ->
   aws_byte_buf_append w to from
   = Returns (AWS_OP_ERR, to,
              mkWorld (heap w) AWS_ERROR_DEST_COPY_TOO_SMALL (acquired w) (released w)))
  /\
  (cursor_len from <= buf_capacity to - buf_len to ->
   exists w',
     aws_byte_buf_append w to from
     = Returns (AWS_OP_SUCCESS,
                mkBuf (buf_len to + cursor_len from) (buf_buffer to)
                  (buf_capacity to) (buf_allocator to),
                w') /\
     (forall i, 0 <= i < cursor_len from ->
        heap w' (buf_buffer to + buf_len to + i) = heap w (cursor_ptr from + i)) /\
     (forall a, a < buf_buffer to + buf_len to \/
                buf_buffer to + buf_len to + cursor_len from <= a ->
        heap w' a = heap w a) /\
     last_error w' = last_error w /\
     acquired w' = acquired w /\ released w' = released w).
Proof.
  intros Hbuf Hptr Hlen Hcap Hfrom Hle.
  unfold aws_byte_buf_append, c_assert.
  destruct (Z.eqb_spec (cursor_ptr from) NULL) as [E|_]; [contradiction|].
  destruct (Z.eqb_spec (buf_buffer to) NULL) as [E|_]; [contradiction|].
  cbn [negb].
  rewrite (size_wrap_small (buf_capacity to - buf_len to))
    by (unfold is_size_t in *; lia).
  split.
  - intros Hbig.
    replace (buf_capacity to - buf_len to <? cursor_len from) with true
      by (symmetry; apply Z.ltb_lt; lia).
    reflexivity.
  - intros Hfits.
    replace (buf_capacity to - buf_len to <? cursor_len from) with false
      by (symmetry; apply Z.ltb_ge; lia).
    rewrite (size_wrap_small (buf_len to + cursor_len from))
      by (unfold is_size_t in *; lia).
    eexists. split; [reflexivity|].
    cbn [heap last_error acquired released set_heap].
    repeat split.
    + intros i Hi. now apply memcpy_copied.
    + intros a Ha. now apply memcpy_elsewhere.
Qed.

(** "lo" appended to a buffer of capacity 8 that holds 3 bytes. *)
Lemma aws_byte_buf_append_checked_witness :
  let w := mkWorld (heap_of_bytes 4096 (list_byte_of_string "lo")) AWS_ERROR_SUCCESS [] [] in
  let to := mkBuf 3 8192 8 1 in
  let from := mkCursor 2 4096 in
  (buf_buffer to <> NULL /\ cursor_ptr from <> NULL /\ buf_len to <= buf_capacity to /\
   cursor_len from <= buf_capacity to - buf_len to) /\
  exists w',
    aws_byte_buf_append w to from = Returns (AWS_OP_SUCCESS, mkBuf 5 8192 8 1, w') /\
    read_bytes (heap w') 8195 2 = list_byte_of_string "lo".
Proof.
  pose (w := mkWorld (heap_of_bytes 4096 (list_byte_of_string "lo")) AWS_ERROR_SUCCESS [] []).
  split; [unfold NULL; cbn; lia|].
  destruct (aws_byte_buf_append_checked w (mkBuf 3 8192 8 1) (mkCursor 2 4096))
    as [_ Hfits]; try (unfold NULL, is_size_t, SIZE_MAX; cbn; lia).
  destruct Hfits as (w' & Hrun & Hcopied & _); [cbn; lia|].
  exists w'. split; [exact Hrun|].
  cbn [buf_buffer buf_len cursor_len cursor_ptr] in Hcopied.
  pose proof (Hcopied 0 ltac:(lia)) as H0. pose proof (Hcopied 1 ltac:(lia)) as H1.
  change (8192 + 3 + 0) with 8195 in H0. change (8192 + 3 + 1) with 8196 in H1.
  cbn [read_bytes]. change (8195 + 1) with 8196. rewrite H0, H1. reflexivity.
Defined.

(** C5, as the claim states it, fails: with an allocator that is out of
    memory, [aws_byte_buf_init] returns the error and has overwritten the
    [buffer] field of the caller's structure with [NULL]. *)
Lemma aws_byte_buf_init_failure_writes_buffer :
  let buf := mkBuf 3 4096 8 7 in
  let r := aws_byte_buf_init oom_allocator empty_world buf 7 16 in
  fst (oom_allocator empty_world 7 16) = NULL /\
  fst (fst r) = AWS_OP_ERR /\
  snd (fst r) = mkBuf 3 NULL 8 7 /\
  snd (fst r) <> buf.
Proof. repeat split. discriminate. Qed.

(** C5, amended.  When the allocator provides no memory,
    [aws_byte_buf_init] returns the error with out-of-memory raised, the
    [buffer] field is [NULL], and [len], [capacity] and [allocator] are as
    before the call. *)
Theorem aws_byte_buf_init_failure
    (mem_acquire : world -> Z -> Z -> Z * heap_t) (w : world)
    (buf : aws_byte_buf) (allocator capacity : Z) :
  fst (mem_acquire w allocator capacity) = NULL ->
  let r := aws_byte_buf_init mem_acquire w buf allocator capacity in
  fst (fst r) = AWS_OP_ERR /\
  last_error (snd r) = AWS_ERROR_OOM /\
  buf_buffer (snd (fst r)) = NULL /\
  buf_len (snd (fst r)) = buf_len buf /\
  buf_capacity (snd (fst r)) = buf_capacity buf /\
  buf_allocator (snd (fst r)) = buf_allocator buf.
Proof.
  intros Hfail. unfold aws_byte_buf_init, aws_mem_acquire.
  destruct (mem_acquire w allocator capacity) as [p h']. cbn [fst] in Hfail. subst p.
  cbn [buf_buffer]. change (NULL =? NULL) with true. cbv iota.
  repeat split.
Qed.

Lemma aws_byte_buf_init_failure_witness :
  let buf := mkBuf 3 4096 8 7 in
  let r := aws_byte_buf_init oom_allocator empty_world buf 7 16 in
  fst (oom_allocator empty_world 7 16) = NULL /\
  fst (fst r) = AWS_OP_ERR /\
  last_error (snd r) = AWS_ERROR_OOM /\
  buf_buffer (snd (fst r)) = NULL /\
  buf_len (snd (fst r)) = 3 /\
  buf_capacity (snd (fst r)) = 8 /\
  buf_allocator (snd (fst r)) = 7.
Proof.
  split; [reflexivity|].
  apply (aws_byte_buf_init_failure oom_allocator empty_world (mkBuf 3 4096 8 7) 7 16).
  reflexivity.
Defined.

(** [aws_byte_buf_init] with memory: the structure is fully initialised. *)
Lemma aws_byte_buf_init_success mem_acquire w buf allocator capacity :
  fst (mem_acquire w allocator capacity) <> NULL ->
  let r := aws_byte_buf_init mem_acquire w buf allocator capacity in
  fst (fst r) = AWS_OP_SUCCESS /\
  snd (fst r) = mkBuf 0 (fst (mem_acquire w allocator capacity)) capacity allocator.
Proof.
  intros Hok. unfold aws_byte_buf_init, aws_mem_acquire.
  destruct (mem_acquire w allocator capacity) as [p h']. cbn [fst] in Hok.
  cbn [buf_buffer]. destruct (Z.eqb_spec p NULL) as [E|_]; [contradiction|].
  split; reflexivity.
Qed.

(** C6.  [aws_byte_buf_init_copy_from_cursor] then
    [aws_byte_cursor_from_buf]: for a source with a non-null pointer, when
    the call returns success and the block the allocator handed out lies
    apart from the source bytes, the view of the result is equal under
    [aws_byte_cursor_eq] to the source, and the call does return success
    whenever the allocator hands out a block; for a source with a null
    pointer the call (on a destination and with an allocator, as it
    asserts) returns success in the same world, so without a request to
    the allocator, and the result has [len == 0] and [allocator == NULL]. *)
Theorem init_copy_from_cursor_round_trip
    (mem_acquire : world -> Z -> Z -> Z * heap_t) (w : world)
    (dest : aws_byte_buf) (allocator : Z) (src : aws_byte_cursor) :
  allocator <> NULL ->
  is_size_t (cursor_len src) ->
  let r := aws_byte_buf_init_copy_from_cursor mem_acquire w (Some dest) allocator src in
  (cursor_ptr src <> NULL ->
   forall dest' w',
     r = Returns (AWS_OP_SUCCESS, dest', w') ->
     buf_buffer dest' + cursor_len src <= cursor_ptr src \/
     cursor_ptr src + cursor_len src <= buf_buffer dest' ->
     aws_byte_cursor_eq (heap w') (Some (aws_byte_cursor_from_buf dest')) (Some src) = true)
  /\
  (cursor_ptr src <> NULL ->
   fst (mem_acquire w allocator (cursor_len src)) <> NULL ->
   exists w',
     r = Returns (AWS_OP_SUCCESS,
                  mkBuf (cursor_len src) (fst (mem_acquire w allocator (cursor_len src)))
                    (cursor_len src) allocator,
                  w') /\
     acquired w' = (allocator, cursor_len src) :: acquired w)
  /\
  (cursor_ptr src = NULL ->
   exists dest',
     r = Returns (AWS_OP_SUCCESS, dest', w) /\
     buf_len dest' = 0 /\ buf_allocator dest' = NULL /\
     buf_buffer dest' = NULL /\ buf_capacity dest' = 0).
Proof.
  intros Halloc Hlen r. subst r.
  unfold aws_byte_buf_init_copy_from_cursor, c_assert.
  destruct (Z.eqb_spec allocator NULL) as [E|_]; [contradiction|]. cbn [negb].
  rewrite Z.mul_1_l, (size_wrap_small _ Hlen).
  split; [|split].
  - intros Hsrc dest' w'.
    destruct (Z.eqb_spec (cursor_ptr src) NULL) as [E|_]; [contradiction|].
    unfold aws_mem_acquire.
    destruct (mem_acquire w allocator (cursor_len src)) as [p h'].
    cbn [buf_buffer buf_len buf_capacity buf_allocator].
    destruct (Z.eqb_spec p NULL) as [E|Hp].
    + intros H. injection H as H _ _. unfold AWS_OP_ERR, AWS_OP_SUCCESS in H. discriminate.
    + intros H Hapart. injection H as <- <-.
      cbn [heap set_heap buf_buffer] in *.
      unfold aws_byte_cursor_eq, aws_byte_cursor_from_buf.
      cbn [cursor_len cursor_ptr buf_len buf_buffer].
      rewrite Z.eqb_refl. cbn [negb].
      destruct (Z.eqb_spec p NULL) as [E|_]; [contradiction|].
      destruct (Z.eqb_spec (cursor_ptr src) NULL) as [E|_]; [contradiction|].
      cbn [orb]. apply Z.eqb_eq. unfold is_size_t in Hlen.
      apply memcmp_zero; [lia|].
      intros i Hi. rewrite memcpy_copied by exact Hi.
      rewrite memcpy_elsewhere by lia. reflexivity.
  - intros Hsrc Hblock.
    destruct (Z.eqb_spec (cursor_ptr src) NULL) as [E|_]; [contradiction|].
    unfold aws_mem_acquire.
    destruct (mem_acquire w allocator (cursor_len src)) as [p h']. cbn [fst] in Hblock.
    cbn [buf_buffer buf_len buf_capacity buf_allocator].
    destruct (Z.eqb_spec p NULL) as [E|_]; [contradiction|].
    eexists. split; reflexivity.
  - intros Hsrc. rewrite Hsrc. change (NULL =? NULL) with true. cbv iota.
    eexists. split; [reflexivity|].
    repeat split.
Qed.

(** "abc" at address 4096 copied into the block at address 8192. *)
Lemma init_copy_from_cursor_round_trip_witness :
  let w := mkWorld (heap_of_bytes 4096 (list_byte_of_string "abc")) AWS_ERROR_SUCCESS [] [] in
  let src := mkCursor 3 4096 in
  exists dest' w',
    aws_byte_buf_init_copy_from_cursor (block_allocator 8192) w
      (Some (mkBuf 0 NULL 0 NULL)) 1 src
    = Returns (AWS_OP_SUCCESS, dest', w') /\
    dest' = mkBuf 3 8192 3 1 /\
    cursor_bytes (heap w') (aws_byte_cursor_from_buf dest') = list_byte_of_string "abc" /\
    aws_byte_cursor_eq (heap w') (Some (aws_byte_cursor_from_buf dest')) (Some src) = true.
Proof.
  intros w src. eexists. eexists.
  split; [reflexivity|]. split; [reflexivity|]. split; [reflexivity|].
  refine (proj1 (init_copy_from_cursor_round_trip (block_allocator 8192) w
                   (mkBuf 0 NULL 0 NULL) 1 src _ _) _ _ _ eq_refl _).
  - unfold NULL. lia.
  - unfold is_size_t, SIZE_MAX. cbn. lia.
  - unfold NULL. cbn. lia.
  - right. cbn. lia.
Defined.

(** ** Case-insensitive comparison and hashing *)

Lemma eq_case_insensitive_loop_true h a b i n :
  eq_case_insensitive_loop h a b i n = true <->
  (forall j, 0 <= j < Z.of_nat n ->
     tolower (h (cursor_ptr a + (i + j))) = tolower (h (cursor_ptr b + (i + j)))).
Proof.
  revert i. induction n as [|n IH]; intros i; cbn [eq_case_insensitive_loop].
  - split; [intros _ j Hj; lia | reflexivity].
  - destruct (Z.eqb_spec (tolower (h (cursor_ptr a + i))) (tolower (h (cursor_ptr b + i))))
      as [E|E]; cbn [negb].
    + rewrite IH. split.
      * intros H j Hj. destruct (Z.eq_dec j 0) as [->|Hz].
        -- now rewrite !Z.add_0_r.
        -- specialize (H (j - 1) ltac:(lia)).
           now replace (i + 1 + (j - 1)) with (i + j) in H by lia.
      * intros H j Hj. specialize (H (j + 1) ltac:(lia)).
        now replace (i + (j + 1)) with (i + 1 + j) in H by lia.
    + split; [discriminate|].
      intros H. exfalso. apply E. specialize (H 0 ltac:(lia)).
      now rewrite !Z.add_0_r in H.
Qed.

Lemma hash_loop_same_lowercase h p q n :
  (forall j, 0 <= j < Z.of_nat n -> tolower (h (p + j)) = tolower (h (q + j))) ->
  forall hash, hash_loop h p n hash = hash_loop h q n hash.
Proof.
  revert p q. induction n as [|n IH]; intros p q H hash; cbn [hash_loop]; [reflexivity|].
  pose proof (H 0 ltac:(lia)) as H0. rewrite !Z.add_0_r in H0. rewrite H0.
  apply IH. intros j Hj. specialize (H (j + 1) ltac:(lia)).
  now replace (p + (j + 1)) with (p + 1 + j) in H by lia;
    replace (q + (j + 1)) with (q + 1 + j) in H by lia.
Qed.

Lemma hash_loop_last h p n hash :
  hash_loop h p (S n) hash
  = size_wrap (Z.lxor (hash_loop h p n hash) (tolower (h (p + Z.of_nat n))) * fnv_prime).
Proof.
  revert p hash. induction n as [|n IH]; intros p hash.
  - cbn [hash_loop]. now rewrite Z.add_0_r.
  - change (hash_loop h p (S (S n)) hash)
      with (hash_loop h (p + 1) (S n) (size_wrap (Z.lxor hash (tolower (h p)) * fnv_prime))).
    rewrite IH. replace (p + Z.of_nat (S n)) with (p + 1 + Z.of_nat n) by lia.
    reflexivity.
Qed.

(** C7.  Two cursors that [aws_byte_cursor_eq_case_insensitive] finds equal
    have the same [aws_hash_byte_cursor_ptr_case_insensitive]; and that
    hash is FNV-1a over the lowercased bytes: 0xcbf29ce484222325 for no
    byte, and for one byte more the hash so far xor the lowercased byte,
    times 0x100000001b3, modulo 2^64. *)
Theorem hash_respects_eq_case_insensitive (h : heap_t) (a b : aws_byte_cursor) :
  (aws_byte_cursor_eq_case_insensitive h (Some a) (Some b) = true ->
   aws_hash_byte_cursor_ptr_case_insensitive h a
   = aws_hash_byte_cursor_ptr_case_insensitive h b)
  /\ aws_hash_byte_cursor_ptr_case_insensitive h (mkCursor 0 (cursor_ptr a))
     = 0xcbf29ce484222325
  /\ (forall n, 0 <= n ->
        aws_hash_byte_cursor_ptr_case_insensitive h (mkCursor (n + 1) (cursor_ptr a))
        = (Z.lxor (aws_hash_byte_cursor_ptr_case_insensitive h (mkCursor n (cursor_ptr a)))
                  (tolower (h (cursor_ptr a + n)))
           * 0x100000001b3) mod 2 ^ 64).
Proof.
  unfold aws_byte_cursor_eq_case_insensitive, aws_hash_byte_cursor_ptr_case_insensitive.
  cbn [cursor_ptr cursor_len].
  split; [|split].
  - destruct (Z.eqb_spec (cursor_len a) (cursor_len b)) as [E|E]; cbn [negb]; [|discriminate].
    intros H. pose proof (proj1 (eq_case_insensitive_loop_true _ _ _ _ _) H) as Hlower.
    cbn beta in Hlower.
    replace (cursor_ptr a + cursor_len a - cursor_ptr a) with (cursor_len a) by lia.
    replace (cursor_ptr b + cursor_len b - cursor_ptr b) with (cursor_len a) by lia.
    apply hash_loop_same_lowercase. intros j Hj.
    specialize (Hlower j Hj). now rewrite Z.add_0_l in Hlower.
  - replace (cursor_ptr a + 0 - cursor_ptr a) with 0 by lia. reflexivity.
  - intros n Hn.
    replace (cursor_ptr a + (n + 1) - cursor_ptr a) with (n + 1) by lia.
    replace (cursor_ptr a + n - cursor_ptr a) with n by lia.
    replace (Z.to_nat (n + 1)) with (S (Z.to_nat n)) by lia.
    rewrite hash_loop_last, Z2Nat.id by exact Hn. reflexivity.
Qed.

(** "HeLLo" and "hEllO" are equal ignoring case and hash alike. *)
Lemma hash_respects_eq_case_insensitive_witness :
  let h := heap_of_bytes 4096 (list_byte_of_string "HeLLohEllO") in
  let a := mkCursor 5 4096 in
  let b := mkCursor 5 4101 in
  aws_byte_cursor_eq_case_insensitive h (Some a) (Some b) = true /\
  aws_byte_cursor_eq h (Some a) (Some b) = false /\
  aws_hash_byte_cursor_ptr_case_insensitive h a
  = aws_hash_byte_cursor_ptr_case_insensitive h b.
Proof.
  intros h a b. split; [reflexivity|]. split; [reflexivity|].
  apply (proj1 (hash_respects_eq_case_insensitive h a b)). reflexivity.
Defined.

(** The table in closed form. *)
Lemma tolower_closed_form (x : byte) :
  tolower x = if (65 <=? u8 x) && (u8 x <=? 90) then u8 x + 32 else u8 x.
Proof. destruct x; reflexivity. Qed.

Lemma u8_range (x : byte) : 0 <= u8 x <= 255.
Proof. unfold u8. pose proof (Byte.to_N_bounded x). lia. Qed.

Lemma tolower_eq_iff (x y : byte) :
  tolower x = tolower y <-> same_ignoring_ascii_case x y.
Proof.
  rewrite !tolower_closed_form. unfold same_ignoring_ascii_case, is_ascii_upper.
  pose proof (u8_range x). pose proof (u8_range y).
  destruct (Z.leb_spec 65 (u8 x)), (Z.leb_spec (u8 x) 90),
    (Z.leb_spec 65 (u8 y)), (Z.leb_spec (u8 y) 90); cbn [andb];
    (split; [ intros E; first [ left; apply u8_inj; lia | right; left; lia | right; right; lia ]
            | intros [-> | [[? ?] | [? ?]]]; lia ]).
Qed.

(** C8.  [s_tolower_table] has 256 entries; it maps the bytes 'A'..'Z'
    (0x41..0x5A) to 'a'..'z' and every other byte, in particular every byte
    from 0x80 on, to itself.  So [aws_byte_cursor_eq_case_insensitive]
    holds exactly of two cursors of the same length whose bytes, position
    by position, are equal or the two cases of one ASCII letter; where
    [aws_byte_cursor_eq] on cursors with non-null pointers asks for equal
    bytes. *)
Theorem tolower_table_ascii_only :
  List.length s_tolower_table = 256%nat /\
  (forall x, 65 <= u8 x <= 90 -> tolower x = u8 x + 32) /\
  (forall x, ~ 65 <= u8 x <= 90 -> tolower x = u8 x) /\
  (forall x, 128 <= u8 x -> tolower x = u8 x) /\
  (forall h a b,
     aws_byte_cursor_eq_case_insensitive h (Some a) (Some b) = true <->
     cursor_len a = cursor_len b /\
     forall i, 0 <= i < cursor_len a ->
       same_ignoring_ascii_case (h (cursor_ptr a + i)) (h (cursor_ptr b + i))) /\
  (forall h a b,
     cursor_ptr a <> NULL -> cursor_ptr b <> NULL ->
     (aws_byte_cursor_eq h (Some a) (Some b) = true <->
      cursor_len a = cursor_len b /\
      forall i, 0 <= i < cursor_len a ->
        h (cursor_ptr a + i) = h (cursor_ptr b + i))).
Proof.
  split; [reflexivity|].
  split.
  { intros x Hx. rewrite tolower_closed_form.
    replace (65 <=? u8 x) with true by (symmetry; apply Z.leb_le; lia).
    replace (u8 x <=? 90) with true by (symmetry; apply Z.leb_le; lia).
    reflexivity. }
  assert (Hother : forall x, ~ 65 <= u8 x <= 90 -> tolower x = u8 x).
  { intros x Hx. rewrite tolower_closed_form.
    destruct (Z.leb_spec 65 (u8 x)), (Z.leb_spec (u8 x) 90); cbn [andb];
      try reflexivity. exfalso. apply Hx. lia. }
  split; [exact Hother|].
  split; [intros x Hx; apply Hother; lia|].
  split.
  - intros h a b. unfold aws_byte_cursor_eq_case_insensitive.
    destruct (Z.eqb_spec (cursor_len a) (cursor_len b)) as [E|E]; cbn [negb].
    + rewrite eq_case_insensitive_loop_true. split.
      * intros H. split; [exact E|]. intros i Hi. apply tolower_eq_iff.
        specialize (H i ltac:(lia)). now rewrite Z.add_0_l in H.
      * intros [_ H] j Hj. rewrite Z.add_0_l. apply tolower_eq_iff. apply H. lia.
    + split; [discriminate | intros [E' _]; contradiction].
  - intros h a b Ha Hb. unfold aws_byte_cursor_eq.
    destruct (Z.eqb_spec (cursor_len a) (cursor_len b)) as [E|E]; cbn [negb].
    + destruct (Z.eqb_spec (cursor_ptr a) NULL) as [F|_]; [contradiction|].
      destruct (Z.eqb_spec (cursor_ptr b) NULL) as [F|_]; [contradiction|].
      cbn [orb]. rewrite Z.eqb_eq. unfold memcmp. rewrite memcmp_loop_zero.
      split.
      * intros H. split; [exact E|]. intros i Hi. apply H. lia.
      * intros [_ H] i Hi. apply H. lia.
    + split; [discriminate | intros [E' _]; contradiction].
Qed.

(** 'A' and 'a' meet in the table, 0x80 is kept, and "HeLLo" equals
    "hEllO" ignoring case. *)
Lemma tolower_table_ascii_only_witness :
  tolower "A"%byte = u8 "a"%byte /\
  tolower x80 = 128 /\
  let h := heap_of_bytes 4096 (list_byte_of_string "HeLLohEllO") in
  forall i, 0 <= i < 5 -> same_ignoring_ascii_case (h (4096 + i)) (h (4101 + i)).
Proof.
  destruct tolower_table_ascii_only as (_ & Hupper & _ & Hhigh & Hci & _).
  split; [apply (Hupper "A"%byte); vm_compute; split; discriminate|].
  split; [apply (Hhigh x80); vm_compute; discriminate|].
  intros h i Hi.
  refine (proj2 (proj1 (Hci h (mkCursor 5 4096) (mkCursor 5 4101)) eq_refl) i Hi).
Defined.

(** ** Secure zeroing *)

(** C9.  On a buffer with a non-null [buffer], [aws_byte_buf_secure_zero]
    leaves every byte of the [capacity] bytes at [buffer] zero and [len]
    zero; [buffer], [capacity] and [allocator] are unchanged, and so are
    the bytes outside the buffer, the last error and the allocator's
    log. *)
Theorem aws_byte_buf_secure_zero_clears_capacity (w : world) (buf : aws_byte_buf) :
  buf_buffer buf <> NULL ->
  let buf' := fst (aws_byte_buf_secure_zero w buf) in
  let w' := snd (aws_byte_buf_secure_zero w buf) in
  (forall a, buf_buffer buf <= a < buf_buffer buf + buf_capacity buf ->
     heap w' a = x00) /\
  buf_len buf' = 0 /\
  buf_buffer buf' = buf_buffer buf /\
  buf_capacity buf' = buf_capacity buf /\
  buf_allocator buf' = buf_allocator buf /\
  (forall a, a < buf_buffer buf \/ buf_buffer buf + buf_capacity buf <= a ->
     heap w' a = heap w a) /\
  last_error w' = last_error w /\
  acquired w' = acquired w /\ released w' = released w.
Proof.
  intros Hbuf. unfold aws_byte_buf_secure_zero.
  destruct (Z.eqb_spec (buf_buffer buf) NULL) as [E|_]; [contradiction|].
  cbn [negb fst snd buf_len buf_buffer buf_capacity buf_allocator heap set_heap
       last_error acquired released].
  repeat split.
  - intros a Ha. unfold aws_secure_zero. now rewrite in_range_true.
  - intros a Ha. unfold aws_secure_zero. now rewrite in_range_false.
Qed.

(** A buffer that uses 3 of its 8 bytes, holding "password". *)
Lemma aws_byte_buf_secure_zero_clears_capacity_witness :
  let w := mkWorld (heap_of_bytes 4096 (list_byte_of_string "password")) AWS_ERROR_SUCCESS [] [] in
  let buf := mkBuf 3 4096 8 1 in
  let buf' := fst (aws_byte_buf_secure_zero w buf) in
  let w' := snd (aws_byte_buf_secure_zero w buf) in
  buf_buffer buf <> NULL /\
  read_bytes (heap w) 4096 8 = list_byte_of_string "password" /\
  read_bytes (heap w') 4096 8 = repeat x00 8 /\
  buf' = mkBuf 0 4096 8 1 /\
  (forall a, 4096 <= a < 4096 + 8 -> heap w' a = x00).
Proof.
  intros w buf buf' w'.
  split; [unfold NULL; cbn; lia|]. split; [reflexivity|]. split; [reflexivity|].
  split; [reflexivity|].
  refine (proj1 (aws_byte_buf_secure_zero_clears_capacity w buf _)).
  unfold NULL. cbn. lia.
Defined.

(** ** Equality of empty cursors *)

(** C10.  Two cursors of length zero are equal under [aws_byte_cursor_eq]
    exactly when their pointers are both null or both non-null, whatever
    the non-null pointers are; and so are a cursor and a buffer of length
    zero under [aws_byte_cursor_eq_byte_buf]. *)
Theorem empty_cursor_eq_null_or_not (h : heap_t) (a b : aws_byte_cursor)
    (buf : aws_byte_buf) :
  cursor_len a = 0 ->
  (cursor_len b = 0 ->
   (aws_byte_cursor_eq h (Some a) (Some b) = true <->
    (cursor_ptr a = NULL /\ cursor_ptr b = NULL) \/
    (cursor_ptr a <> NULL /\ cursor_ptr b <> NULL)))
  /\
  (buf_len buf = 0 ->
   (aws_byte_cursor_eq_byte_buf h (Some a) (Some buf) = true <->
    (cursor_ptr a = NULL /\ buf_buffer buf = NULL) \/
    (cursor_ptr a <> NULL /\ buf_buffer buf <> NULL))).
Proof.
  intros Ha. split.
  - intros Hb. unfold aws_byte_cursor_eq. rewrite Ha, Hb.
    change (negb (0 =? 0)) with false. cbv iota.
    destruct (Z.eqb_spec (cursor_ptr a) NULL) as [Na|Na],
             (Z.eqb_spec (cursor_ptr b) NULL) as [Nb|Nb]; cbn [orb].
    + rewrite Na, Nb. split; [intros _; left; split; reflexivity | reflexivity].
    + rewrite Na. split.
      * intros E. apply Z.eqb_eq in E. exfalso. apply Nb. now symmetry.
      * intros [[_ E] | [E _]]; contradiction.
    + rewrite Nb. split.
      * intros E. apply Z.eqb_eq in E. contradiction.
      * intros [[E _] | [_ E]]; contradiction.
    + split; [intros _; right; split; assumption | reflexivity].
  - intros Hb. unfold aws_byte_cursor_eq_byte_buf. rewrite Ha, Hb.
    change (negb (0 =? 0)) with false. cbv iota.
    destruct (Z.eqb_spec (cursor_ptr a) NULL) as [Na|Na],
             (Z.eqb_spec (buf_buffer buf) NULL) as [Nb|Nb]; cbn [orb].
    + rewrite Na, Nb. split; [intros _; left; split; reflexivity | reflexivity].
    + rewrite Na. split.
      * intros E. apply Z.eqb_eq in E. exfalso. apply Nb. now symmetry.
      * intros [[_ E] | [E _]]; contradiction.
    + rewrite Nb. split.
      * intros E. apply Z.eqb_eq in E. contradiction.
      * intros [[E _] | [_ E]]; contradiction.
    + split; [intros _; right; split; assumption | reflexivity].
Qed.

(** The empty null cursor differs from the empty cursor at address 4096,
    which equals the empty cursor at address 8192. *)
Lemma empty_cursor_eq_null_or_not_witness :
  let h := heap_of_bytes 4096 (list_byte_of_string "x") in
  aws_byte_cursor_eq h (Some (mkCursor 0 NULL)) (Some (mkCursor 0 4096)) = false /\
  aws_byte_cursor_eq h (Some (mkCursor 0 4096)) (Some (mkCursor 0 8192)) = true /\
  aws_byte_cursor_eq_byte_buf h (Some (mkCursor 0 4096)) (Some (mkBuf 0 NULL 8 1)) = false /\
  aws_byte_cursor_eq_byte_buf h (Some (mkCursor 0 4096)) (Some (mkBuf 0 8192 8 1)) = true.
Proof.
  intros h. split; [reflexivity|].
  pose proof (empty_cursor_eq_null_or_not h (mkCursor 0 4096) (mkCursor 0 8192)
                (mkBuf 0 8192 8 1) eq_refl) as [Hc Hb].
  split; [|split; [reflexivity|]].
  - apply (proj2 (Hc eq_refl)). right. unfold NULL. cbn. split; lia.
  - apply (proj2 (Hb eq_refl)). right. unfold NULL. cbn. split; lia.
Defined.

(** * Further properties *)

(** ** Splitting in general *)

Lemma segment_len_hit h q c m :
  q <> NULL -> u8 (h q) = c mod 256 -> 0 < m -> segment_len h q c m = 0.
Proof.
  intros Hq Hc Hm. unfold segment_len, memchr.
  replace (Z.to_nat m) with (S (Z.to_nat (m - 1))) by lia.
  rewrite memchr_loop_hit by exact Hc.
  destruct (Z.eqb_spec q NULL) as [E|_]; [contradiction|]. cbn [negb]. lia.
Qed.

Lemma memchr_loop_found h q c n :
  0 < q -> memchr_loop h q c n = NULL \/ q <= memchr_loop h q c n.
Proof.
  revert q. induction n as [|n IH]; intros q Hq; cbn [memchr_loop].
  - now left.
  - destruct (u8 (h q) =? c); [right; lia|].
    destruct (IH (q + 1) ltac:(lia)) as [E|E]; [now left | right; lia].
Qed.

Lemma segment_len_miss h q c m :
  0 < q -> u8 (h q) <> c mod 256 -> 0 < m ->
  segment_len h q c m = 1 + segment_len h (q + 1) c (m - 1).
Proof.
  intros Hq Hc Hm. unfold segment_len, memchr.
  replace (Z.to_nat m) with (S (Z.to_nat (m - 1))) by lia.
  rewrite memchr_loop_miss by exact Hc.
  destruct (Z.eqb_spec (memchr_loop h (q + 1) (c mod 256) (Z.to_nat (m - 1))) NULL);
    cbn [negb]; lia.
Qed.

Lemma segment_len_zero h q c : segment_len h q c 0 = 0.
Proof. reflexivity. Qed.

(** The first segment of [split_cursors] is the one [memchr] finds. *)
Lemma split_cursors_first h c start len m :
  0 < start -> 0 <= len -> 0 <= c <= 255 ->
  let k := segment_len h (start + len) c (Z.of_nat m) in
  0 <= k <= Z.of_nat m /\
  (k < Z.of_nat m -> u8 (h (start + len + k)) = c) /\
  (forall i, 0 <= i < k -> u8 (h (start + len + i)) <> c) /\
  split_cursors h c start len m
  = mkCursor (len + k) start ::
    (if k <? Z.of_nat m
     then split_cursors h c (start + len + k + 1) 0 (m - S (Z.to_nat k))
     else []).
Proof.
  intros Hs Hl Hc. assert (Hmod : c mod 256 = c) by (apply Z.mod_small; lia).
  revert len Hl. induction m as [|m IH]; intros len Hl k.
  - subst k. cbn [Z.of_nat]. rewrite segment_len_zero. cbn [split_cursors].
    repeat split; try lia. now rewrite Z.add_0_r.
  - cbn [split_cursors]. destruct (Z.eqb_spec (u8 (h (start + len))) c) as [E|E].
    + assert (Hk : k = 0).
      { subst k. apply segment_len_hit; [unfold NULL; lia | now rewrite Hmod | lia]. }
      rewrite Hk. repeat split; try lia.
      * intros _. now rewrite Z.add_0_r.
      * replace (0 <? Z.of_nat (S m)) with true by (symmetry; apply Z.ltb_lt; lia).
        rewrite !Z.add_0_r. change (Z.to_nat 0) with 0%nat.
        replace (S m - 1)%nat with m by lia. reflexivity.
    + assert (Hk : k = 1 + segment_len h (start + (len + 1)) c (Z.of_nat m)).
      { subst k. rewrite segment_len_miss; [|lia|now rewrite Hmod|lia].
        do 2 f_equal; lia. }
      destruct (IH (len + 1) ltac:(lia)) as (Hr & Hd & Hn & Heq).
      set (k' := segment_len h (start + (len + 1)) c (Z.of_nat m)) in *.
      rewrite Hk. repeat split; try lia.
      * intros Hlt. replace (start + len + (1 + k')) with (start + (len + 1) + k') by lia.
        apply Hd. lia.
      * intros i Hi. destruct (Z.eq_dec i 0) as [->|Hz].
        -- now rewrite Z.add_0_r.
        -- replace (start + len + i) with (start + (len + 1) + (i - 1)) by lia.
           apply Hn. lia.
      * rewrite Heq. f_equal; [f_equal; lia|].
        destruct (Z.ltb_spec k' (Z.of_nat m)), (Z.ltb_spec (1 + k') (Z.of_nat (S m)));
          try lia; [|reflexivity].
        f_equal; lia.
Qed.

Lemma next_split_calls_after h n p c :
  0 < p -> is_size_t n -> 0 <= c <= 255 ->
  forall (r : nat) q l,
    (Z.to_nat (p + n - (q + l)) <= r)%nat ->
    p <= q -> 0 <= l -> q + l <= p + n ->
    (q + l < p + n -> u8 (h (q + l)) = c) ->
    let rest := segments_after h (mkCursor n p) c (mkCursor l q) in
    next_split_calls (S (List.length rest)) h (mkCursor n p) c (mkCursor l q)
    = split_results rest.
Proof.
  intros Hp Hn Hc. induction r as [|r IH]; intros q l Hr Hq Hl Hle Hdelim rest;
    subst rest; unfold segments_after; cbn [cursor_ptr cursor_len].
  - replace (q + l <? p + n) with false by (symmetry; apply Z.ltb_ge; lia).
    cbn [List.length next_split_calls split_results map app].
    rewrite next_split_done by (assumption || lia). reflexivity.
  - destruct (Z.ltb_spec (q + l) (p + n)) as [Hlt|Hge].
    + destruct (split_cursors_first h c (q + l + 1) 0 (Z.to_nat (p + n - (q + l + 1)))
                  ltac:(lia) ltac:(lia) Hc) as (Hk & Hd & _ & Heq).
      set (k := segment_len h (q + l + 1 + 0) c
                  (Z.of_nat (Z.to_nat (p + n - (q + l + 1))))) in *.
      rewrite Heq. cbn [List.length next_split_calls split_results map app].
      rewrite next_split_next by (assumption || lia || (apply Hdelim; lia)).
      assert (Ek : segment_len h (q + l + 1) c (p + n - (q + l + 1)) = k).
      { subst k. rewrite Z.add_0_r, Z2Nat.id by lia. reflexivity. }
      rewrite Ek. cbn [snd]. rewrite Z.add_0_l. f_equal.
      specialize (IH (q + l + 1) k ltac:(lia) ltac:(lia) ltac:(lia) ltac:(lia)).
      unfold segments_after in IH. cbn [cursor_ptr cursor_len] in IH.
      assert (Hrest :
        (if k <? Z.of_nat (Z.to_nat (p + n - (q + l + 1)))
         then split_cursors h c (q + l + 1 + 0 + k + 1) 0
                (Z.to_nat (p + n - (q + l + 1)) - S (Z.to_nat k))
         else [])
        = (if q + l + 1 + k <? p + n
           then split_cursors h c (q + l + 1 + k + 1) 0
                  (Z.to_nat (p + n - (q + l + 1 + k + 1)))
           else [])).
      { destruct (Z.ltb_spec k (Z.of_nat (Z.to_nat (p + n - (q + l + 1))))),
          (Z.ltb_spec (q + l + 1 + k) (p + n)); try lia; [|reflexivity].
        f_equal; lia. }
      rewrite Hrest. apply IH.
      intros Hlt'. replace (q + l + 1 + k) with (q + l + 1 + 0 + k) by lia.
      apply Hd. lia.
    + cbn [List.length next_split_calls split_results map app].
      rewrite next_split_done by (assumption || lia). reflexivity.
Qed.

Lemma read_bytes_app h p a b :
  read_bytes h p (a + b) = read_bytes h p a ++ read_bytes h (p + Z.of_nat a) b.
Proof.
  revert p. induction a as [|a IH]; intros p.
  - cbn [read_bytes Nat.add app Z.of_nat]. now rewrite Z.add_0_r.
  - cbn [read_bytes Nat.add app]. rewrite IH. do 3 f_equal. lia.
Qed.

Lemma read_bytes_In h p n x :
  In x (read_bytes h p n) -> exists i, 0 <= i < Z.of_nat n /\ x = h (p + i).
Proof.
  revert p. induction n as [|n IH]; intros p; cbn [read_bytes In]; [contradiction|].
  intros [E|Hin].
  - exists 0. split; [lia|]. now rewrite Z.add_0_r.
  - destruct (IH _ Hin) as (i & Hi & E). exists (i + 1). split; [lia|].
    rewrite E. f_equal. lia.
Qed.

Lemma split_cursors_nonempty h c start len m : split_cursors h c start len m <> [].
Proof.
  revert start len. induction m as [|m IH]; intros start len; cbn [split_cursors].
  - discriminate.
  - destruct (u8 (h (start + len)) =? c); [discriminate | apply IH].
Qed.

Lemma split_cursors_join h d start len m :
  0 <= len ->
  join_bytes d (map (cursor_bytes h) (split_cursors h (u8 d) start len m))
  = read_bytes h start (Z.to_nat len + m).
Proof.
  revert start len. induction m as [|m IH]; intros start len Hl; cbn [split_cursors].
  - cbn [map join_bytes]. unfold cursor_bytes. cbn [cursor_ptr cursor_len].
    now rewrite Nat.add_0_r.
  - destruct (Z.eqb_spec (u8 (h (start + len))) (u8 d)) as [E|E].
    + apply u8_inj in E. cbn [map].
      pose proof (split_cursors_nonempty h (u8 d) (start + len + 1) 0 m) as Hne.
      destruct (split_cursors h (u8 d) (start + len + 1) 0 m) as [|s rest] eqn:Es;
        [contradiction|].
      change (join_bytes d (cursor_bytes h (mkCursor len start) :: map (cursor_bytes h) (s :: rest)))
        with (cursor_bytes h (mkCursor len start) ++ d :: join_bytes d (map (cursor_bytes h) (s :: rest))).
      rewrite <- Es, IH by lia. unfold cursor_bytes. cbn [cursor_ptr cursor_len].
      change (Z.to_nat 0 + m)%nat with m.
      rewrite (read_bytes_app h start (Z.to_nat len) (S m)). f_equal.
      cbn [read_bytes]. rewrite Z2Nat.id by lia. rewrite E. reflexivity.
    + rewrite IH by lia. f_equal. lia.
Qed.

Lemma split_cursors_no_delimiter h c start len m :
  (forall i, 0 <= i < len -> u8 (h (start + i)) <> c) ->
  Forall (fun s => forall i, 0 <= i < cursor_len s -> u8 (h (cursor_ptr s + i)) <> c)
    (split_cursors h c start len m).
Proof.
  revert start len. induction m as [|m IH]; intros start len Hacc; cbn [split_cursors].
  - constructor; [exact Hacc | constructor].
  - destruct (Z.eqb_spec (u8 (h (start + len))) c) as [E|E].
    + constructor; [exact Hacc|]. apply IH. intros i Hi. lia.
    + apply IH. intros i Hi. destruct (Z.eq_dec i len) as [->|Hne]; [exact E|].
      apply Hacc. lia.
Qed.

Lemma split_cursors_within h c start len m :
  0 <= len ->
  Forall (fun s => start <= cursor_ptr s /\ 0 <= cursor_len s /\
                   cursor_ptr s + cursor_len s <= start + len + Z.of_nat m)
    (split_cursors h c start len m).
Proof.
  revert start len. induction m as [|m IH]; intros start len Hl; cbn [split_cursors].
  - constructor; [cbn; lia | constructor].
  - destruct (u8 (h (start + len)) =? c).
    + constructor; [cbn; lia|].
      eapply Forall_impl; [|apply (IH (start + len + 1) 0); lia].
      cbn beta. intros s Hs. lia.
    + eapply Forall_impl; [|apply (IH start (len + 1)); lia].
      cbn beta. intros s Hs. lia.
Qed.

Lemma next_split_calls_from_start h n p c :
  0 < p -> is_size_t n -> 0 <= c <= 255 ->
  let segments := split_cursors h c p 0 (Z.to_nat n) in
  next_split_calls (S (List.length segments)) h (mkCursor n p) c zero_cursor
  = split_results segments.
Proof.
  intros Hp Hn Hc segments. subst segments.
  assert (Hn' : 0 <= n) by (unfold is_size_t in Hn; lia).
  destruct (split_cursors_first h c p 0 (Z.to_nat n) Hp ltac:(lia) Hc)
    as (Hk & Hd & _ & Heq).
  set (k := segment_len h (p + 0) c (Z.of_nat (Z.to_nat n))) in *.
  rewrite Heq. unfold split_results. cbn [List.length next_split_calls map app].
  rewrite next_split_first by (assumption || (unfold NULL; lia)).
  assert (Ek : segment_len h p c n = k).
  { subst k. rewrite Z.add_0_r, Z2Nat.id by lia. reflexivity. }
  rewrite Ek, Z.add_0_l. cbn [snd]. f_equal.
  pose proof (next_split_calls_after h n p c Hp Hn Hc
                (Z.to_nat (p + n - (p + k))) p k (Nat.le_refl _)
                ltac:(lia) ltac:(lia) ltac:(lia)) as Hafter.
  unfold segments_after, split_results in Hafter. cbn [cursor_ptr cursor_len] in Hafter.
  assert (Hrest :
    (if k <? Z.of_nat (Z.to_nat n)
     then split_cursors h c (p + 0 + k + 1) 0 (Z.to_nat n - S (Z.to_nat k))
     else [])
    = (if p + k <? p + n
       then split_cursors h c (p + k + 1) 0 (Z.to_nat (p + n - (p + k + 1)))
       else [])).
  { destruct (Z.ltb_spec k (Z.of_nat (Z.to_nat n))), (Z.ltb_spec (p + k) (p + n));
      try lia; [|reflexivity].
    f_equal; lia. }
  rewrite Hrest. apply Hafter.
  intros Hlt. replace (p + k) with (p + 0 + k) by lia. apply Hd. lia.
Qed.

(** X1.  Calling [aws_byte_cursor_next_split] again and again on a zeroed
    state returns [true] with one segment after the other and then [false]
    with the state zeroed: the segments hold no delimiter, lie inside the
    input, and joined with the delimiter between them they are the
    input. *)
Theorem next_split_yields_the_split (h : heap_t) (n p : Z) (d : byte) :
  0 < p ->
  is_size_t n ->
  exists segments,
    next_split_calls (S (List.length segments)) h (mkCursor n p) (u8 d) zero_cursor
    = map (pair true) segments ++ [(false, zero_cursor)] /\
    join_bytes d (map (cursor_bytes h) segments) = read_bytes h p (Z.to_nat n) /\
    Forall (fun s => forall x, In x (cursor_bytes h s) -> x <> d) segments /\
    Forall (fun s => p <= cursor_ptr s /\ 0 <= cursor_len s /\
                     cursor_ptr s + cursor_len s <= p + n) segments.
Proof.
  intros Hp Hn. pose proof (u8_range d) as Hc.
  exists (split_cursors h (u8 d) p 0 (Z.to_nat n)).
  assert (Hn' : 0 <= n) by (unfold is_size_t in Hn; lia).
  split; [|split; [|split]].
  - exact (next_split_calls_from_start h n p (u8 d) Hp Hn Hc).
  - rewrite split_cursors_join by lia. reflexivity.
  - eapply Forall_impl; [|apply (split_cursors_no_delimiter h (u8 d) p 0); intros i Hi; lia].
    cbn beta. intros s Hs x Hin Hx. subst x.
    apply read_bytes_In in Hin. destruct Hin as (i & Hi & E).
    apply (Hs i); [lia | now rewrite <- E].
  - eapply Forall_impl; [|apply (split_cursors_within h (u8 d) p 0 (Z.to_nat n)); lia].
    cbn beta. intros s Hs. lia.
Qed.

(** "k=v;;x" split on ';'. *)
Lemma next_split_yields_the_split_witness :
  let h := heap_of_bytes 4096 (list_byte_of_string "k=v;;x") in
  (map (fun r => (fst r, segment_text h (snd r)))
     (next_split_calls 4 h (mkCursor 6 4096) (u8 ";"%byte) zero_cursor)
   = [ (true, "k=v"); (true, ""); (true, "x"); (false, "") ]%string) /\
  exists segments,
    next_split_calls (S (List.length segments)) h (mkCursor 6 4096) (u8 ";"%byte)
      zero_cursor
    = map (pair true) segments ++ [(false, zero_cursor)] /\
    join_bytes ";"%byte (map (cursor_bytes h) segments) = read_bytes h 4096 (Z.to_nat 6) /\
    Forall (fun s => forall x, In x (cursor_bytes h s) -> x <> ";"%byte) segments /\
    Forall (fun s => 4096 <= cursor_ptr s /\ 0 <= cursor_len s /\
                     cursor_ptr s + cursor_len s <= 4096 + 6) segments.
Proof.
  intros h. split; [reflexivity|].
  apply (next_split_yields_the_split h 6 4096 ";"%byte).
  - lia.
  - unfold is_size_t, SIZE_MAX. lia.
Defined.

(** ** A delimiter that is negative as a [char] *)

Lemma segment_len_first_occurrence h q c (k : nat) m :
  0 < q -> Z.of_nat k < m ->
  u8 (h (q + Z.of_nat k)) = c mod 256 ->
  (forall i, 0 <= i < Z.of_nat k -> u8 (h (q + i)) <> c mod 256) ->
  segment_len h q c m = Z.of_nat k.
Proof.
  revert q m. induction k as [|k IH]; intros q m Hq Hm Hhit Hmiss.
  - rewrite Z.add_0_r in Hhit. apply segment_len_hit; [unfold NULL; lia | exact Hhit | lia].
  - rewrite segment_len_miss; [|lia| |lia].
    + rewrite (IH (q + 1) (m - 1)); [lia | lia | lia | | ].
      * rewrite <- Hhit. do 2 f_equal. lia.
      * intros i Hi. replace (q + 1 + i) with (q + (i + 1)) by lia. apply Hmiss. lia.
    + specialize (Hmiss 0 ltac:(lia)). now rewrite Z.add_0_r in Hmiss.
Qed.

Lemma next_split_stuck h n p c l q :
  0 < p -> is_size_t n -> p <= q -> 0 <= l -> q + l < p + n ->
  -128 <= c < 0 -> u8 (h (q + l)) = c + 256 ->
  aws_byte_cursor_next_split h (mkCursor n p) c (mkCursor l q)
  = (true, mkCursor 0 (q + l)).
Proof.
  intros Hp Hn Hq Hl Hin Hc Hbyte.
  assert (Hmod : c mod 256 = c + 256).
  { symmetry. apply (Z.mod_unique c 256 (-1) (c + 256)); lia. }
  unfold aws_byte_cursor_next_split, NULL, is_size_t in *.
  cbn [cursor_ptr cursor_len].
  replace (q =? 0) with false by (symmetry; apply Z.eqb_neq; lia).
  cbn [cursor_ptr cursor_len negb andb].
  replace (q >? p + n) with false by (symmetry; rewrite Z.gtb_ltb; apply Z.ltb_ge; lia).
  rewrite (size_wrap_small (n - (q + l - p))) by (unfold is_size_t; lia).
  replace (n - (q + l - p) =? 0) with false by (symmetry; apply Z.eqb_neq; lia).
  rewrite Hbyte.
  replace (c + 256 =? c) with false by (symmetry; apply Z.eqb_neq; lia).
  cbn [cursor_ptr cursor_len negb andb].
  unfold memchr. replace (Z.to_nat (n - (q + l - p))) with (S (Z.to_nat (n - (q + l - p) - 1))) by lia.
  rewrite memchr_loop_hit by (now rewrite Hmod).
  replace (q + l =? 0) with false by (symmetry; apply Z.eqb_neq; lia).
  cbn [negb]. do 2 f_equal. lia.
Qed.

(** X2.  A delimiter that is negative as a [char] (a byte from 0x80 on,
    where [char] is signed) is found by [memchr] and never skipped: when
    the input holds that byte, the first call of
    [aws_byte_cursor_next_split] returns the segment before its first
    occurrence, and every later call returns [true] with the empty segment
    at that occurrence; no call returns [false]. *)
Theorem next_split_never_ends_on_negative_char
    (h : heap_t) (n p c : Z) (k calls : nat) :
  0 < p ->
  is_size_t n ->
  -128 <= c < 0 ->
  Z.of_nat k < n ->
  u8 (h (p + Z.of_nat k)) = c + 256 ->
  (forall i, 0 <= i < Z.of_nat k -> u8 (h (p + i)) <> c + 256) ->
  next_split_calls (S calls) h (mkCursor n p) c zero_cursor
  = (true, mkCursor (Z.of_nat k) p)
    :: repeat (true, mkCursor 0 (p + Z.of_nat k)) calls.
Proof.
  intros Hp Hn Hc Hk Hbyte Hfirst.
  assert (Hmod : c mod 256 = c + 256).
  { symmetry. apply (Z.mod_unique c 256 (-1) (c + 256)); lia. }
  cbn [next_split_calls].
  rewrite next_split_first by (assumption || (unfold NULL; lia)).
  rewrite (segment_len_first_occurrence h p c k n Hp Hk) by (now rewrite Hmod).
  cbn [snd]. f_equal.
  assert (Hloop : forall l q, 0 <= l -> p <= q -> q + l = p + Z.of_nat k ->
    next_split_calls calls h (mkCursor n p) c (mkCursor l q)
    = repeat (true, mkCursor 0 (p + Z.of_nat k)) calls).
  { induction calls as [|calls IH]; intros l q Hl Hq Hsum; [reflexivity|].
    cbn [next_split_calls repeat].
    rewrite next_split_stuck by (assumption || lia || now rewrite Hsum).
    cbn [snd]. rewrite Hsum. f_equal. apply IH; lia. }
  apply Hloop; lia.
Qed.

Lemma next_split_never_ends_on_negative_char_witness :
  let h := heap_of_bytes 4096 [x61; x80; x62] in
  next_split_calls 4 h (mkCursor 3 4096) (-128) zero_cursor
  = [ (true, mkCursor 1 4096); (true, mkCursor 0 4097); (true, mkCursor 0 4097);
      (true, mkCursor 0 4097) ].
Proof.
  intros h.
  apply (next_split_never_ends_on_negative_char h 3 4096 (-128) 1 3).
  - lia.
  - unfold is_size_t, SIZE_MAX. lia.
  - lia.
  - lia.
  - reflexivity.
  - intros i Hi. assert (i = 0) as -> by lia. vm_compute. discriminate.
Defined.

(** ** [aws_byte_cursor_split_on_char_n] in general *)

Lemma split_results_cons h input_str c substr x xs :
  next_split_calls (S (List.length (x :: xs))) h input_str c substr
  = split_results (x :: xs) ->
  aws_byte_cursor_next_split h input_str c substr = (true, x) /\
  next_split_calls (S (List.length xs)) h input_str c x = split_results xs.
Proof.
  unfold split_results. cbn [List.length map app].
  change (next_split_calls (S (S (List.length xs))) h input_str c substr)
    with (aws_byte_cursor_next_split h input_str c substr
          :: next_split_calls (S (List.length xs)) h input_str c
               (snd (aws_byte_cursor_next_split h input_str c substr))).
  intros H. injection H as H1 H2. rewrite H1 in H2. cbn [snd] in H2.
  split; assumption.
Qed.

Lemma split_results_nil h input_str c substr :
  next_split_calls 1 h input_str c substr = split_results [] ->
  fst (aws_byte_cursor_next_split h input_str c substr) = false.
Proof.
  unfold split_results. cbn [next_split_calls map app]. intros H.
  injection H as H. now rewrite H.
Qed.

Section SplitOnCharN.

Variable array_list : Type.
Variable item_size_of : array_list -> Z.
Variable push_back : array_list -> aws_byte_cursor -> Z * array_list.
Variable contents : array_list -> list aws_byte_cursor.
Hypothesis push_back_appends :
  forall l c, exists l',
    push_back l c = (AWS_OP_SUCCESS, l') /\ contents l' = contents l ++ [c].

Lemma split_loop_pushes h n p c max_splits :
  is_size_t n -> 0 <= max_splits <= SIZE_MAX ->
  forall segments fuel split_count substr output,
    next_split_calls (S (List.length segments)) h (mkCursor n p) c substr
    = split_results segments ->
    Forall (fun s => p <= cursor_ptr s /\ 0 <= cursor_len s /\
                     cursor_ptr s + cursor_len s <= p + n) segments ->
    (List.length segments < fuel)%nat ->
    0 <= split_count ->
    max_splits < SIZE_MAX \/ split_count + Z.of_nat (List.length segments) <= max_splits ->
    exists output',
      split_on_char_n_loop array_list push_back fuel h (mkCursor n p) c max_splits
        split_count substr output = Returns (AWS_OP_SUCCESS, output') /\
      contents output'
      = contents output ++ pushed_segments (mkCursor n p) max_splits split_count segments.
Proof.
  intros Hn Hmax. induction segments as [|x xs IH];
    intros fuel split_count substr output Hchain Hin Hfuel Hcount Hroom.
  - apply split_results_nil in Hchain.
    destruct fuel as [|fuel]; [cbn in Hfuel; lia|].
    exists output. cbn [pushed_segments]. rewrite app_nil_r. split; [|reflexivity].
    destruct (Z_le_gt_dec split_count max_splits).
    + now apply split_loop_exhausted.
    + apply split_loop_capped. lia.
  - apply split_results_cons in Hchain. destruct Hchain as [Hcall Hchain].
    inversion Hin as [|? ? Hx Hxs]; subst.
    destruct fuel as [|fuel]; [cbn in Hfuel; lia|].
    cbn [List.length] in Hfuel, Hroom. cbn [pushed_segments].
    destruct (Z.ltb_spec split_count max_splits) as [Hlt|Hge].
    + destruct (push_back_appends output x) as (o1 & P1 & C1).
      erewrite split_loop_push; [ | exact Hlt | exact Hcall | exact P1 ].
      rewrite size_wrap_small by (unfold is_size_t; lia).
      destruct (IH fuel (split_count + 1) x o1 Hchain Hxs ltac:(lia) ltac:(lia) ltac:(lia))
        as (o' & Hrun & Hout).
      exists o'. split; [exact Hrun|].
      rewrite Hout, C1, <- app_assoc. reflexivity.
    + destruct (Z.eqb_spec split_count max_splits) as [Heq|Hne].
      * subst split_count.
        assert (Hlast : max_splits < SIZE_MAX) by lia.
        set (rest := mkCursor (p + n - cursor_ptr x) (cursor_ptr x)).
        destruct (push_back_appends output rest) as (o1 & P1 & C1).
        assert (Hrest :
          mkCursor (size_wrap (cursor_len (mkCursor n p)
                                - (cursor_ptr x - cursor_ptr (mkCursor n p))))
                   (cursor_ptr x) = rest).
        { subst rest. cbn [cursor_len cursor_ptr]. f_equal.
          rewrite size_wrap_small by (unfold is_size_t in *; lia). lia. }
        erewrite split_loop_push_rest; [ | exact Hcall | rewrite Hrest; exact P1 ].
        rewrite Hrest, size_wrap_small by (unfold is_size_t; lia).
        destruct fuel as [|fuel]; [lia|].
        rewrite split_loop_capped by lia.
        exists o1. split; [reflexivity|]. rewrite C1. reflexivity.
      * exists output. rewrite app_nil_r. split; [|reflexivity].
        apply split_loop_capped. lia.
Qed.

End SplitOnCharN.

Lemma split_cursors_length h c start len m :
  (List.length (split_cursors h c start len m) <= m + 1)%nat.
Proof.
  revert start len. induction m as [|m IH]; intros start len; cbn [split_cursors].
  - cbn. lia.
  - destruct (u8 (h (start + len)) =? c); cbn [List.length].
    + specialize (IH (start + len + 1) 0). lia.
    + specialize (IH start (len + 1)). lia.
Qed.

(** [pushed_segments] from count 0: the first [max_splits] segments, then
    the next one stretched to the end of the input. *)
Lemma pushed_segments_firstn input_str max_splits split_count segments :
  0 <= split_count <= max_splits ->
  pushed_segments input_str max_splits split_count segments
  = firstn (Z.to_nat (max_splits - split_count)) segments ++
    match nth_error segments (Z.to_nat (max_splits - split_count)) with
    | Some s =>
        [mkCursor (cursor_ptr input_str + cursor_len input_str - cursor_ptr s)
           (cursor_ptr s)]
    | None => []
    end.
Proof.
  revert split_count. induction segments as [|x xs IH]; intros split_count Hc;
    cbn [pushed_segments].
  - rewrite firstn_nil. now destruct (Z.to_nat (max_splits - split_count)).
  - destruct (Z.ltb_spec split_count max_splits) as [Hlt|Hge].
    + replace (Z.to_nat (max_splits - split_count))
        with (S (Z.to_nat (max_splits - (split_count + 1)))) by lia.
      cbn [firstn nth_error app]. f_equal. apply IH. lia.
    + replace (split_count =? max_splits) with true by (symmetry; apply Z.eqb_eq; lia).
      replace (Z.to_nat (max_splits - split_count)) with 0%nat by lia.
      reflexivity.
Qed.

Lemma pushed_segments_all input_str max_splits split_count segments :
  split_count + Z.of_nat (List.length segments) <= max_splits ->
  pushed_segments input_str max_splits split_count segments = segments.
Proof.
  revert split_count. induction segments as [|x xs IH]; intros split_count Hc;
    cbn [pushed_segments]; [reflexivity|].
  cbn [List.length] in Hc.
  replace (split_count <? max_splits) with true by (symmetry; apply Z.ltb_lt; lia).
  f_equal. apply IH. lia.
Qed.

Lemma pushed_segments_nonempty input_str max_splits split_count x xs :
  split_count <= max_splits ->
  pushed_segments input_str max_splits split_count (x :: xs) <> [].
Proof.
  intros Hc. cbn [pushed_segments].
  destruct (Z.ltb_spec split_count max_splits); [discriminate|].
  replace (split_count =? max_splits) with true by (symmetry; apply Z.eqb_eq; lia).
  discriminate.
Qed.

Lemma pushed_segments_length input_str max_splits split_count segments :
  0 <= split_count <= max_splits ->
  Z.of_nat (List.length (pushed_segments input_str max_splits split_count segments))
  <= max_splits - split_count + 1.
Proof.
  revert split_count. induction segments as [|x xs IH]; intros split_count Hc;
    cbn [pushed_segments]; [cbn; lia|].
  destruct (Z.ltb_spec split_count max_splits) as [Hlt|Hge].
  - cbn [List.length]. specialize (IH (split_count + 1) ltac:(lia)). lia.
  - destruct (split_count =? max_splits); cbn; lia.
Qed.

Lemma pushed_segments_init (P : aws_byte_cursor -> Prop) input_str max_splits
    split_count segments :
  Forall P segments ->
  Forall P (removelast (pushed_segments input_str max_splits split_count segments)).
Proof.
  revert split_count. induction segments as [|x xs IH]; intros split_count HP;
    cbn [pushed_segments]; [constructor|].
  inversion HP as [|? ? Hx Hxs]; subst.
  destruct (split_count <? max_splits).
  - specialize (IH (split_count + 1) Hxs).
    destruct (pushed_segments input_str max_splits (split_count + 1) xs) as [|y ys] eqn:E.
    + constructor.
    + change (removelast (x :: y :: ys)) with (x :: removelast (y :: ys)).
      constructor; assumption.
  - destruct (split_count =? max_splits); constructor.
Qed.

Lemma read_bytes_split h p (m k : nat) :
  (k < m)%nat ->
  read_bytes h p m
  = read_bytes h p k ++ h (p + Z.of_nat k) :: read_bytes h (p + Z.of_nat k + 1) (m - S k).
Proof.
  intros Hk. replace m with (k + S (m - S k))%nat at 1 by lia.
  rewrite read_bytes_app. reflexivity.
Qed.

Lemma pushed_segments_join h d n p max_splits :
  forall (r m : nat) start split_count,
    (m <= r)%nat -> 0 < start -> split_count <= max_splits ->
    p + n = start + Z.of_nat m ->
    join_bytes d (map (cursor_bytes h)
      (pushed_segments (mkCursor n p) max_splits split_count
         (split_cursors h (u8 d) start 0 m)))
    = read_bytes h start m.
Proof.
  pose proof (u8_range d) as Hc.
  induction r as [|r IH]; intros m start split_count Hr Hs Hcount Hend.
  - assert (m = 0%nat) as -> by lia. cbn [split_cursors pushed_segments].
    destruct (Z.ltb_spec split_count max_splits); [reflexivity|].
    replace (split_count =? max_splits) with true by (symmetry; apply Z.eqb_eq; lia).
    cbn [map join_bytes cursor_ptr cursor_len]. unfold cursor_bytes.
    cbn [cursor_ptr cursor_len]. f_equal. lia.
  - destruct (split_cursors_first h (u8 d) start 0 m Hs ltac:(lia) Hc)
      as (Hk & Hd & _ & Heq).
    set (k := segment_len h (start + 0) (u8 d) (Z.of_nat m)) in *.
    rewrite Heq. cbn [pushed_segments].
    destruct (Z.ltb_spec split_count max_splits) as [Hlt|Hge].
    + destruct (Z.ltb_spec k (Z.of_nat m)) as [Hkm|Hkm].
      * pose proof (split_cursors_nonempty h (u8 d) (start + 0 + k + 1) 0
                      (m - S (Z.to_nat k))) as Hne.
        destruct (split_cursors h (u8 d) (start + 0 + k + 1) 0 (m - S (Z.to_nat k)))
          as [|y ys] eqn:Es; [contradiction|].
        pose proof (pushed_segments_nonempty (mkCursor n p) max_splits
                      (split_count + 1) y ys ltac:(lia)) as Hne'.
        cbn [map].
        destruct (pushed_segments (mkCursor n p) max_splits (split_count + 1) (y :: ys))
          as [|z zs] eqn:Ep; [contradiction|].
        change (join_bytes d (cursor_bytes h (mkCursor (0 + k) start)
                              :: map (cursor_bytes h) (z :: zs)))
          with (cursor_bytes h (mkCursor (0 + k) start)
                ++ d :: join_bytes d (map (cursor_bytes h) (z :: zs))).
        rewrite <- Ep, <- Es.
        rewrite (IH (m - S (Z.to_nat k))%nat (start + 0 + k + 1) (split_count + 1))
          by lia.
        unfold cursor_bytes. cbn [cursor_ptr cursor_len].
        rewrite (read_bytes_split h start m (Z.to_nat k)) by lia.
        rewrite Z2Nat.id, Z.add_0_l by lia.
        assert (E : h (start + k) = d).
        { apply u8_inj. replace (start + k) with (start + 0 + k) by lia. apply Hd. lia. }
        rewrite E. do 3 f_equal. lia.
      * cbn [pushed_segments map join_bytes]. unfold cursor_bytes.
        cbn [cursor_ptr cursor_len]. f_equal. lia.
    + replace (split_count =? max_splits) with true by (symmetry; apply Z.eqb_eq; lia).
      cbn [map join_bytes cursor_ptr cursor_len]. unfold cursor_bytes.
      cbn [cursor_ptr cursor_len]. f_equal. lia.
Qed.

(** X3.  [aws_byte_cursor_split_on_char_n], and [aws_byte_cursor_split_on_char]
    for [n = 0], on an output list whose [push_back] appends, with a
    delimiter that is not negative as a [char]: the call
    returns success and has pushed, for [n = 0], the segments that
    [aws_byte_cursor_next_split] yields, and for [n > 0] the first [n] of
    them followed by the rest of the input from the start of the next one,
    so at most [n + 1] cursors; joined with the delimiter between them the
    pushed cursors are the input. *)
Theorem split_on_char_n_pushes
    (array_list : Type) (item_size_of : array_list -> Z)
    (push_back : array_list -> aws_byte_cursor -> Z * array_list)
    (contents : array_list -> list aws_byte_cursor) (output : array_list)
    (h : heap_t) (n p : Z) (d : byte) (splits : Z) :
  0 < p ->
  is_size_t n -> n < SIZE_MAX ->
  is_size_t splits ->
  (forall l c, exists l',
      push_back l c = (AWS_OP_SUCCESS, l') /\ contents l' = contents l ++ [c]) ->
  sizeof_aws_byte_cursor <= item_size_of output ->
  exists segments,
    next_split_calls (S (List.length segments)) h (mkCursor n p) (u8 d) zero_cursor
    = map (pair true) segments ++ [(false, zero_cursor)] /\
    let pushed :=
      if splits =? 0 then segments
      else firstn (Z.to_nat splits) segments ++
           match nth_error segments (Z.to_nat splits) with
           | Some s => [mkCursor (p + n - cursor_ptr s) (cursor_ptr s)]
           | None => []
           end in
    (forall fuel, (Z.to_nat n + 2 <= fuel)%nat ->
       exists output',
         aws_byte_cursor_split_on_char_n array_list item_size_of push_back fuel h
           (Some (mkCursor n p)) (u8 d) splits (Some output)
         = Returns (AWS_OP_SUCCESS, output') /\
         contents output' = contents output ++ pushed /\
         (splits = 0 ->
          aws_byte_cursor_split_on_char array_list item_size_of push_back fuel h
            (Some (mkCursor n p)) (u8 d) (Some output)
          = Returns (AWS_OP_SUCCESS, output'))) /\
    join_bytes d (map (cursor_bytes h) pushed) = read_bytes h p (Z.to_nat n) /\
    (0 < splits -> Z.of_nat (List.length pushed) <= splits + 1).
Proof.
  intros Hp Hn Hnmax Hsplits Hpush Hsize.
  pose proof (u8_range d) as Hc.
  set (segments := split_cursors h (u8 d) p 0 (Z.to_nat n)).
  set (max_splits := if splits >? 0 then splits else SIZE_MAX).
  assert (Hchain : next_split_calls (S (List.length segments)) h (mkCursor n p) (u8 d)
                     zero_cursor = split_results segments)
    by exact (next_split_calls_from_start h n p (u8 d) Hp Hn Hc).
  assert (Hlen : (List.length segments <= Z.to_nat n + 1)%nat)
    by apply split_cursors_length.
  assert (Hmax : 0 <= max_splits <= SIZE_MAX).
  { subst max_splits. unfold is_size_t, SIZE_MAX in *. destruct (splits >? 0); lia. }
  assert (Hpushed :
    pushed_segments (mkCursor n p) max_splits 0 segments
    = if splits =? 0 then segments
      else firstn (Z.to_nat splits) segments ++
           match nth_error segments (Z.to_nat splits) with
           | Some s => [mkCursor (p + n - cursor_ptr s) (cursor_ptr s)]
           | None => []
           end).
  { subst max_splits. unfold is_size_t in *.
    destruct (Z.eqb_spec splits 0) as [E|E].
    - subst splits. change (0 >? 0) with false. cbv iota.
      apply pushed_segments_all. lia.
    - replace (splits >? 0) with true by (symmetry; rewrite Z.gtb_ltb; apply Z.ltb_lt; lia).
      rewrite pushed_segments_firstn by lia. rewrite Z.sub_0_r. reflexivity. }
  exists segments. split; [exact Hchain|]. cbv zeta. rewrite <- Hpushed.
  split; [|split].
  - intros fuel Hfuel.
    assert (Hwithin : Forall (fun s => p <= cursor_ptr s /\ 0 <= cursor_len s /\
                                       cursor_ptr s + cursor_len s <= p + n) segments).
    { unfold is_size_t in Hn.
      eapply Forall_impl; [|apply (split_cursors_within h (u8 d) p 0 (Z.to_nat n)); lia].
      cbn beta. intros s Hs. lia. }
    destruct (split_loop_pushes array_list push_back contents Hpush h n p (u8 d)
                max_splits Hn Hmax segments fuel 0 zero_cursor output Hchain Hwithin
                ltac:(lia) ltac:(lia)) as (output' & Hrun & Hout).
    { unfold is_size_t in *. destruct (Z_lt_ge_dec max_splits SIZE_MAX); [now left|right]. lia. }
    assert (Hentry : forall k,
      aws_byte_cursor_split_on_char_n array_list item_size_of push_back fuel h
        (Some (mkCursor n p)) (u8 d) k (Some output)
      = split_on_char_n_loop array_list push_back fuel h (mkCursor n p) (u8 d)
          (if k >? 0 then k else SIZE_MAX) 0 zero_cursor output).
    { intros k. unfold aws_byte_cursor_split_on_char_n, c_assert. cbn [cursor_ptr].
      replace (p =? NULL) with false by (symmetry; apply Z.eqb_neq; unfold NULL; lia).
      replace (item_size_of output >=? sizeof_aws_byte_cursor) with true
        by (symmetry; rewrite Z.geb_leb; apply Z.leb_le; lia).
      reflexivity. }
    exists output'. split; [|split].
    + rewrite Hentry. exact Hrun.
    + exact Hout.
    + intros ->. unfold aws_byte_cursor_split_on_char. rewrite Hentry. exact Hrun.
  - unfold is_size_t in Hn.
    apply (pushed_segments_join h d n p max_splits (Z.to_nat n) (Z.to_nat n) p 0); lia.
  - intros Hpos.
    pose proof (pushed_segments_length (mkCursor n p) max_splits 0 segments ltac:(lia)) as Hl.
    assert (Hm : max_splits = splits).
    { subst max_splits.
      now replace (splits >? 0) with true by (symmetry; rewrite Z.gtb_ltb; apply Z.ltb_lt; lia). }
    lia.
Qed.

(** "k=v;;x" split on ';' at most once, into a list of cursors. *)
Lemma split_on_char_n_pushes_witness :
  let h := heap_of_bytes 4096 (list_byte_of_string "k=v;;x") in
  (match aws_byte_cursor_split_on_char_n (list aws_byte_cursor)
           (fun _ => sizeof_aws_byte_cursor) cursor_list_push_back 8 h
           (Some (mkCursor 6 4096)) (u8 ";"%byte) 1 (Some []) with
   | Returns (rc, output') => Some (rc, map (segment_text h) output')
   | _ => None
   end = Some (AWS_OP_SUCCESS, [ "k=v"; ";x" ]%string)) /\
  exists segments,
    next_split_calls (S (List.length segments)) h (mkCursor 6 4096) (u8 ";"%byte)
      zero_cursor
    = map (pair true) segments ++ [(false, zero_cursor)] /\
    let pushed :=
      if 1 =? 0 then segments
      else firstn (Z.to_nat 1) segments ++
           match nth_error segments (Z.to_nat 1) with
           | Some s => [mkCursor (4096 + 6 - cursor_ptr s) (cursor_ptr s)]
           | None => []
           end in
    (forall fuel, (Z.to_nat 6 + 2 <= fuel)%nat ->
       exists output',
         aws_byte_cursor_split_on_char_n (list aws_byte_cursor)
           (fun _ => sizeof_aws_byte_cursor) cursor_list_push_back fuel h
           (Some (mkCursor 6 4096)) (u8 ";"%byte) 1 (Some [])
         = Returns (AWS_OP_SUCCESS, output') /\
         output' = [] ++ pushed /\
         (1 = 0 ->
          aws_byte_cursor_split_on_char (list aws_byte_cursor)
            (fun _ => sizeof_aws_byte_cursor) cursor_list_push_back fuel h
            (Some (mkCursor 6 4096)) (u8 ";"%byte) (Some [])
          = Returns (AWS_OP_SUCCESS, output'))) /\
    join_bytes ";"%byte (map (cursor_bytes h) pushed) = read_bytes h 4096 (Z.to_nat 6) /\
    (0 < 1 -> Z.of_nat (List.length pushed) <= 1 + 1).
Proof.
  intros h. split; [reflexivity|].
  apply (split_on_char_n_pushes (list aws_byte_cursor) (fun _ => sizeof_aws_byte_cursor)
           cursor_list_push_back (fun l => l) [] h 6 4096 ";"%byte 1).
  - lia.
  - unfold is_size_t, SIZE_MAX. lia.
  - unfold SIZE_MAX. lia.
  - unfold is_size_t, SIZE_MAX. lia.
  - intros l c. exists (l ++ [c]). split; reflexivity.
  - lia.
Defined.

(** ** A [push_back] that runs out of room *)

Section SplitIntoBoundedList.

Variable array_list : Type.
Variable item_size_of : array_list -> Z.
Variable push_back : array_list -> aws_byte_cursor -> Z * array_list.
Variable contents : array_list -> list aws_byte_cursor.
Variable room : array_list -> nat.
Hypothesis push_back_with_room :
  forall l c, room l <> 0%nat ->
    exists l', push_back l c = (AWS_OP_SUCCESS, l') /\
               contents l' = contents l ++ [c] /\ room l' = pred (room l).
Hypothesis push_back_without_room :
  forall l c, room l = 0%nat ->
    exists rc, push_back l c = (rc, l) /\ rc <> 0.

Lemma split_loop_fails fuel h input_str c max_splits split_count substr output
    substr' rc output' :
  split_count <= max_splits ->
  aws_byte_cursor_next_split h input_str c substr = (true, substr') ->
  push_back output
    (if split_count =? max_splits
     then mkCursor (size_wrap (cursor_len input_str
                               - (cursor_ptr substr' - cursor_ptr input_str)))
                   (cursor_ptr substr')
     else substr') = (rc, output') ->
  rc <> 0 ->
  split_on_char_n_loop array_list push_back (S fuel) h input_str c max_splits
    split_count substr output = Returns (AWS_OP_ERR, output').
Proof.
  intros Hle Hnext Hpush Hrc. cbn [split_on_char_n_loop].
  replace (split_count <=? max_splits) with true by (symmetry; apply Z.leb_le; lia).
  cbn [negb]. rewrite Hnext. cbn [negb]. rewrite Hpush.
  replace (rc =? 0) with false by (symmetry; apply Z.eqb_neq; lia).
  reflexivity.
Qed.

Lemma split_loop_runs_out h n p c max_splits :
  is_size_t n -> 0 <= max_splits <= SIZE_MAX ->
  forall segments fuel split_count substr output,
    next_split_calls (S (List.length segments)) h (mkCursor n p) c substr
    = split_results segments ->
    Forall (fun s => p <= cursor_ptr s /\ 0 <= cursor_len s /\
                     cursor_ptr s + cursor_len s <= p + n) segments ->
    (List.length segments < fuel)%nat ->
    0 <= split_count ->
    (room output
     < List.length (pushed_segments (mkCursor n p) max_splits split_count segments))%nat ->
    exists output',
      split_on_char_n_loop array_list push_back fuel h (mkCursor n p) c max_splits
        split_count substr output = Returns (AWS_OP_ERR, output') /\
      contents output'
      = contents output ++
        firstn (room output)
          (pushed_segments (mkCursor n p) max_splits split_count segments).
Proof.
  intros Hn Hmax. induction segments as [|x xs IH];
    intros fuel split_count substr output Hchain Hin Hfuel Hcount Hroom.
  - cbn in Hroom. lia.
  - apply split_results_cons in Hchain. destruct Hchain as [Hcall Hchain].
    inversion Hin as [|? ? Hx Hxs]; subst.
    destruct fuel as [|fuel]; [cbn in Hfuel; lia|].
    cbn [List.length] in Hfuel. cbn [pushed_segments] in *.
    destruct (Z.ltb_spec split_count max_splits) as [Hlt|Hge].
    + cbn [List.length] in Hroom.
      destruct (Nat.eq_dec (room output) 0) as [Hz|Hnz].
      * destruct (push_back_without_room output x Hz) as (rc & P & Hrc).
        exists output. rewrite Hz. cbn [firstn]. rewrite app_nil_r.
        split; [|reflexivity].
        eapply split_loop_fails; [lia | exact Hcall | | exact Hrc].
        replace (split_count =? max_splits) with false by (symmetry; apply Z.eqb_neq; lia).
        exact P.
      * destruct (push_back_with_room output x Hnz) as (o1 & P1 & C1 & R1).
        erewrite split_loop_push; [ | exact Hlt | exact Hcall | exact P1 ].
        rewrite size_wrap_small by (unfold is_size_t; lia).
        destruct (IH fuel (split_count + 1) x o1 Hchain Hxs ltac:(lia) ltac:(lia) ltac:(lia))
          as (o' & Hrun & Hout).
        exists o'. split; [exact Hrun|].
        rewrite Hout, C1, R1, <- app_assoc.
        destruct (room output) as [|r]; [contradiction|]. reflexivity.
    + destruct (Z.eqb_spec split_count max_splits) as [Heq|Hne]; [|cbn in Hroom; lia].
      cbn [List.length] in Hroom.
      assert (Hz : room output = 0%nat) by lia.
      set (rest := mkCursor (p + n - cursor_ptr x) (cursor_ptr x)).
      destruct (push_back_without_room output rest Hz) as (rc & P & Hrc).
      exists output. rewrite Hz. cbn [firstn]. rewrite app_nil_r.
      split; [|reflexivity].
      eapply split_loop_fails; [lia | exact Hcall | | exact Hrc].
      replace (split_count =? max_splits) with true by (symmetry; apply Z.eqb_eq; lia).
      replace (mkCursor (size_wrap (cursor_len (mkCursor n p)
                                    - (cursor_ptr x - cursor_ptr (mkCursor n p))))
                 (cursor_ptr x)) with rest; [exact P|].
      subst rest. cbn [cursor_len cursor_ptr]. f_equal.
      rewrite size_wrap_small by (unfold is_size_t in *; lia). lia.
Qed.

End SplitIntoBoundedList.

Lemma pushed_segments_from_start input_str splits segments :
  is_size_t splits ->
  Z.of_nat (List.length segments) <= SIZE_MAX ->
  pushed_segments input_str (if splits >? 0 then splits else SIZE_MAX) 0 segments
  = if splits =? 0 then segments
    else firstn (Z.to_nat splits) segments ++
         match nth_error segments (Z.to_nat splits) with
         | Some s =>
             [mkCursor (cursor_ptr input_str + cursor_len input_str - cursor_ptr s)
                (cursor_ptr s)]
         | None => []
         end.
Proof.
  unfold is_size_t. intros Hs Hl.
  destruct (Z.eqb_spec splits 0) as [E|E].
  - subst splits. change (0 >? 0) with false. cbv iota.
    apply pushed_segments_all. lia.
  - replace (splits >? 0) with true by (symmetry; rewrite Z.gtb_ltb; apply Z.ltb_lt; lia).
    rewrite pushed_segments_firstn by lia. rewrite Z.sub_0_r. reflexivity.
Qed.

(** X4.  When the output list has room for fewer cursors than the split
    would push (the delimiter not being negative as a [char]),
    [aws_byte_cursor_split_on_char_n] returns [AWS_OP_ERR] and the list
    holds as many of them as it had room for. *)
Theorem split_on_char_n_out_of_room
    (array_list : Type) (item_size_of : array_list -> Z)
    (push_back : array_list -> aws_byte_cursor -> Z * array_list)
    (contents : array_list -> list aws_byte_cursor) (room : array_list -> nat)
    (output : array_list)
    (h : heap_t) (n p : Z) (d : byte) (splits : Z) :
  0 < p ->
  is_size_t n -> n < SIZE_MAX ->
  is_size_t splits ->
  (forall l c, room l <> 0%nat ->
     exists l', push_back l c = (AWS_OP_SUCCESS, l') /\
                contents l' = contents l ++ [c] /\ room l' = pred (room l)) ->
  (forall l c, room l = 0%nat -> exists rc, push_back l c = (rc, l) /\ rc <> 0) ->
  sizeof_aws_byte_cursor <= item_size_of output ->
  exists segments,
    next_split_calls (S (List.length segments)) h (mkCursor n p) (u8 d) zero_cursor
    = map (pair true) segments ++ [(false, zero_cursor)] /\
    let pushed :=
      if splits =? 0 then segments
      else firstn (Z.to_nat splits) segments ++
           match nth_error segments (Z.to_nat splits) with
           | Some s => [mkCursor (p + n - cursor_ptr s) (cursor_ptr s)]
           | None => []
           end in
    ((room output < List.length pushed)%nat ->
     forall fuel, (Z.to_nat n + 2 <= fuel)%nat ->
       exists output',
         aws_byte_cursor_split_on_char_n array_list item_size_of push_back fuel h
           (Some (mkCursor n p)) (u8 d) splits (Some output)
         = Returns (AWS_OP_ERR, output') /\
         contents output' = contents output ++ firstn (room output) pushed).
Proof.
  intros Hp Hn Hnmax Hsplits Hroom Hfull Hsize.
  pose proof (u8_range d) as Hc.
  set (segments := split_cursors h (u8 d) p 0 (Z.to_nat n)).
  set (max_splits := if splits >? 0 then splits else SIZE_MAX).
  assert (Hchain : next_split_calls (S (List.length segments)) h (mkCursor n p) (u8 d)
                     zero_cursor = split_results segments)
    by exact (next_split_calls_from_start h n p (u8 d) Hp Hn Hc).
  assert (Hlen : (List.length segments <= Z.to_nat n + 1)%nat)
    by apply split_cursors_length.
  assert (Hmax : 0 <= max_splits <= SIZE_MAX).
  { subst max_splits. unfold is_size_t, SIZE_MAX in *. destruct (splits >? 0); lia. }
  exists segments. split; [exact Hchain|]. cbv zeta.
  change (p + n) with (cursor_ptr (mkCursor n p) + cursor_len (mkCursor n p)).
  rewrite <- (pushed_segments_from_start (mkCursor n p) splits segments Hsplits)
    by (unfold is_size_t in *; lia).
  fold max_splits. intros Hfew fuel Hfuel.
  assert (Hwithin : Forall (fun s => p <= cursor_ptr s /\ 0 <= cursor_len s /\
                                     cursor_ptr s + cursor_len s <= p + n) segments).
  { unfold is_size_t in Hn.
    eapply Forall_impl; [|apply (split_cursors_within h (u8 d) p 0 (Z.to_nat n)); lia].
    cbn beta. intros s Hs. lia. }
  destruct (split_loop_runs_out array_list push_back contents room Hroom Hfull h n p
              (u8 d) max_splits Hn Hmax segments fuel 0 zero_cursor output Hchain Hwithin
              ltac:(lia) ltac:(lia) Hfew) as (output' & Hrun & Hout).
  exists output'. split; [|exact Hout].
  unfold aws_byte_cursor_split_on_char_n, c_assert. cbn [cursor_ptr].
  replace (p =? NULL) with false by (symmetry; apply Z.eqb_neq; unfold NULL; lia).
  replace (item_size_of output >=? sizeof_aws_byte_cursor) with true
    by (symmetry; rewrite Z.geb_leb; apply Z.leb_le; lia).
  exact Hrun.
Qed.

(** "k=v;;x" split on ';' into a list with room for two cursors. *)
Lemma split_on_char_n_out_of_room_witness :
  let h := heap_of_bytes 4096 (list_byte_of_string "k=v;;x") in
  (match aws_byte_cursor_split_on_char_n (list aws_byte_cursor * nat)
           (fun _ => sizeof_aws_byte_cursor) bounded_list_push_back 8 h
           (Some (mkCursor 6 4096)) (u8 ";"%byte) 0 (Some ([], 2%nat)) with
   | Returns (rc, output') => Some (rc, map (segment_text h) (fst output'))
   | _ => None
   end = Some (AWS_OP_ERR, [ "k=v"; "" ]%string)) /\
  exists segments,
    next_split_calls (S (List.length segments)) h (mkCursor 6 4096) (u8 ";"%byte)
      zero_cursor
    = map (pair true) segments ++ [(false, zero_cursor)] /\
    let pushed :=
      if 0 =? 0 then segments
      else firstn (Z.to_nat 0) segments ++
           match nth_error segments (Z.to_nat 0) with
           | Some s => [mkCursor (4096 + 6 - cursor_ptr s) (cursor_ptr s)]
           | None => []
           end in
    ((2 < List.length pushed)%nat ->
     forall fuel, (Z.to_nat 6 + 2 <= fuel)%nat ->
       exists output',
         aws_byte_cursor_split_on_char_n (list aws_byte_cursor * nat)
           (fun _ => sizeof_aws_byte_cursor) bounded_list_push_back fuel h
           (Some (mkCursor 6 4096)) (u8 ";"%byte) 0 (Some ([], 2%nat))
         = Returns (AWS_OP_ERR, output') /\
         fst output' = [] ++ firstn 2 pushed).
Proof.
  intros h. split; [reflexivity|].
  apply (split_on_char_n_out_of_room (list aws_byte_cursor * nat)
           (fun _ => sizeof_aws_byte_cursor) bounded_list_push_back fst snd ([], 2%nat)
           h 6 4096 ";"%byte 0).
  - lia.
  - unfold is_size_t, SIZE_MAX. lia.
  - unfold SIZE_MAX. lia.
  - unfold is_size_t, SIZE_MAX. lia.
  - intros [l r] c Hr. cbn [snd] in Hr. destruct r as [|r]; [contradiction|].
    exists (l ++ [c], r). repeat split.
  - intros [l r] c Hr. cbn [snd] in Hr. subst r. exists AWS_OP_ERR.
    split; [reflexivity | discriminate].
  - lia.
Defined.

(** ** Trimming *)

Lemma right_trim_loop_spec h (predicate : aws_byte_predicate_fn) :
  forall turns trimmed,
    is_size_t (cursor_len trimmed) ->
    (Z.to_nat (cursor_len trimmed) <= turns)%nat ->
    let r := right_trim_loop turns h predicate trimmed in
    cursor_ptr r = cursor_ptr trimmed /\
    0 <= cursor_len r <= cursor_len trimmed /\
    (forall i, cursor_len r <= i < cursor_len trimmed ->
       predicate (h (cursor_ptr trimmed + i)) = true) /\
    (cursor_len r = 0 \/
     predicate (h (cursor_ptr trimmed + cursor_len r - 1)) = false).
Proof.
  induction turns as [|turns IH]; intros trimmed Hsz Hturns r; subst r;
    cbn [right_trim_loop]; unfold is_size_t in Hsz.
  - repeat split; try lia; left; lia.
  - destruct (Z.gtb_spec (cursor_len trimmed) 0) as [Hpos|Hzero]; cbn [andb].
    + destruct (predicate (h (cursor_ptr trimmed + cursor_len trimmed - 1))) eqn:Hp.
      * rewrite size_wrap_small by (unfold is_size_t; lia).
        destruct (IH (mkCursor (cursor_len trimmed - 1) (cursor_ptr trimmed)))
          as (Hptr & Hlen & Hall & Hlast).
        { unfold is_size_t. cbn [cursor_len]. lia. }
        { cbn [cursor_len]. lia. }
        cbn [cursor_len cursor_ptr] in *.
        repeat split; try lia; [|exact Hlast].
        intros i Hi. destruct (Z.eq_dec i (cursor_len trimmed - 1)) as [->|Hne].
        -- now replace (cursor_ptr trimmed + (cursor_len trimmed - 1))
             with (cursor_ptr trimmed + cursor_len trimmed - 1) by lia.
        -- apply Hall. lia.
      * repeat split; try lia; now right.
    + repeat split; try lia; left; lia.
Qed.

Lemma left_trim_loop_spec h (predicate : aws_byte_predicate_fn) :
  forall turns trimmed,
    is_size_t (cursor_len trimmed) ->
    (Z.to_nat (cursor_len trimmed) <= turns)%nat ->
    let r := left_trim_loop turns h predicate trimmed in
    cursor_ptr r + cursor_len r = cursor_ptr trimmed + cursor_len trimmed /\
    0 <= cursor_len r <= cursor_len trimmed /\
    (forall i, 0 <= i < cursor_len trimmed - cursor_len r ->
       predicate (h (cursor_ptr trimmed + i)) = true) /\
    (cursor_len r = 0 \/ predicate (h (cursor_ptr r)) = false).
Proof.
  induction turns as [|turns IH]; intros trimmed Hsz Hturns r; subst r;
    cbn [left_trim_loop]; unfold is_size_t in Hsz.
  - repeat split; try lia; left; lia.
  - destruct (Z.gtb_spec (cursor_len trimmed) 0) as [Hpos|Hzero]; cbn [andb].
    + destruct (predicate (h (cursor_ptr trimmed))) eqn:Hp.
      * rewrite size_wrap_small by (unfold is_size_t; lia).
        destruct (IH (mkCursor (cursor_len trimmed - 1) (cursor_ptr trimmed + 1)))
          as (Hptr & Hlen & Hall & Hfirst).
        { unfold is_size_t. cbn [cursor_len]. lia. }
        { cbn [cursor_len]. lia. }
        cbn [cursor_len cursor_ptr] in *.
        repeat split; try lia; [|exact Hfirst].
        intros i Hi. destruct (Z.eq_dec i 0) as [->|Hne].
        -- now rewrite Z.add_0_r.
        -- replace (cursor_ptr trimmed + i) with (cursor_ptr trimmed + 1 + (i - 1)) by lia.
           apply Hall. lia.
      * repeat split; try lia; now right.
    + repeat split; try lia; left; lia.
Qed.

(** X5.  [aws_byte_cursor_right_trim_pred] keeps the pointer and shortens
    the cursor to the longest prefix that does not end in a byte of the
    predicate: every byte cut off satisfies the predicate, and the result
    is empty or its last byte does not. *)
Theorem right_trim_pred_spec (h : heap_t) (source : aws_byte_cursor)
    (predicate : aws_byte_predicate_fn) :
  is_size_t (cursor_len source) ->
  let r := aws_byte_cursor_right_trim_pred h source predicate in
  cursor_ptr r = cursor_ptr source /\
  0 <= cursor_len r <= cursor_len source /\
  (forall i, cursor_len r <= i < cursor_len source ->
     predicate (h (cursor_ptr source + i)) = true) /\
  (cursor_len r = 0 \/
   predicate (h (cursor_ptr source + cursor_len r - 1)) = false).
Proof.
  intros Hsz. apply right_trim_loop_spec; [exact Hsz | lia].
Qed.

(** "  hi  " trimmed of spaces on the right. *)
Lemma right_trim_pred_spec_witness :
  let h := heap_of_bytes 4096 (list_byte_of_string "  hi  ") in
  let is_space : aws_byte_predicate_fn := fun b => u8 b =? 32 in
  let r := aws_byte_cursor_right_trim_pred h (mkCursor 6 4096) is_space in
  segment_text h r = "  hi"%string /\
  cursor_ptr r = 4096 /\
  0 <= cursor_len r <= 6 /\
  (forall i, cursor_len r <= i < 6 -> is_space (h (4096 + i)) = true) /\
  (cursor_len r = 0 \/ is_space (h (4096 + cursor_len r - 1)) = false).
Proof.
  intros h is_space r. split; [reflexivity|].
  apply (right_trim_pred_spec h (mkCursor 6 4096) is_space).
  unfold is_size_t, SIZE_MAX. cbn. lia.
Defined.

(** X6.  [aws_byte_cursor_left_trim_pred] keeps the end of the cursor and
    moves its start past the longest run of leading bytes of the
    predicate: every byte skipped satisfies the predicate, and the result
    is empty or its first byte does not. *)
Theorem left_trim_pred_spec (h : heap_t) (source : aws_byte_cursor)
    (predicate : aws_byte_predicate_fn) :
  is_size_t (cursor_len source) ->
  let r := aws_byte_cursor_left_trim_pred h source predicate in
  cursor_ptr r + cursor_len r = cursor_ptr source + cursor_len source /\
  0 <= cursor_len r <= cursor_len source /\
  (forall i, 0 <= i < cursor_len source - cursor_len r ->
     predicate (h (cursor_ptr source + i)) = true) /\
  (cursor_len r = 0 \/ predicate (h (cursor_ptr r)) = false).
Proof.
  intros Hsz. apply left_trim_loop_spec; [exact Hsz | lia].
Qed.

(** "  hi  " trimmed of spaces on the left. *)
Lemma left_trim_pred_spec_witness :
  let h := heap_of_bytes 4096 (list_byte_of_string "  hi  ") in
  let is_space : aws_byte_predicate_fn := fun b => u8 b =? 32 in
  let r := aws_byte_cursor_left_trim_pred h (mkCursor 6 4096) is_space in
  segment_text h r = "hi  "%string /\
  cursor_ptr r + cursor_len r = 4096 + 6 /\
  0 <= cursor_len r <= 6 /\
  (forall i, 0 <= i < 6 - cursor_len r -> is_space (h (4096 + i)) = true) /\
  (cursor_len r = 0 \/ is_space (h (cursor_ptr r)) = false).
Proof.
  intros h is_space r. split; [reflexivity|].
  apply (left_trim_pred_spec h (mkCursor 6 4096) is_space).
  unfold is_size_t, SIZE_MAX. cbn. lia.
Defined.

Lemma left_trim_fixed h (s : aws_byte_cursor) (predicate : aws_byte_predicate_fn) :
  cursor_len s <= 0 \/ predicate (h (cursor_ptr s)) = false ->
  aws_byte_cursor_left_trim_pred h s predicate = s.
Proof.
  intros H. unfold aws_byte_cursor_left_trim_pred.
  destruct (Z.to_nat (cursor_len s)) as [|t] eqn:E; cbn [left_trim_loop]; [reflexivity|].
  destruct H as [H|H]; [lia|]. rewrite H, andb_false_r. reflexivity.
Qed.

Lemma right_trim_fixed h (s : aws_byte_cursor) (predicate : aws_byte_predicate_fn) :
  cursor_len s <= 0 \/ predicate (h (cursor_ptr s + cursor_len s - 1)) = false ->
  aws_byte_cursor_right_trim_pred h s predicate = s.
Proof.
  intros H. unfold aws_byte_cursor_right_trim_pred.
  destruct (Z.to_nat (cursor_len s)) as [|t] eqn:E; cbn [right_trim_loop]; [reflexivity|].
  destruct H as [H|H]; [lia|]. rewrite H, andb_false_r. reflexivity.
Qed.

(** X7.  [aws_byte_cursor_trim_pred] returns a cursor inside the source:
    the bytes before and after it all satisfy the predicate, and it is
    empty or neither its first nor its last byte does.  Trimming the result
    again changes nothing. *)
Theorem trim_pred_spec (h : heap_t) (source : aws_byte_cursor)
    (predicate : aws_byte_predicate_fn) :
  is_size_t (cursor_len source) ->
  let r := aws_byte_cursor_trim_pred h source predicate in
  cursor_ptr source <= cursor_ptr r /\
  0 <= cursor_len r /\
  cursor_ptr r + cursor_len r <= cursor_ptr source + cursor_len source /\
  (forall a, cursor_ptr source <= a < cursor_ptr r \/
             cursor_ptr r + cursor_len r <= a < cursor_ptr source + cursor_len source ->
     predicate (h a) = true) /\
  (cursor_len r = 0 \/
   (predicate (h (cursor_ptr r)) = false /\
    predicate (h (cursor_ptr r + cursor_len r - 1)) = false)) /\
  aws_byte_cursor_trim_pred h r predicate = r.
Proof.
  intros Hsz r. subst r. unfold aws_byte_cursor_trim_pred.
  destruct (left_trim_loop_spec h predicate (Z.to_nat (cursor_len source)) source Hsz
              (Nat.le_refl _)) as (Lend & Llen & Lall & Lfirst).
  fold (aws_byte_cursor_left_trim_pred h source predicate) in *.
  set (l := aws_byte_cursor_left_trim_pred h source predicate) in *.
  assert (Hl : is_size_t (cursor_len l)) by (unfold is_size_t in *; lia).
  destruct (right_trim_loop_spec h predicate (Z.to_nat (cursor_len l)) l Hl
              (Nat.le_refl _)) as (Rptr & Rlen & Rall & Rlast).
  fold (aws_byte_cursor_right_trim_pred h l predicate) in *.
  set (r := aws_byte_cursor_right_trim_pred h l predicate) in *.
  assert (Hends : cursor_len r = 0 \/
    (predicate (h (cursor_ptr r)) = false /\
     predicate (h (cursor_ptr r + cursor_len r - 1)) = false)).
  { destruct Rlast as [Z0|Rlast]; [now left|].
    destruct (Z.eq_dec (cursor_len r) 0) as [Z0|NZ]; [now left|].
    right. rewrite Rptr. split; [|exact Rlast].
    destruct Lfirst as [Z0|Lfirst]; [lia | exact Lfirst]. }
  repeat split; try lia.
  - intros a [Ha|Ha].
    + replace a with (cursor_ptr source + (a - cursor_ptr source)) by lia.
      apply Lall. lia.
    + replace a with (cursor_ptr l + (a - cursor_ptr l)) by lia.
      apply Rall. lia.
  - exact Hends.
  - rewrite left_trim_fixed.
    + apply right_trim_fixed. destruct Hends as [Z0|[_ E]]; [left; lia | now right].
    + destruct Hends as [Z0|[E _]]; [left; lia | now right].
Qed.

(** "  hi  " trimmed of spaces is "hi"; all spaces trim to nothing. *)
Lemma trim_pred_spec_witness :
  let h := heap_of_bytes 4096 (list_byte_of_string "  hi      ") in
  let is_space : aws_byte_predicate_fn := fun b => u8 b =? 32 in
  let r := aws_byte_cursor_trim_pred h (mkCursor 6 4096) is_space in
  segment_text h r = "hi"%string /\
  aws_byte_cursor_trim_pred h (mkCursor 4 4102) is_space = mkCursor 0 4106 /\
  aws_byte_cursor_trim_pred h r is_space = r.
Proof.
  intros h is_space r. split; [reflexivity|]. split; [reflexivity|].
  apply (trim_pred_spec h (mkCursor 6 4096) is_space).
  unfold is_size_t, SIZE_MAX. cbn. lia.
Defined.

Lemma left_trim_loop_all h (predicate : aws_byte_predicate_fn) :
  forall turns trimmed,
    is_size_t (cursor_len trimmed) ->
    (Z.to_nat (cursor_len trimmed) <= turns)%nat ->
    (cursor_len (left_trim_loop turns h predicate trimmed) = 0 <->
     forall i, 0 <= i < cursor_len trimmed ->
       predicate (h (cursor_ptr trimmed + i)) = true).
Proof.
  intros turns trimmed Hsz Hturns.
  destruct (left_trim_loop_spec h predicate turns trimmed Hsz Hturns)
    as (Hend & Hlen & Hall & Hfirst).
  set (r := left_trim_loop turns h predicate trimmed) in *.
  split.
  - intros Hz i Hi. apply Hall. lia.
  - intros Hevery. destruct Hfirst as [Hz|Hfirst]; [exact Hz|].
    destruct (Z.eq_dec (cursor_len r) 0) as [Hz|Hnz]; [exact Hz|].
    exfalso. specialize (Hevery (cursor_ptr r - cursor_ptr trimmed) ltac:(lia)).
    replace (cursor_ptr trimmed + (cursor_ptr r - cursor_ptr trimmed))
      with (cursor_ptr r) in Hevery by lia.
    congruence.
Qed.

(** X8.  [aws_byte_cursor_satisfies_pred] is true exactly when every byte
    of the cursor satisfies the predicate; so it is true of the empty
    cursor. *)
Theorem satisfies_pred_iff_all (h : heap_t) (source : aws_byte_cursor)
    (predicate : aws_byte_predicate_fn) :
  is_size_t (cursor_len source) ->
  (aws_byte_cursor_satisfies_pred h source predicate = true <->
   forall i, 0 <= i < cursor_len source ->
     predicate (h (cursor_ptr source + i)) = true).
Proof.
  intros Hsz. unfold aws_byte_cursor_satisfies_pred, aws_byte_cursor_left_trim_pred.
  rewrite Z.eqb_eq. apply left_trim_loop_all; [exact Hsz | lia].
Qed.

(** Four spaces satisfy "is a space"; "  hi" does not. *)
Lemma satisfies_pred_iff_all_witness :
  let h := heap_of_bytes 4096 (list_byte_of_string "  hi    ") in
  let is_space : aws_byte_predicate_fn := fun b => u8 b =? 32 in
  aws_byte_cursor_satisfies_pred h (mkCursor 4 4096) is_space = false /\
  aws_byte_cursor_satisfies_pred h (mkCursor 0 4096) is_space = true /\
  (forall i, 0 <= i < 4 -> is_space (h (4100 + i)) = true).
Proof.
  intros h is_space. split; [reflexivity|]. split; [reflexivity|].
  apply (proj1 (satisfies_pred_iff_all h (mkCursor 4 4100) is_space
                  ltac:(unfold is_size_t, SIZE_MAX; cbn; lia))).
  reflexivity.
Defined.

Lemma left_trim_loop_ext h1 h2 (predicate : aws_byte_predicate_fn) :
  forall turns trimmed,
    is_size_t (cursor_len trimmed) ->
    (forall a, cursor_ptr trimmed <= a < cursor_ptr trimmed + cursor_len trimmed ->
       h1 a = h2 a) ->
    left_trim_loop turns h1 predicate trimmed = left_trim_loop turns h2 predicate trimmed.
Proof.
  induction turns as [|turns IH]; intros trimmed Hsz Hext; cbn [left_trim_loop];
    [reflexivity|].
  unfold is_size_t in Hsz.
  destruct (Z.gtb_spec (cursor_len trimmed) 0) as [Hpos|Hzero]; cbn [andb]; [|reflexivity].
  rewrite <- (Hext (cursor_ptr trimmed)) by lia.
  destruct (predicate (h1 (cursor_ptr trimmed))); [|reflexivity].
  rewrite size_wrap_small by (unfold is_size_t; lia).
  apply IH; cbn [cursor_len cursor_ptr]; [unfold is_size_t; lia|].
  intros a Ha. apply Hext. lia.
Qed.

Lemma right_trim_loop_ext h1 h2 (predicate : aws_byte_predicate_fn) :
  forall turns trimmed,
    is_size_t (cursor_len trimmed) ->
    (forall a, cursor_ptr trimmed <= a < cursor_ptr trimmed + cursor_len trimmed ->
       h1 a = h2 a) ->
    right_trim_loop turns h1 predicate trimmed = right_trim_loop turns h2 predicate trimmed.
Proof.
  induction turns as [|turns IH]; intros trimmed Hsz Hext; cbn [right_trim_loop];
    [reflexivity|].
  unfold is_size_t in Hsz.
  destruct (Z.gtb_spec (cursor_len trimmed) 0) as [Hpos|Hzero]; cbn [andb]; [|reflexivity].
  rewrite <- (Hext (cursor_ptr trimmed + cursor_len trimmed - 1)) by lia.
  destruct (predicate (h1 (cursor_ptr trimmed + cursor_len trimmed - 1))); [|reflexivity].
  rewrite size_wrap_small by (unfold is_size_t; lia).
  apply IH; cbn [cursor_len cursor_ptr]; [unfold is_size_t; lia|].
  intros a Ha. apply Hext. lia.
Qed.

(** X9.  The trimming functions and [aws_byte_cursor_satisfies_pred] read
    no byte outside the cursor: on two heaps that agree on the bytes of the
    cursor they return the same. *)
Theorem trim_reads_only_the_cursor (h1 h2 : heap_t) (source : aws_byte_cursor)
    (predicate : aws_byte_predicate_fn) :
  is_size_t (cursor_len source) ->
  (forall a, cursor_ptr source <= a < cursor_ptr source + cursor_len source ->
     h1 a = h2 a) ->
  aws_byte_cursor_left_trim_pred h1 source predicate
  = aws_byte_cursor_left_trim_pred h2 source predicate /\
  aws_byte_cursor_right_trim_pred h1 source predicate
  = aws_byte_cursor_right_trim_pred h2 source predicate /\
  aws_byte_cursor_trim_pred h1 source predicate
  = aws_byte_cursor_trim_pred h2 source predicate /\
  aws_byte_cursor_satisfies_pred h1 source predicate
  = aws_byte_cursor_satisfies_pred h2 source predicate.
Proof.
  intros Hsz Hext.
  assert (Hleft : aws_byte_cursor_left_trim_pred h1 source predicate
                  = aws_byte_cursor_left_trim_pred h2 source predicate)
    by (apply left_trim_loop_ext; assumption).
  split; [exact Hleft|].
  split; [apply right_trim_loop_ext; assumption|].
  split.
  - unfold aws_byte_cursor_trim_pred. rewrite <- Hleft.
    destruct (left_trim_loop_spec h1 predicate (Z.to_nat (cursor_len source)) source Hsz
                (Nat.le_refl _)) as (Lend & Llen & _ & _).
    fold (aws_byte_cursor_left_trim_pred h1 source predicate) in *.
    set (l := aws_byte_cursor_left_trim_pred h1 source predicate) in *.
    apply right_trim_loop_ext; [unfold is_size_t in *; lia|].
    intros a Ha. apply Hext. lia.
  - unfold aws_byte_cursor_satisfies_pred. now rewrite Hleft.
Qed.

(** "  hi  " in two heaps that differ after it. *)
Lemma trim_reads_only_the_cursor_witness :
  let h1 := heap_of_bytes 4096 (list_byte_of_string "  hi   ") in
  let h2 := heap_of_bytes 4096 (list_byte_of_string "  hi  !") in
  let is_space : aws_byte_predicate_fn := fun b => u8 b =? 32 in
  h1 4102 <> h2 4102 /\
  aws_byte_cursor_trim_pred h1 (mkCursor 6 4096) is_space
  = aws_byte_cursor_trim_pred h2 (mkCursor 6 4096) is_space.
Proof.
  intros h1 h2 is_space. split; [discriminate|].
  refine (proj1 (proj2 (proj2 (trim_reads_only_the_cursor h1 h2 (mkCursor 6 4096)
                                 is_space _ _)))).
  - unfold is_size_t, SIZE_MAX. cbn. lia.
  - cbn [cursor_ptr cursor_len]. intros a Ha.
    assert (a = 4096 \/ a = 4097 \/ a = 4098 \/ a = 4099 \/ a = 4100 \/ a = 4101)
      as [->|[->|[->|[->|[->| ->]]]]] by lia; reflexivity.
Defined.

(** ** The equality functions *)

Lemma memcmp_eqb_true h a b n :
  (memcmp h a b n =? 0) = true <-> forall i, 0 <= i < n -> h (a + i) = h (b + i).
Proof.
  rewrite Z.eqb_eq. unfold memcmp. rewrite memcmp_loop_zero.
  split; intros H i Hi; apply H; lia.
Qed.

Lemma aws_byte_cursor_eq_true h a b :
  aws_byte_cursor_eq h (Some a) (Some b) = true <->
  cursor_len a = cursor_len b /\
  ((cursor_ptr a = NULL /\ cursor_ptr b = NULL) \/
   (cursor_ptr a <> NULL /\ cursor_ptr b <> NULL /\
    forall i, 0 <= i < cursor_len a -> h (cursor_ptr a + i) = h (cursor_ptr b + i))).
Proof.
  unfold aws_byte_cursor_eq.
  destruct (Z.eqb_spec (cursor_len a) (cursor_len b)) as [E|E]; cbn [negb].
  - destruct (Z.eqb_spec (cursor_ptr a) NULL) as [Na|Na],
             (Z.eqb_spec (cursor_ptr b) NULL) as [Nb|Nb]; cbn [orb].
    + rewrite Na, Nb. split; [intros _; split; [exact E | now left] | reflexivity].
    + rewrite Z.eqb_eq. split; [intros H; exfalso; congruence|].
      intros [_ [[_ H]|[H _]]]; contradiction.
    + rewrite Z.eqb_eq. split; [intros H; exfalso; congruence|].
      intros [_ [[H _]|[_ [H _]]]]; contradiction.
    + rewrite memcmp_eqb_true. split.
      * intros H. split; [exact E|]. right. repeat split; assumption.
      * intros [_ [[H _]|[_ [_ H]]]]; [contradiction | exact H].
  - split; [discriminate | intros [H _]; contradiction].
Qed.

(** X10.  [aws_byte_cursor_eq] is an equivalence relation on cursor handles,
    null handles included: reflexive, symmetric and transitive. *)
Theorem aws_byte_cursor_eq_equivalence (h : heap_t) (a b c : option aws_byte_cursor) :
  aws_byte_cursor_eq h a a = true /\
  aws_byte_cursor_eq h a b = aws_byte_cursor_eq h b a /\
  (aws_byte_cursor_eq h a b = true -> aws_byte_cursor_eq h b c = true ->
   aws_byte_cursor_eq h a c = true).
Proof.
  split; [|split].
  - destruct a as [a|]; [|reflexivity]. apply aws_byte_cursor_eq_true.
    split; [reflexivity|].
    destruct (Z.eq_dec (cursor_ptr a) NULL); [now left | right; repeat split; assumption].
  - destruct a as [a|], b as [b|]; try reflexivity.
    apply eq_true_iff_eq. rewrite !aws_byte_cursor_eq_true.
    split; intros [E [[Na Nb]|[Na [Nb H]]]]; (split; [now symmetry|]);
      try (left; split; assumption);
      right; repeat split; try assumption; intros i Hi; symmetry; apply H; lia.
  - destruct a as [a|], b as [b|], c as [c|]; try reflexivity; try discriminate.
    rewrite !aws_byte_cursor_eq_true.
    intros [E1 [[Na Nb]|[Na [Nb H1]]]] [E2 [[Nb' Nc]|[Nb' [Nc H2]]]];
      try contradiction; (split; [congruence|]).
    + now left.
    + right. repeat split; try assumption.
      intros i Hi. rewrite H1 by exact Hi. apply H2. lia.
Qed.

(** "abcabcabd": the first two "abc" are equal, and so are the second and
    the first; "abd" is not. *)
Lemma aws_byte_cursor_eq_equivalence_witness :
  let h := heap_of_bytes 4096 (list_byte_of_string "abcabcabd") in
  aws_byte_cursor_eq h (Some (mkCursor 3 4096)) (Some (mkCursor 3 4102)) = false /\
  aws_byte_cursor_eq h (Some (mkCursor 3 4096)) (Some (mkCursor 3 4096)) = true.
Proof.
  intros h. split; [reflexivity|].
  destruct (aws_byte_cursor_eq_equivalence h (Some (mkCursor 3 4096))
              (Some (mkCursor 3 4099)) (Some (mkCursor 3 4096))) as (_ & _ & Htrans).
  apply Htrans; reflexivity.
Defined.

(** X11.  [aws_byte_buf_eq] and [aws_byte_cursor_eq_byte_buf] return true
    exactly when the two lengths are equal and either both pointers are
    null, or neither is and the first [len] bytes are the same; [capacity]
    and [allocator] play no part. *)
Theorem buffer_equality_compares_used_bytes (h : heap_t) (a b : aws_byte_buf)
    (c : aws_byte_cursor) :
  (aws_byte_buf_eq h (Some a) (Some b) = true <->
   buf_len a = buf_len b /\
   ((buf_buffer a = NULL /\ buf_buffer b = NULL) \/
    (buf_buffer a <> NULL /\ buf_buffer b <> NULL /\
     forall i, 0 <= i < buf_len a -> h (buf_buffer a + i) = h (buf_buffer b + i))))
  /\
  (aws_byte_cursor_eq_byte_buf h (Some c) (Some b) = true <->
   cursor_len c = buf_len b /\
   ((cursor_ptr c = NULL /\ buf_buffer b = NULL) \/
    (cursor_ptr c <> NULL /\ buf_buffer b <> NULL /\
     forall i, 0 <= i < cursor_len c -> h (cursor_ptr c + i) = h (buf_buffer b + i)))).
Proof.
  split.
  - exact (aws_byte_cursor_eq_true h (aws_byte_cursor_from_buf a) (aws_byte_cursor_from_buf b)).
  - exact (aws_byte_cursor_eq_true h c (aws_byte_cursor_from_buf b)).
Qed.

(** Two buffers that hold "abc", of capacities 3 and 8. *)
Lemma buffer_equality_compares_used_bytes_witness :
  let h := heap_of_bytes 4096 (list_byte_of_string "abcabcxxxxx") in
  aws_byte_buf_eq h (Some (mkBuf 3 4096 3 0)) (Some (mkBuf 3 4099 8 7)) = true /\
  forall i, 0 <= i < 3 -> h (4096 + i) = h (4099 + i).
Proof.
  intros h.
  destruct (buffer_equality_compares_used_bytes h (mkBuf 3 4096 3 0) (mkBuf 3 4099 8 7)
              zero_cursor) as [Hbuf _].
  split; [reflexivity|].
  destruct (proj1 Hbuf eq_refl) as [_ [[E _]|[_ [_ H]]]]; [discriminate E | exact H].
Defined.

Lemma memcmp_loop_nonzero h a b n :
  memcmp_loop h a b n <> 0 ->
  exists i, 0 <= i < Z.of_nat n /\ h (a + i) <> h (b + i).
Proof.
  revert a b. induction n as [|n IH]; intros a b; cbn [memcmp_loop]; [contradiction|].
  destruct (Z.eqb_spec (u8 (h a)) (u8 (h b))) as [E|E].
  - intros H. destruct (IH _ _ H) as (i & Hi & Hd). exists (i + 1). split; [lia|].
    now replace (a + (i + 1)) with (a + 1 + i) by lia;
      replace (b + (i + 1)) with (b + 1 + i) by lia.
  - intros _. exists 0. split; [lia|]. rewrite !Z.add_0_r. congruence.
Qed.

Lemma eq_case_insensitive_true h a b :
  aws_byte_cursor_eq_case_insensitive h (Some a) (Some b) = true <->
  cursor_len a = cursor_len b /\
  forall i, 0 <= i < cursor_len a ->
    tolower (h (cursor_ptr a + i)) = tolower (h (cursor_ptr b + i)).
Proof.
  unfold aws_byte_cursor_eq_case_insensitive.
  destruct (Z.eqb_spec (cursor_len a) (cursor_len b)) as [E|E]; cbn [negb].
  - rewrite eq_case_insensitive_loop_true. split.
    + intros H. split; [exact E|]. intros i Hi.
      specialize (H i ltac:(lia)). now rewrite Z.add_0_l in H.
    + intros [_ H] j Hj. rewrite Z.add_0_l. apply H. lia.
  - split; [discriminate | intros [E' _]; contradiction].
Qed.

(** X12.  [aws_byte_cursor_eq_case_insensitive] is an equivalence relation
    on cursor handles, null handles included. *)
Theorem eq_case_insensitive_equivalence (h : heap_t) (a b c : option aws_byte_cursor) :
  aws_byte_cursor_eq_case_insensitive h a a = true /\
  aws_byte_cursor_eq_case_insensitive h a b = aws_byte_cursor_eq_case_insensitive h b a /\
  (aws_byte_cursor_eq_case_insensitive h a b = true ->
   aws_byte_cursor_eq_case_insensitive h b c = true ->
   aws_byte_cursor_eq_case_insensitive h a c = true).
Proof.
  split; [|split].
  - destruct a as [a|]; [|reflexivity]. apply eq_case_insensitive_true.
    split; reflexivity.
  - destruct a as [a|], b as [b|]; try reflexivity.
    apply eq_true_iff_eq. rewrite !eq_case_insensitive_true.
    split; intros [E H]; (split; [now symmetry|]); intros i Hi; symmetry; apply H; lia.
  - destruct a as [a|], b as [b|], c as [c|]; try reflexivity; try discriminate.
    rewrite !eq_case_insensitive_true. intros [E1 H1] [E2 H2].
    split; [congruence|]. intros i Hi. rewrite H1 by exact Hi. apply H2. lia.
Qed.

(** "Abc", "aBc" and "abC". *)
Lemma eq_case_insensitive_equivalence_witness :
  let h := heap_of_bytes 4096 (list_byte_of_string "AbcaBcabC") in
  aws_byte_cursor_eq_case_insensitive h (Some (mkCursor 3 4096)) (Some (mkCursor 3 4102))
  = true.
Proof.
  intros h.
  destruct (eq_case_insensitive_equivalence h (Some (mkCursor 3 4096))
              (Some (mkCursor 3 4099)) (Some (mkCursor 3 4102))) as (_ & _ & Htrans).
  apply Htrans; reflexivity.
Defined.

(** X13.  Cursors that are equal under [aws_byte_cursor_eq] and hold what
    their length says (non-null pointers, or no bytes) are equal under
    [aws_byte_cursor_eq_case_insensitive].  Conversely, cursors equal
    ignoring case and unequal exactly either differ at some position by the
    case of an ASCII letter, or exactly one of their pointers is null. *)
Theorem eq_against_eq_case_insensitive (h : heap_t) (a b : aws_byte_cursor) :
  (cursor_len a = 0 \/ (cursor_ptr a <> NULL /\ cursor_ptr b <> NULL) ->
   aws_byte_cursor_eq h (Some a) (Some b) = true ->
   aws_byte_cursor_eq_case_insensitive h (Some a) (Some b) = true)
  /\
  (aws_byte_cursor_eq_case_insensitive h (Some a) (Some b) = true ->
   aws_byte_cursor_eq h (Some a) (Some b) = false ->
   (exists i, 0 <= i < cursor_len a /\
      h (cursor_ptr a + i) <> h (cursor_ptr b + i) /\
      same_ignoring_ascii_case (h (cursor_ptr a + i)) (h (cursor_ptr b + i))) \/
   (cursor_ptr a = NULL /\ cursor_ptr b <> NULL) \/
   (cursor_ptr a <> NULL /\ cursor_ptr b = NULL)).
Proof.
  split.
  - intros Hwf Heq. apply aws_byte_cursor_eq_true in Heq. destruct Heq as [E Hcases].
    apply eq_case_insensitive_true. split; [exact E|]. intros i Hi.
    destruct Hcases as [[Na Nb]|[_ [_ H]]].
    + destruct Hwf as [Z0|[Na' _]]; [lia | contradiction].
    + now rewrite H.
  - intros Hci Hne. apply eq_case_insensitive_true in Hci. destruct Hci as [E Hlow].
    unfold aws_byte_cursor_eq in Hne. rewrite E, Z.eqb_refl in Hne. cbn [negb] in Hne.
    destruct (Z.eqb_spec (cursor_ptr a) NULL) as [Na|Na],
             (Z.eqb_spec (cursor_ptr b) NULL) as [Nb|Nb]; cbn [orb] in Hne.
    + rewrite Na, Nb in Hne. discriminate.
    + right. left. split; assumption.
    + right. right. split; assumption.
    + left. apply Z.eqb_neq in Hne. unfold memcmp in Hne.
      apply memcmp_loop_nonzero in Hne. destruct Hne as (i & Hi & Hd).
      exists i. rewrite <- E in Hi. split; [lia|]. split; [exact Hd|].
      apply tolower_eq_iff. apply Hlow. lia.
Qed.

(** "abc" and "aBc" differ by the case of a letter; the empty null cursor
    and an empty cursor differ by the null pointer alone. *)
Lemma eq_against_eq_case_insensitive_witness :
  let h := heap_of_bytes 4096 (list_byte_of_string "abcaBc") in
  (exists i, 0 <= i < 3 /\ h (4096 + i) <> h (4099 + i) /\
     same_ignoring_ascii_case (h (4096 + i)) (h (4099 + i))) /\
  aws_byte_cursor_eq_case_insensitive h (Some (mkCursor 0 NULL)) (Some (mkCursor 0 4096))
  = true /\
  aws_byte_cursor_eq h (Some (mkCursor 0 NULL)) (Some (mkCursor 0 4096)) = false.
Proof.
  intros h. split; [|split; reflexivity].
  destruct (proj2 (eq_against_eq_case_insensitive h (mkCursor 3 4096) (mkCursor 3 4099))
              eq_refl eq_refl) as [H|[[H _]|[_ H]]].
  - exact H.
  - discriminate H.
  - discriminate H.
Defined.

(** ** Buffers: cleaning up *)

(** X14.  [aws_byte_buf_clean_up] zeroes every field; it releases the buffer
    to its allocator exactly when both are non-null, and touches nothing
    else of the world.  Cleaning up again neither changes the structure nor
    releases anything: there is no double release. *)
Theorem aws_byte_buf_clean_up_once (w : world) (buf : aws_byte_buf) :
  let buf' := fst (aws_byte_buf_clean_up w buf) in
  let w' := snd (aws_byte_buf_clean_up w buf) in
  buf' = mkBuf 0 NULL 0 NULL /\
  (buf_allocator buf <> NULL /\ buf_buffer buf <> NULL ->
   released w' = (buf_allocator buf, buf_buffer buf) :: released w) /\
  (buf_allocator buf = NULL \/ buf_buffer buf = NULL -> released w' = released w) /\
  heap w' = heap w /\ last_error w' = last_error w /\ acquired w' = acquired w /\
  aws_byte_buf_clean_up w' buf' = (buf', w').
Proof.
  unfold aws_byte_buf_clean_up.
  destruct (Z.eqb_spec (buf_allocator buf) NULL) as [Na|Na],
           (Z.eqb_spec (buf_buffer buf) NULL) as [Nb|Nb];
    cbn [negb andb fst snd buf_allocator buf_buffer];
    change (NULL =? NULL) with true; cbn [negb andb];
    repeat split; try reflexivity;
    try (intros [? ?]; contradiction); try (intros [?|?]; contradiction).
Qed.

Lemma aws_byte_buf_clean_up_once_witness :
  let w := empty_world in
  let buf := mkBuf 3 4096 8 7 in
  let w' := snd (aws_byte_buf_clean_up w buf) in
  released w' = [(7, 4096)] /\
  released (snd (aws_byte_buf_clean_up w' (fst (aws_byte_buf_clean_up w buf)))) = [(7, 4096)].
Proof.
  intros w buf w'.
  destruct (aws_byte_buf_clean_up_once w buf) as (_ & Hrel & _ & _ & _ & _ & Hagain).
  split.
  - apply Hrel. split; discriminate.
  - fold w' in Hagain. rewrite Hagain. cbn [snd]. apply Hrel. split; discriminate.
Defined.

(** X15.  [aws_byte_buf_clean_up_secure] on a buffer with a non-null
    [buffer] leaves all [capacity] bytes of it zero, bytes elsewhere as
    they were, every field zeroed, and the buffer released exactly when
    [allocator] is non-null: what goes back to the allocator has been
    wiped. *)
Theorem aws_byte_buf_clean_up_secure_wipes (w : world) (buf : aws_byte_buf) :
  buf_buffer buf <> NULL ->
  let buf' := fst (aws_byte_buf_clean_up_secure w buf) in
  let w' := snd (aws_byte_buf_clean_up_secure w buf) in
  buf' = mkBuf 0 NULL 0 NULL /\
  (forall a, buf_buffer buf <= a < buf_buffer buf + buf_capacity buf ->
     heap w' a = x00) /\
  (forall a, a < buf_buffer buf \/ buf_buffer buf + buf_capacity buf <= a ->
     heap w' a = heap w a) /\
  released w'
  = (if buf_allocator buf =? NULL then released w
     else (buf_allocator buf, buf_buffer buf) :: released w) /\
  acquired w' = acquired w /\ last_error w' = last_error w.
Proof.
  intros Hbuf. unfold aws_byte_buf_clean_up_secure, aws_byte_buf_secure_zero,
    aws_byte_buf_clean_up.
  destruct (Z.eqb_spec (buf_buffer buf) NULL) as [E|_]; [contradiction|].
  cbn [negb buf_allocator buf_buffer buf_capacity].
  destruct (Z.eqb_spec (buf_buffer buf) NULL) as [E|_]; [contradiction|].
  destruct (Z.eqb_spec (buf_allocator buf) NULL) as [Na|Na];
    cbn [negb andb fst snd heap released acquired last_error set_heap aws_mem_release];
    repeat split;
    try (intros a Ha; unfold aws_secure_zero;
         first [now rewrite in_range_true | now rewrite in_range_false]).
Qed.

Lemma aws_byte_buf_clean_up_secure_wipes_witness :
  let w := mkWorld (heap_of_bytes 4096 (list_byte_of_string "password")) AWS_ERROR_SUCCESS [] [] in
  let buf := mkBuf 3 4096 8 7 in
  let w' := snd (aws_byte_buf_clean_up_secure w buf) in
  read_bytes (heap w') 4096 8 = repeat x00 8 /\
  released w' = [(7, 4096)] /\
  (forall a, 4096 <= a < 4096 + 8 -> heap w' a = x00).
Proof.
  intros w buf w'. split; [reflexivity|]. split; [reflexivity|].
  refine (proj1 (proj2 (aws_byte_buf_clean_up_secure_wipes w buf _))).
  unfold NULL. cbn. lia.
Defined.

(** ** Buffers: a life cycle *)

(** X16.  [aws_byte_buf_init] then [aws_byte_buf_clean_up], with a non-null
    allocator: after a successful init the clean-up releases, to the same
    allocator, exactly the block the init acquired; after a failed init it
    releases nothing. *)
Theorem init_then_clean_up_balance
    (mem_acquire : world -> Z -> Z -> Z * heap_t) (w : world)
    (buf : aws_byte_buf) (allocator capacity : Z) :
  allocator <> NULL ->
  let r := aws_byte_buf_init mem_acquire w buf allocator capacity in
  let w2 := snd (aws_byte_buf_clean_up (snd r) (snd (fst r))) in
  acquired w2 = (allocator, capacity) :: acquired w /\
  (fst (fst r) = AWS_OP_SUCCESS ->
   buf_buffer (snd (fst r)) <> NULL /\
   released w2 = (allocator, buf_buffer (snd (fst r))) :: released w) /\
  (fst (fst r) <> AWS_OP_SUCCESS ->
   fst (fst r) = AWS_OP_ERR /\ released w2 = released w).
Proof.
  intros Halloc. unfold aws_byte_buf_init, aws_mem_acquire.
  destruct (mem_acquire w allocator capacity) as [p h'].
  cbn [buf_buffer]. destruct (Z.eqb_spec p NULL) as [E|E].
  - subst p. unfold aws_byte_buf_clean_up.
    cbn [fst snd buf_allocator buf_buffer]. change (NULL =? NULL) with true.
    rewrite andb_false_r. cbn [acquired released].
    split; [reflexivity|]. split.
    + unfold AWS_OP_ERR, AWS_OP_SUCCESS. discriminate.
    + intros _. split; reflexivity.
  - unfold aws_byte_buf_clean_up.
    cbn [fst snd buf_allocator buf_buffer].
    destruct (Z.eqb_spec allocator NULL) as [F|_]; [contradiction|].
    destruct (Z.eqb_spec p NULL) as [F|_]; [contradiction|].
    cbn [negb andb acquired released aws_mem_release].
    split; [reflexivity|]. split.
    + intros _. split; [exact E | reflexivity].
    + intros H. contradiction.
Qed.

Lemma init_then_clean_up_balance_witness :
  let r := aws_byte_buf_init (block_allocator 8192) empty_world (mkBuf 0 NULL 0 NULL) 7 16 in
  let w2 := snd (aws_byte_buf_clean_up (snd r) (snd (fst r))) in
  fst (fst r) = AWS_OP_SUCCESS /\
  acquired w2 = [(7, 16)] /\ released w2 = [(7, 8192)].
Proof.
  intros r w2. split; [reflexivity|].
  destruct (init_then_clean_up_balance (block_allocator 8192) empty_world
              (mkBuf 0 NULL 0 NULL) 7 16 ltac:(unfold NULL; lia)) as (Hacq & Hok & _).
  split; [exact Hacq|]. apply Hok. reflexivity.
Defined.

(** X17.  [aws_byte_buf_init_copy_from_cursor], called on a destination with
    an allocator as it asserts, always returns, and leaves the destination
    in one of two states: owning a copy ([len == capacity == src.len],
    the allocator set, a non-null buffer) when it returns success on a
    source with a non-null pointer, and otherwise (a null source, or no
    memory) with every field zero.  A clean-up after it releases exactly
    the block of the first state and nothing in the second. *)
Theorem init_copy_from_cursor_outcomes
    (mem_acquire : world -> Z -> Z -> Z * heap_t) (w : world)
    (dest : aws_byte_buf) (allocator : Z) (src : aws_byte_cursor) :
  allocator <> NULL ->
  exists rc dest' w',
    aws_byte_buf_init_copy_from_cursor mem_acquire w (Some dest) allocator src
    = Returns (rc, dest', w') /\
    let w2 := snd (aws_byte_buf_clean_up w' dest') in
    ((rc = AWS_OP_SUCCESS /\ cursor_ptr src <> NULL /\
      buf_buffer dest' <> NULL /\
      dest' = mkBuf (cursor_len src) (buf_buffer dest') (cursor_len src) allocator /\
      released w2 = (allocator, buf_buffer dest') :: released w)
     \/
     ((rc = AWS_OP_SUCCESS /\ cursor_ptr src = NULL /\ w' = w \/
       rc = AWS_OP_ERR /\ cursor_ptr src <> NULL /\ last_error w' = AWS_ERROR_OOM) /\
      dest' = mkBuf 0 NULL 0 NULL /\
      released w2 = released w)).
Proof.
  intros Halloc. unfold aws_byte_buf_init_copy_from_cursor, c_assert.
  destruct (Z.eqb_spec allocator NULL) as [E|_]; [contradiction|]. cbn [negb].
  destruct (Z.eqb_spec (cursor_ptr src) NULL) as [Hs|Hs].
  - do 3 eexists. split; [reflexivity|]. right.
    split; [left; repeat split; assumption|]. split; reflexivity.
  - unfold aws_mem_acquire.
    destruct (mem_acquire w allocator (size_wrap (1 * cursor_len src))) as [p h'].
    cbn [buf_buffer buf_len buf_capacity buf_allocator].
    destruct (Z.eqb_spec p NULL) as [Hp|Hp].
    + subst p. do 3 eexists. split; [reflexivity|]. right.
      split; [right; repeat split; try assumption; cbn; reflexivity|].
      split; reflexivity.
    + do 3 eexists. split; [reflexivity|]. left.
      unfold aws_byte_buf_clean_up. cbn [buf_buffer buf_allocator snd].
      destruct (Z.eqb_spec allocator NULL) as [F|_]; [contradiction|].
      destruct (Z.eqb_spec p NULL) as [F|_]; [contradiction|].
      cbn [negb andb released aws_mem_release set_heap].
      repeat split; assumption.
Qed.

Lemma init_copy_from_cursor_outcomes_witness :
  (exists dest' w',
     aws_byte_buf_init_copy_from_cursor oom_allocator empty_world
       (Some (mkBuf 3 4096 8 7)) 7 (mkCursor 2 12288)
     = Returns (AWS_OP_ERR, dest', w') /\ dest' = mkBuf 0 NULL 0 NULL) /\
  exists rc dest' w',
    aws_byte_buf_init_copy_from_cursor (block_allocator 8192) empty_world
      (Some (mkBuf 3 4096 8 7)) 7 (mkCursor 2 12288)
    = Returns (rc, dest', w') /\
    let w2 := snd (aws_byte_buf_clean_up w' dest') in
    ((rc = AWS_OP_SUCCESS /\ cursor_ptr (mkCursor 2 12288) <> NULL /\
      buf_buffer dest' <> NULL /\
      dest' = mkBuf 2 (buf_buffer dest') 2 7 /\
      released w2 = (7, buf_buffer dest') :: released empty_world)
     \/
     ((rc = AWS_OP_SUCCESS /\ cursor_ptr (mkCursor 2 12288) = NULL /\ w' = empty_world \/
       rc = AWS_OP_ERR /\ cursor_ptr (mkCursor 2 12288) <> NULL /\
       last_error w' = AWS_ERROR_OOM) /\
      dest' = mkBuf 0 NULL 0 NULL /\
      released w2 = released empty_world)).
Proof.
  split.
  - do 2 eexists. split; reflexivity.
  - apply (init_copy_from_cursor_outcomes (block_allocator 8192) empty_world
             (mkBuf 3 4096 8 7) 7 (mkCursor 2 12288)).
    unfold NULL. lia.
Defined.

(** ** Buffers: appending and concatenating *)

Lemma read_bytes_ext h1 h2 p q n :
  (forall i, 0 <= i < Z.of_nat n -> h1 (p + i) = h2 (q + i)) ->
  read_bytes h1 p n = read_bytes h2 q n.
Proof.
  revert p q. induction n as [|n IH]; intros p q H; cbn [read_bytes]; [reflexivity|].
  f_equal.
  - specialize (H 0 ltac:(lia)). now rewrite !Z.add_0_r in H.
  - apply IH. intros i Hi. specialize (H (i + 1) ltac:(lia)).
    now replace (p + (i + 1)) with (p + 1 + i) in H by lia;
      replace (q + (i + 1)) with (q + 1 + i) in H by lia.
Qed.

Lemma aws_byte_buf_append_fits w to from :
  buf_buffer to <> NULL -> cursor_ptr from <> NULL ->
  is_size_t (buf_len to) -> is_size_t (buf_capacity to) ->
  0 <= cursor_len from <= buf_capacity to - buf_len to ->
  aws_byte_buf_append w to from
  = Returns (AWS_OP_SUCCESS,
             mkBuf (buf_len to + cursor_len from) (buf_buffer to) (buf_capacity to)
               (buf_allocator to),
             set_heap w (memcpy (heap w) (buf_buffer to + buf_len to) (cursor_ptr from)
                           (cursor_len from))).
Proof.
  intros Hbuf Hptr Hlen Hcap Hfits. unfold aws_byte_buf_append, c_assert.
  destruct (Z.eqb_spec (cursor_ptr from) NULL) as [E|_]; [contradiction|].
  destruct (Z.eqb_spec (buf_buffer to) NULL) as [E|_]; [contradiction|].
  cbn [negb]. unfold is_size_t in *.
  rewrite (size_wrap_small (buf_capacity to - buf_len to)) by (unfold is_size_t; lia).
  replace (buf_capacity to - buf_len to <? cursor_len from) with false
    by (symmetry; apply Z.ltb_ge; lia).
  rewrite (size_wrap_small (buf_len to + cursor_len from)) by (unfold is_size_t; lia).
  reflexivity.
Qed.

Lemma aws_byte_buf_append_too_small w to from :
  buf_buffer to <> NULL -> cursor_ptr from <> NULL ->
  is_size_t (buf_len to) -> is_size_t (buf_capacity to) ->
  buf_len to <= buf_capacity to ->
  buf_capacity to - buf_len to < cursor_len from ->
  aws_byte_buf_append w to from
  = Returns (AWS_OP_ERR, to,
             mkWorld (heap w) AWS_ERROR_DEST_COPY_TOO_SMALL (acquired w) (released w)).
Proof.
  intros Hbuf Hptr Hlen Hcap Hle Hbig. unfold aws_byte_buf_append, c_assert.
  destruct (Z.eqb_spec (cursor_ptr from) NULL) as [E|_]; [contradiction|].
  destruct (Z.eqb_spec (buf_buffer to) NULL) as [E|_]; [contradiction|].
  cbn [negb]. unfold is_size_t in *.
  rewrite (size_wrap_small (buf_capacity to - buf_len to)) by (unfold is_size_t; lia).
  replace (buf_capacity to - buf_len to <? cursor_len from) with true
    by (symmetry; apply Z.ltb_lt; lia).
  reflexivity.
Qed.

Lemma total_len_nonneg args :
  Forall (fun b => buf_buffer b <> NULL /\ 0 <= buf_len b) args -> 0 <= total_len args.
Proof.
  induction 1 as [|b args [_ Hb] _ IH]; cbn [total_len fold_right]; [lia|].
  fold (total_len args). lia.
Qed.

Lemma cat_loop_appends_all :
  forall args w dest,
    buf_buffer dest <> NULL ->
    is_size_t (buf_len dest) -> is_size_t (buf_capacity dest) ->
    Forall (fun b => buf_buffer b <> NULL /\ 0 <= buf_len b) args ->
    buf_len dest + total_len args <= buf_capacity dest ->
    exists w',
      aws_byte_buf_cat_loop w dest (map other_buf args)
      = Returns (AWS_OP_SUCCESS,
                 mkBuf (buf_len dest + total_len args) (buf_buffer dest)
                   (buf_capacity dest) (buf_allocator dest),
                 w') /\
      last_error w' = last_error w /\ acquired w' = acquired w /\
      released w' = released w /\
      (forall a, a < buf_buffer dest + buf_len dest \/
                 buf_buffer dest + buf_len dest + total_len args <= a ->
         heap w' a = heap w a) /\
      (Forall (fun b => buf_buffer b + buf_len b <= buf_buffer dest + buf_len dest \/
                        buf_buffer dest + buf_len dest + total_len args <= buf_buffer b)
         args ->
       read_bytes (heap w') (buf_buffer dest + buf_len dest) (Z.to_nat (total_len args))
       = List.concat (map (fun b => read_bytes (heap w) (buf_buffer b) (Z.to_nat (buf_len b)))
                   args)).
Proof.
  induction args as [|b args IH]; intros w dest Hbuf Hlen Hcap Hargs Hfits.
  - cbn [total_len fold_right] in *. exists w. cbn [map aws_byte_buf_cat_loop].
    rewrite Z.add_0_r. destruct dest as [l bf cp al]. cbn [buf_len buf_buffer buf_capacity buf_allocator].
    repeat split.
  - inversion Hargs as [|? ? [Hb Hbl] Hrest]; subst.
    pose proof (total_len_nonneg args Hrest) as Hnn.
    cbn [total_len fold_right] in *. fold (total_len args) in *.
    cbn [map aws_byte_buf_cat_loop].
    rewrite aws_byte_buf_append_fits;
      try assumption; [|cbn [aws_byte_cursor_from_buf cursor_len]; lia].
    change (negb (AWS_OP_SUCCESS =? 0)) with false. cbv iota.
    cbn [aws_byte_cursor_from_buf cursor_len cursor_ptr].
    set (w1 := set_heap w (memcpy (heap w) (buf_buffer dest + buf_len dest)
                             (buf_buffer b) (buf_len b))).
    set (dest1 := mkBuf (buf_len dest + buf_len b) (buf_buffer dest) (buf_capacity dest)
                    (buf_allocator dest)).
    destruct (IH w1 dest1) as (w' & Hrun & He & Ha & Hr & Hframe & Hcontent);
      try (subst dest1; cbn [buf_len buf_buffer buf_capacity]; unfold is_size_t in *;
           first [assumption | lia]).
    subst dest1. cbn [buf_len buf_buffer buf_capacity buf_allocator] in *.
    exists w'. split; [rewrite Hrun; now rewrite Z.add_assoc|].
    split; [exact He|]. split; [exact Ha|]. split; [exact Hr|]. split.
    + intros a Hout. rewrite Hframe by lia. subst w1. cbn [heap set_heap].
      apply memcpy_elsewhere. lia.
    + intros Hapart. inversion Hapart as [|? ? Hb_apart Hrest_apart]; subst.
      cbn [map List.concat].
      replace (Z.to_nat (buf_len b + total_len args))
        with (Z.to_nat (buf_len b) + Z.to_nat (total_len args))%nat by lia.
      rewrite read_bytes_app, Z2Nat.id by lia. f_equal.
      * apply read_bytes_ext. intros i Hi.
        rewrite Hframe by lia. subst w1. cbn [heap set_heap].
        apply memcpy_copied. lia.
      * replace (buf_buffer dest + buf_len dest + buf_len b)
          with (buf_buffer dest + (buf_len dest + buf_len b)) by lia.
        rewrite Hcontent.
        -- f_equal. apply map_ext_in. intros b' Hin.
           rewrite Forall_forall in Hrest_apart, Hrest.
           specialize (Hrest_apart b' Hin). destruct (Hrest b' Hin) as [_ Hbl'].
           apply read_bytes_ext. intros i Hi. subst w1. cbn [heap set_heap].
           apply memcpy_elsewhere. lia.
        -- eapply Forall_impl; [|exact Hrest_apart]. cbn beta. intros b' Hb'. lia.
Qed.

(** X18.  [aws_byte_buf_cat] on a destination with a non-null buffer and
    sources, none of them the destination itself, with non-null buffers
    whose lengths together fit into the free capacity: it returns success,
    [len] has grown by the sum of the lengths, [buffer], [capacity] and
    [allocator] are unchanged, bytes outside the filled region are as
    before, and when no source overlaps the filled region that region holds
    the sources' bytes one after the other. *)
Theorem aws_byte_buf_cat_concatenates (w : world) (dest : aws_byte_buf)
    (args : list aws_byte_buf) :
  buf_buffer dest <> NULL ->
  is_size_t (buf_len dest) -> is_size_t (buf_capacity dest) ->
  Forall (fun b => buf_buffer b <> NULL /\ 0 <= buf_len b) args ->
  buf_len dest + total_len args <= buf_capacity dest ->
  exists w',
    aws_byte_buf_cat w (Some dest) (map other_buf args)
    = Returns (AWS_OP_SUCCESS,
               mkBuf (buf_len dest + total_len args) (buf_buffer dest)
                 (buf_capacity dest) (buf_allocator dest),
               w') /\
    last_error w' = last_error w /\ acquired w' = acquired w /\
    released w' = released w /\
    (forall a, a < buf_buffer dest + buf_len dest \/
               buf_buffer dest + buf_len dest + total_len args <= a ->
       heap w' a = heap w a) /\
    (Forall (fun b => buf_buffer b + buf_len b <= buf_buffer dest + buf_len dest \/
                      buf_buffer dest + buf_len dest + total_len args <= buf_buffer b)
       args ->
     read_bytes (heap w') (buf_buffer dest + buf_len dest) (Z.to_nat (total_len args))
     = List.concat (map (fun b => read_bytes (heap w) (buf_buffer b) (Z.to_nat (buf_len b)))
                      args)).
Proof.
  intros. unfold aws_byte_buf_cat. now apply cat_loop_appends_all.
Qed.

(** "ab" and "cde" concatenated after the 1 byte a buffer of 8 holds. *)
Lemma aws_byte_buf_cat_concatenates_witness :
  let w := mkWorld (heap_of_bytes 4096 (list_byte_of_string "abcde")) AWS_ERROR_SUCCESS [] [] in
  let dest := mkBuf 1 8192 8 7 in
  let args := [mkBuf 2 4096 2 0; mkBuf 3 4098 3 0] in
  exists w',
    aws_byte_buf_cat w (Some dest) (map other_buf args)
    = Returns (AWS_OP_SUCCESS, mkBuf 6 8192 8 7, w') /\
    read_bytes (heap w') 8193 5 = list_byte_of_string "abcde".
Proof.
  intros w dest args.
  destruct (aws_byte_buf_cat_concatenates w dest args)
    as (w' & Hrun & _ & _ & _ & _ & Hcontent).
  - unfold NULL. cbn. lia.
  - unfold is_size_t, SIZE_MAX. cbn. lia.
  - unfold is_size_t, SIZE_MAX. cbn. lia.
  - repeat constructor; unfold NULL; cbn; lia.
  - cbn. lia.
  - exists w'. split; [exact Hrun|].
    apply Hcontent. repeat constructor; cbn; lia.
Defined.

Lemma cat_loop_stops :
  forall fits w dest b (rest : list cat_arg),
    buf_buffer dest <> NULL ->
    is_size_t (buf_len dest) -> is_size_t (buf_capacity dest) ->
    Forall (fun b => buf_buffer b <> NULL /\ 0 <= buf_len b) fits ->
    buf_buffer b <> NULL ->
    buf_len dest + total_len fits <= buf_capacity dest ->
    buf_capacity dest - (buf_len dest + total_len fits) < buf_len b ->
    exists w',
      aws_byte_buf_cat_loop w dest (map other_buf fits ++ other_buf b :: rest)
      = Returns (AWS_OP_ERR,
                 mkBuf (buf_len dest + total_len fits) (buf_buffer dest)
                   (buf_capacity dest) (buf_allocator dest),
                 w') /\
      last_error w' = AWS_ERROR_DEST_COPY_TOO_SMALL /\
      (forall a, a < buf_buffer dest + buf_len dest \/
                 buf_buffer dest + buf_len dest + total_len fits <= a ->
         heap w' a = heap w a).
Proof.
  induction fits as [|f fits IH]; intros w dest b rest Hbuf Hlen Hcap Hfits Hb Hroom Hbig.
  - cbn [total_len fold_right map app] in *. cbn [aws_byte_buf_cat_loop].
    rewrite aws_byte_buf_append_too_small; try assumption;
      try (cbn [aws_byte_cursor_from_buf cursor_len]; unfold is_size_t in *; lia).
    change (negb (AWS_OP_ERR =? 0)) with true. cbv iota.
    eexists. split.
    { rewrite Z.add_0_r. destruct dest; reflexivity. }
    split; [reflexivity | intros a _; reflexivity].
  - inversion Hfits as [|? ? [Hf Hfl] Hrest]; subst.
    pose proof (total_len_nonneg fits Hrest) as Hnn.
    cbn [total_len fold_right map app] in *. fold (total_len fits) in *.
    cbn [aws_byte_buf_cat_loop].
    rewrite aws_byte_buf_append_fits;
      try assumption; [|cbn [aws_byte_cursor_from_buf cursor_len]; lia].
    change (negb (AWS_OP_SUCCESS =? 0)) with false. cbv iota.
    cbn [aws_byte_cursor_from_buf cursor_len cursor_ptr].
    set (w1 := set_heap w (memcpy (heap w) (buf_buffer dest + buf_len dest)
                             (buf_buffer f) (buf_len f))).
    set (dest1 := mkBuf (buf_len dest + buf_len f) (buf_buffer dest) (buf_capacity dest)
                    (buf_allocator dest)).
    destruct (IH w1 dest1 b rest) as (w' & Hrun & He & Hframe);
      try (subst dest1; cbn [buf_len buf_buffer buf_capacity]; unfold is_size_t in *;
           first [assumption | lia]).
    subst dest1. cbn [buf_len buf_buffer buf_capacity buf_allocator] in *.
    exists w'. split; [rewrite Hrun; now rewrite Z.add_assoc|].
    split; [exact He|].
    intros a Hout. rewrite Hframe by lia. subst w1. cbn [heap set_heap].
    apply memcpy_elsewhere. lia.
Qed.

(** X19.  [aws_byte_buf_cat] stops at the first source that does not fit,
    when that source and those before it are not the destination itself:
    it returns [AWS_OP_ERR] with destination-too-small raised, whatever the
    arguments after it are, and the destination keeps what was appended
    before: [len] has grown by the lengths of the sources before that one,
    and it is not rolled back. *)
Theorem aws_byte_buf_cat_stops_at_first_misfit (w : world) (dest : aws_byte_buf)
    (fits : list aws_byte_buf) (b : aws_byte_buf) (rest : list cat_arg) :
  buf_buffer dest <> NULL ->
  is_size_t (buf_len dest) -> is_size_t (buf_capacity dest) ->
  Forall (fun b => buf_buffer b <> NULL /\ 0 <= buf_len b) fits ->
  buf_buffer b <> NULL ->
  buf_len dest + total_len fits <= buf_capacity dest ->
  buf_capacity dest - (buf_len dest + total_len fits) < buf_len b ->
  exists w',
    aws_byte_buf_cat w (Some dest) (map other_buf fits ++ other_buf b :: rest)
    = Returns (AWS_OP_ERR,
               mkBuf (buf_len dest + total_len fits) (buf_buffer dest)
                 (buf_capacity dest) (buf_allocator dest),
               w') /\
    last_error w' = AWS_ERROR_DEST_COPY_TOO_SMALL /\
    (forall a, a < buf_buffer dest + buf_len dest \/
               buf_buffer dest + buf_len dest + total_len fits <= a ->
       heap w' a = heap w a).
Proof.
  intros. unfold aws_byte_buf_cat. now apply cat_loop_stops.
Qed.

(** "ab" fits after the 1 byte a buffer of 4 holds, "cde" then does not. *)
Lemma aws_byte_buf_cat_stops_at_first_misfit_witness :
  let w := mkWorld (heap_of_bytes 4096 (list_byte_of_string "abcde")) AWS_ERROR_SUCCESS [] [] in
  let dest := mkBuf 1 8192 4 7 in
  exists w',
    aws_byte_buf_cat w (Some dest)
      (map other_buf [mkBuf 2 4096 2 0] ++ other_buf (mkBuf 3 4098 3 0) :: [])
    = Returns (AWS_OP_ERR, mkBuf 3 8192 4 7, w') /\
    last_error w' = AWS_ERROR_DEST_COPY_TOO_SMALL /\
    read_bytes (heap w') 8193 2 = list_byte_of_string "ab".
Proof.
  intros w dest.
  destruct (aws_byte_buf_cat_stops_at_first_misfit w dest [mkBuf 2 4096 2 0]
              (mkBuf 3 4098 3 0) [])
    as (w' & Hrun & He & _).
  - unfold NULL. cbn. lia.
  - unfold is_size_t, SIZE_MAX. cbn. lia.
  - unfold is_size_t, SIZE_MAX. cbn. lia.
  - repeat constructor; unfold NULL; cbn; lia.
  - unfold NULL. cbn. lia.
  - cbn. lia.
  - cbn. lia.
  - exists w'. split; [exact Hrun|]. split; [exact He|].
    assert (Heval : aws_byte_buf_cat w (Some dest)
                      (map other_buf [mkBuf 2 4096 2 0] ++ other_buf (mkBuf 3 4098 3 0) :: [])
                    = Returns (AWS_OP_ERR, mkBuf 3 8192 4 7,
                               mkWorld (memcpy (heap w) 8193 4096 2)
                                 AWS_ERROR_DEST_COPY_TOO_SMALL [] [])) by reflexivity.
    rewrite Heval in Hrun. injection Hrun as <-. reflexivity.
Defined.

Lemma cat_loop_app :
  forall xs ys w dest dest1 w1,
    aws_byte_buf_cat_loop w dest xs = Returns (AWS_OP_SUCCESS, dest1, w1) ->
    aws_byte_buf_cat_loop w dest (xs ++ ys) = aws_byte_buf_cat_loop w1 dest1 ys.
Proof.
  induction xs as [|x xs IH]; intros ys w dest dest1 w1 Hrun;
    cbn [aws_byte_buf_cat_loop app] in *.
  - injection Hrun as <- <-. reflexivity.
  - destruct (aws_byte_buf_append w dest _) as [[[rc d] w2]| |]; try discriminate Hrun.
    destruct (negb (rc =? 0)); [discriminate Hrun|].
    now apply IH.
Qed.

(** X25.  A destination that is among its own sources is read at its turn,
    with the length it has by then.  After sources that are not the
    destination and fit, [dest] holds [filled] bytes: when twice as many
    fit, [aws_byte_buf_cat] appends those [filled] bytes to themselves and
    returns success with [len] twice [filled]; when they do not, it
    returns [AWS_OP_ERR] with destination-too-small raised and [len] is
    [filled]. *)
Theorem aws_byte_buf_cat_dest_among_sources (w : world) (dest : aws_byte_buf)
    (fits : list aws_byte_buf) :
  let filled := buf_len dest + total_len fits in
  buf_buffer dest <> NULL ->
  is_size_t (buf_len dest) -> is_size_t (buf_capacity dest) ->
  Forall (fun b => buf_buffer b <> NULL /\ 0 <= buf_len b) fits ->
  filled <= buf_capacity dest ->
  exists rc dest' w',
    aws_byte_buf_cat w (Some dest) (map other_buf fits ++ [dest_itself])
    = Returns (rc, dest', w') /\
    (forall a, a < buf_buffer dest + buf_len dest \/
               buf_buffer dest + 2 * filled <= a ->
       heap w' a = heap w a) /\
    (2 * filled <= buf_capacity dest ->
     rc = AWS_OP_SUCCESS /\
     dest' = mkBuf (2 * filled) (buf_buffer dest) (buf_capacity dest) (buf_allocator dest) /\
     last_error w' = last_error w /\
     forall i, 0 <= i < filled ->
       heap w' (buf_buffer dest + filled + i) = heap w' (buf_buffer dest + i)) /\
    (buf_capacity dest < 2 * filled ->
     rc = AWS_OP_ERR /\
     dest' = mkBuf filled (buf_buffer dest) (buf_capacity dest) (buf_allocator dest) /\
     last_error w' = AWS_ERROR_DEST_COPY_TOO_SMALL).
Proof.
  intros filled Hbuf Hlen Hcap Hfits Hroom.
  pose proof (total_len_nonneg fits Hfits) as Hnn.
  destruct (cat_loop_appends_all fits w dest Hbuf Hlen Hcap Hfits Hroom)
    as (w1 & Hrun & He & _ & _ & Hframe & _).
  fold filled in Hrun, Hframe.
  unfold aws_byte_buf_cat.
  rewrite (cat_loop_app _ [dest_itself] _ _ _ _ Hrun).
  cbn [aws_byte_buf_cat_loop].
  set (dest1 := mkBuf filled (buf_buffer dest) (buf_capacity dest) (buf_allocator dest)).
  assert (Hfilled : is_size_t filled) by (unfold is_size_t, filled in *; lia).
  assert (Hge : 0 <= buf_len dest <= filled) by (unfold is_size_t, filled in *; lia).
  destruct (Z.le_gt_cases (2 * filled) (buf_capacity dest)) as [Hfit|Hbig].
  - rewrite aws_byte_buf_append_fits;
      try (subst dest1; cbn [buf_len buf_buffer buf_capacity aws_byte_cursor_from_buf
                               cursor_len cursor_ptr];
           first [assumption | unfold is_size_t in *; lia]).
    change (negb (AWS_OP_SUCCESS =? 0)) with false. cbv iota.
    subst dest1.
    cbn [buf_len buf_buffer buf_capacity buf_allocator aws_byte_cursor_from_buf
           cursor_len cursor_ptr].
    eexists _, _, _. split; [reflexivity|].
    unfold set_heap; cbn -[Z.mul Z.add memcpy].
    split; [|split].
    + intros a Ha. unfold is_size_t in *.
      rewrite memcpy_elsewhere by lia. apply Hframe. unfold filled in *. lia.
    + intros _. split; [reflexivity|]. split; [f_equal; lia|]. split; [exact He|].
      intros i Hi. rewrite memcpy_copied by exact Hi.
      rewrite memcpy_elsewhere by lia. reflexivity.
    + intros Hno. lia.
  - rewrite aws_byte_buf_append_too_small;
      try (subst dest1; cbn [buf_len buf_buffer buf_capacity aws_byte_cursor_from_buf
                               cursor_len cursor_ptr];
           first [assumption | unfold is_size_t in *; lia]).
    change (negb (AWS_OP_ERR =? 0)) with true. cbv iota.
    eexists _, _, _. split; [reflexivity|].
    cbn -[Z.mul Z.add].
    split; [|split].
    + intros a Ha. apply Hframe. unfold is_size_t, filled in *. lia.
    + intros Hno. lia.
    + intros _. repeat split.
Qed.

(** "ab" and then the destination itself, appended to a buffer that holds
    "x": with room for 8 bytes it ends as "xabxab", with room for 4 the
    call fails and leaves "xab". *)
Lemma aws_byte_buf_cat_dest_among_sources_witness :
  let w := mkWorld (fun a => if a =? 8192 then x78
                             else heap_of_bytes 4096 (list_byte_of_string "ab") a)
             AWS_ERROR_SUCCESS [] [] in
  let args := map other_buf [mkBuf 2 4096 2 0] ++ [dest_itself] in
  (exists w',
     aws_byte_buf_cat w (Some (mkBuf 1 8192 8 7)) args
     = Returns (AWS_OP_SUCCESS, mkBuf 6 8192 8 7, w') /\
     read_bytes (heap w') 8192 6 = list_byte_of_string "xabxab") /\
  (exists w',
     aws_byte_buf_cat w (Some (mkBuf 1 8192 4 7)) args
     = Returns (AWS_OP_ERR, mkBuf 3 8192 4 7, w') /\
     last_error w' = AWS_ERROR_DEST_COPY_TOO_SMALL).
Proof.
  intros w args. split.
  - destruct (aws_byte_buf_cat_dest_among_sources w (mkBuf 1 8192 8 7) [mkBuf 2 4096 2 0])
      as (rc & dest' & w' & Hrun & _ & Hok & _).
    + unfold NULL. cbn. lia.
    + unfold is_size_t, SIZE_MAX. cbn. lia.
    + unfold is_size_t, SIZE_MAX. cbn. lia.
    + repeat constructor; unfold NULL; cbn; lia.
    + cbn. lia.
    + destruct Hok as (-> & -> & _); [cbn; lia|].
      exists w'. split; [exact Hrun|].
      assert (Heval : exists w2,
                 aws_byte_buf_cat w (Some (mkBuf 1 8192 8 7)) args
                 = Returns (AWS_OP_SUCCESS, mkBuf 6 8192 8 7, w2) /\
                 read_bytes (heap w2) 8192 6 = list_byte_of_string "xabxab")
        by (eexists; split; reflexivity).
      destruct Heval as (w2 & Hrun2 & Hbytes).
      fold args in Hrun. rewrite Hrun2 in Hrun. injection Hrun as <-. exact Hbytes.
  - destruct (aws_byte_buf_cat_dest_among_sources w (mkBuf 1 8192 4 7) [mkBuf 2 4096 2 0])
      as (rc & dest' & w' & Hrun & _ & _ & Hfail).
    + unfold NULL. cbn. lia.
    + unfold is_size_t, SIZE_MAX. cbn. lia.
    + unfold is_size_t, SIZE_MAX. cbn. lia.
    + repeat constructor; unfold NULL; cbn; lia.
    + cbn. lia.
    + destruct Hfail as (-> & -> & He); [cbn; lia|].
      exists w'. split; [exact Hrun | exact He].
Defined.

(** ** The test logger *)

Lemma strlen_loop_finds h s (m : nat) :
  forall fuel n,
    (m < fuel)%nat ->
    (forall i, n <= i < n + Z.of_nat m -> h (s + i) <> x00) ->
    h (s + (n + Z.of_nat m)) = x00 ->
    strlen_loop fuel h s n = Returns (n + Z.of_nat m).
Proof.
  induction m as [|m IH]; intros fuel n Hfuel Hnz Hz;
    (destruct fuel as [|fuel]; [lia|]); cbn [strlen_loop].
  - rewrite Z.add_0_r in *. rewrite Hz. reflexivity.
  - destruct (Z.eqb_spec (u8 (h (s + n))) 0) as [E|_].
    + exfalso. apply (Hnz n); [lia|]. apply u8_inj. exact E.
    + rewrite (IH fuel (n + 1)); [f_equal; lia | lia | | ].
      * intros i Hi. apply Hnz. lia.
      * rewrite <- Hz. do 2 f_equal. lia.
Qed.

(** X20.  [test_logger_compare_contents] compares only as many bytes as the
    shorter of the log and the expected string has: for a string of [m]
    bytes it returns success exactly when the first [min(m, len)] bytes of
    the two agree, so whenever one is a prefix of the other; an empty log
    compares equal to every expected string. *)
Theorem test_logger_compare_contents_is_prefix_match
    (fuel : nat) (h : heap_t) (impl : test_logger_impl) (expected_contents : Z) (m : nat) :
  (forall i, 0 <= i < Z.of_nat m -> h (expected_contents + i) <> x00) ->
  h (expected_contents + Z.of_nat m) = x00 ->
  (m < fuel)%nat ->
  0 <= buf_len (impl_log_buffer impl) ->
  exists rc,
    test_logger_compare_contents fuel h impl expected_contents = Returns rc /\
    (rc = AWS_OP_SUCCESS \/ rc = AWS_OP_ERR) /\
    (rc = AWS_OP_SUCCESS <->
     forall i, 0 <= i < Z.min (Z.of_nat m) (buf_len (impl_log_buffer impl)) ->
       h (expected_contents + i) = h (buf_buffer (impl_log_buffer impl) + i)) /\
    (buf_len (impl_log_buffer impl) = 0 -> rc = AWS_OP_SUCCESS).
Proof.
  intros Hnz Hz Hfuel Hlen. unfold test_logger_compare_contents, strlen.
  rewrite (strlen_loop_finds h expected_contents m fuel 0 Hfuel) by (assumption || exact Hnz).
  rewrite Z.add_0_l.
  set (len := buf_len (impl_log_buffer impl)) in *.
  assert (Hmin : (if len <? Z.of_nat m then len else Z.of_nat m) = Z.min (Z.of_nat m) len).
  { destruct (Z.ltb_spec len (Z.of_nat m)); lia. }
  rewrite Hmin.
  assert (Hm : 0 <= Z.min (Z.of_nat m) len) by lia.
  destruct (memcmp h expected_contents (buf_buffer (impl_log_buffer impl))
              (Z.min (Z.of_nat m) len) =? 0) eqn:E; cbn [negb].
  - exists AWS_OP_SUCCESS. split; [reflexivity|]. split; [now left|].
    apply Z.eqb_eq in E.
    pose proof (proj1 (memcmp_zero h _ _ _ Hm) E) as E'.
    split; [split; [intros _; exact E' | reflexivity] | reflexivity].
  - exists AWS_OP_ERR. split; [reflexivity|]. split; [now right|].
    apply Z.eqb_neq in E. split.
    + split; [discriminate|]. intros H. exfalso. apply E. apply memcmp_zero; [exact Hm | exact H].
    + intros Hempty. exfalso. apply E. apply memcmp_zero; [exact Hm|].
      intros i Hi. lia.
Qed.

Lemma test_logger_compare_contents_is_prefix_match_witness :
  let h := heap_of_bytes 100 [x61; x62; x63; x00] in
  let impl := mkImpl 0 (mkBuf 2 100 16 7) 7 in
  test_logger_compare_contents 10 h impl 100 = Returns AWS_OP_SUCCESS /\
  exists rc,
    test_logger_compare_contents 10 h impl 100 = Returns rc /\
    (rc = AWS_OP_SUCCESS \/ rc = AWS_OP_ERR) /\
    (rc = AWS_OP_SUCCESS <->
     forall i, 0 <= i < Z.min (Z.of_nat 3) (buf_len (impl_log_buffer impl)) ->
       h (100 + i) = h (buf_buffer (impl_log_buffer impl) + i)) /\
    (buf_len (impl_log_buffer impl) = 0 -> rc = AWS_OP_SUCCESS).
Proof.
  intros h impl. split; [reflexivity|].
  apply (test_logger_compare_contents_is_prefix_match 10 h impl 100 3).
  - intros i Hi.
    assert (Hc : i = 0 \/ i = 1 \/ i = 2) by lia.
    destruct Hc as [Hc|[Hc|Hc]]; subst i; discriminate.
  - reflexivity.
  - lia.
  - cbn. lia.
Defined.

Section TestLoggerProperties.

Variable AWS_ERROR_INVALID_ARGUMENT : aws_common_error.

Local Abbreviation get_contents := (test_logger_get_contents AWS_ERROR_INVALID_ARGUMENT).

(** X21.  With room for [max_length >= 1] bytes, [test_logger_get_contents]
    returns success and raises no error ([copy_length] is a [size_t], so
    the test [copy_length < 0] is never true): it copies the first
    [min(len, max_length - 1)] bytes of the log, puts a zero byte after
    them and writes nothing outside [buffer, buffer + max_length). *)
Theorem test_logger_get_contents_fits
    (w : world) (impl : test_logger_impl) (buffer max_length : Z) :
  let len := buf_len (impl_log_buffer impl) in
  let n := Z.min len (max_length - 1) in
  is_size_t len ->
  1 <= max_length <= SIZE_MAX ->
  let '(rc, w') := get_contents w impl buffer max_length in
  rc = AWS_OP_SUCCESS /\
  last_error w' = last_error w /\
  (forall i, 0 <= i < n ->
     heap w' (buffer + i) = heap w (buf_buffer (impl_log_buffer impl) + i)) /\
  heap w' (buffer + n) = x00 /\
  (forall a, ~ (buffer <= a < buffer + max_length) -> heap w' a = heap w a).
Proof.
  intros len n Hlen Hmax. unfold test_logger_get_contents.
  fold len. unfold is_size_t in Hlen.
  rewrite size_wrap_small by (unfold is_size_t; lia).
  assert (Hn : (if len <? max_length - 1 then len else max_length - 1) = n).
  { unfold n. destruct (Z.ltb_spec len (max_length - 1)); lia. }
  rewrite Hn.
  assert (0 <= n) by (unfold n; lia).
  destruct (Z.ltb_spec n 0) as [|_]; [lia|].
  split; [reflexivity|].
  destruct (Z.gtb_spec n 0) as [Hpos|Hzero]; unfold set_heap; simpl.
  - split; [reflexivity|]. unfold store_byte. repeat split.
    + intros i Hi. destruct (Z.eqb_spec (buffer + i) (buffer + n)); [lia|].
      apply memcpy_copied. exact Hi.
    + now rewrite Z.eqb_refl.
    + intros a Ha. destruct (Z.eqb_spec a (buffer + n)); [unfold n in *; lia|].
      apply memcpy_elsewhere. unfold n in *. lia.
  - destruct w; unfold set_heap; simpl.
    split; [reflexivity|]. unfold store_byte. repeat split.
    + intros i Hi. lia.
    + now rewrite Z.eqb_refl.
    + intros a Ha. destruct (Z.eqb_spec a (buffer + n)); [unfold n in *; lia|reflexivity].
Qed.

(** X22.  Asked for [max_length = 0] bytes, [test_logger_get_contents] does
    not fail either: [max_length - 1] wraps to [SIZE_MAX], so it returns
    success after copying the whole log and writing a zero byte at
    [buffer[len]], [len + 1] bytes in a buffer said to hold none. *)
Theorem test_logger_get_contents_zero_length
    (w : world) (impl : test_logger_impl) (buffer : Z) :
  let len := buf_len (impl_log_buffer impl) in
  is_size_t len ->
  let '(rc, w') := get_contents w impl buffer 0 in
  rc = AWS_OP_SUCCESS /\
  (forall i, 0 <= i < len ->
     heap w' (buffer + i) = heap w (buf_buffer (impl_log_buffer impl) + i)) /\
  heap w' (buffer + len) = x00.
Proof.
  intros len Hlen. unfold test_logger_get_contents. fold len.
  unfold is_size_t in Hlen.
  replace (size_wrap (0 - 1)) with SIZE_MAX by reflexivity.
  assert (Hn : (if len <? SIZE_MAX then len else SIZE_MAX) = len).
  { destruct (Z.ltb_spec len SIZE_MAX); lia. }
  rewrite Hn.
  destruct (Z.ltb_spec len 0) as [|_]; [lia|].
  split; [reflexivity|].
  destruct (Z.gtb_spec len 0) as [Hpos|Hzero]; unfold set_heap; simpl;
    unfold store_byte; split.
  - intros i Hi. destruct (Z.eqb_spec (buffer + i) (buffer + len)); [lia|].
    apply memcpy_copied. exact Hi.
  - now rewrite Z.eqb_refl.
  - intros i Hi. lia.
  - destruct w; unfold set_heap; simpl. now rewrite Z.eqb_refl.
Qed.

End TestLoggerProperties.

Lemma test_logger_get_contents_fits_witness :
  let w := mkWorld (heap_of_bytes 100 [x61; x62; x63]) AWS_ERROR_SUCCESS [] [] in
  let impl := mkImpl 0 (mkBuf 3 100 16 7) 7 in
  read_bytes (heap (snd (test_logger_get_contents AWS_ERROR_SUCCESS w impl 200 3))) 200 3
    = [x61; x62; x00] /\
  let '(rc, w') := test_logger_get_contents AWS_ERROR_SUCCESS w impl 200 3 in
  rc = AWS_OP_SUCCESS /\
  last_error w' = last_error w /\
  (forall i, 0 <= i < 2 -> heap w' (200 + i) = heap w (100 + i)) /\
  heap w' (200 + 2) = x00 /\
  (forall a, ~ (200 <= a < 200 + 3) -> heap w' a = heap w a).
Proof.
  intros w impl. split; [reflexivity|].
  apply (test_logger_get_contents_fits AWS_ERROR_SUCCESS w impl 200 3).
  - unfold is_size_t, SIZE_MAX. cbn. lia.
  - unfold SIZE_MAX. lia.
Defined.

Lemma test_logger_get_contents_zero_length_witness :
  let w := mkWorld (heap_of_bytes 100 [x61; x62; x63]) AWS_ERROR_SUCCESS [] [] in
  let impl := mkImpl 0 (mkBuf 3 100 16 7) 7 in
  read_bytes (heap (snd (test_logger_get_contents AWS_ERROR_SUCCESS w impl 200 0))) 200 4
    = [x61; x62; x63; x00] /\
  let '(rc, w') := test_logger_get_contents AWS_ERROR_SUCCESS w impl 200 0 in
  rc = AWS_OP_SUCCESS /\
  (forall i, 0 <= i < 3 -> heap w' (200 + i) = heap w (100 + i)) /\
  heap w' (200 + 3) = x00.
Proof.
  intros w impl. split; [reflexivity|].
  apply (test_logger_get_contents_zero_length AWS_ERROR_SUCCESS w impl 200).
  unfold is_size_t, SIZE_MAX. cbn. lia.
Defined.

Lemma aws_mem_acquire_log mem_acquire w allocator size :
  released (snd (aws_mem_acquire mem_acquire w allocator size)) = released w /\
  acquired (snd (aws_mem_acquire mem_acquire w allocator size))
    = (allocator, size) :: acquired w /\
  last_error (snd (aws_mem_acquire mem_acquire w allocator size))
    = if fst (aws_mem_acquire mem_acquire w allocator size) =? NULL
      then AWS_ERROR_OOM else last_error w.
Proof.
  unfold aws_mem_acquire. destruct (mem_acquire w allocator size). now cbn.
Qed.

Section TestLoggerLifecycle.

Variable TEST_LOGGER_MAX_BUFFER_SIZE : Z.
Variable sizeof_test_logger_impl : Z.
Variable sizeof_aws_logger_vtable : Z.
Variable mem_acquire : world -> Z -> Z -> Z * heap_t.

Local Abbreviation init :=
  (test_logger_init TEST_LOGGER_MAX_BUFFER_SIZE sizeof_test_logger_impl
     sizeof_aws_logger_vtable mem_acquire).
Local Abbreviation acquire := (aws_mem_acquire mem_acquire).

(** X23.  [test_logger_init] succeeds exactly when its three allocations
    (implementation, vtable, log buffer) all do.  When one fails it returns
    [AWS_OP_ERR] with the last error [AWS_ERROR_OOM], leaves [*logger] as it
    was and has released every block it had got by then; when all succeed it
    releases nothing and [*logger] points to the two structures, the
    implementation holding the level, the allocator and an empty log buffer
    of [TEST_LOGGER_MAX_BUFFER_SIZE] bytes. *)
Theorem test_logger_init_outcomes
    (w : world) (logger : aws_logger) (impl : test_logger_impl) (allocator level : Z) :
  let a1 := acquire w allocator sizeof_test_logger_impl in
  let a2 := acquire (snd a1) allocator sizeof_aws_logger_vtable in
  let a3 := acquire (snd a2) allocator TEST_LOGGER_MAX_BUFFER_SIZE in
  let '(rc, logger', impl', vtable', w') := init w logger impl allocator level in
  (rc = AWS_OP_SUCCESS \/ rc = AWS_OP_ERR) /\
  (rc = AWS_OP_SUCCESS <->
   fst a1 <> NULL /\ fst a2 <> NULL /\ fst a3 <> NULL) /\
  (rc = AWS_OP_ERR ->
   logger' = logger /\
   last_error w' = AWS_ERROR_OOM /\
   released w' =
     (if fst a1 =? NULL then []
      else if fst a2 =? NULL then [(allocator, fst a1)]
      else [(allocator, fst a1); (allocator, fst a2)]) ++ released w) /\
  (rc = AWS_OP_SUCCESS ->
   logger' = mkLogger (fst a2) (fst a1) /\
   impl' = mkImpl level (mkBuf 0 (fst a3) TEST_LOGGER_MAX_BUFFER_SIZE allocator) allocator /\
   vtable' = mkVtable (Some s_test_logger_get_log_level_fn) (Some s_test_logger_log_fn) /\
   last_error w' = last_error w /\
   acquired w' =
     [(allocator, TEST_LOGGER_MAX_BUFFER_SIZE); (allocator, sizeof_aws_logger_vtable);
      (allocator, sizeof_test_logger_impl)] ++ acquired w /\
   released w' = released w).
Proof.
  cbv zeta. unfold test_logger_init, aws_byte_buf_init.
  destruct (aws_mem_acquire_log mem_acquire w allocator sizeof_test_logger_impl)
    as (R1 & A1 & L1).
  destruct (acquire w allocator sizeof_test_logger_impl) as [p1 w1].
  cbn [fst snd] in *.
  destruct (Z.eqb_spec p1 NULL) as [N1|N1].
  { cbn. repeat split; try (now right); try discriminate; try tauto. }
  destruct (aws_mem_acquire_log mem_acquire w1 allocator sizeof_aws_logger_vtable)
    as (R2 & A2 & L2).
  destruct (acquire w1 allocator sizeof_aws_logger_vtable) as [p2 w2].
  cbn [fst snd] in *.
  destruct (Z.eqb_spec p2 NULL) as [N2|N2].
  { cbn. repeat split; try (now right); try discriminate; try tauto.
    now rewrite R2, R1. }
  destruct (aws_mem_acquire_log mem_acquire w2 allocator TEST_LOGGER_MAX_BUFFER_SIZE)
    as (R3 & A3 & L3).
  destruct (acquire w2 allocator TEST_LOGGER_MAX_BUFFER_SIZE) as [p3 w3].
  cbn [fst snd] in *.
  cbn [buf_buffer buf_len buf_capacity buf_allocator].
  destruct (Z.eqb_spec p3 NULL) as [N3|N3].
  { cbn. repeat split; try (now right); try discriminate; try tauto.
    now rewrite R3, R2, R1. }
  cbn. repeat split; try (now left); try discriminate; try tauto.
  - rewrite L3, L2, L1. reflexivity.
  - rewrite A3, A2, A1. reflexivity.
  - rewrite R3, R2, R1. reflexivity.
Qed.

(** X24.  A logger set up by [test_logger_init] and torn down by
    [test_logger_cleanup] gives back the log buffer and the implementation,
    in this order, and nothing else: the vtable that [test_logger_init]
    acquired is not released. *)
Theorem test_logger_cleanup_keeps_the_vtable
    (w w' : world) (logger logger' : aws_logger) (impl impl' : test_logger_impl)
    (vtable' : aws_logger_vtable) (allocator level : Z) :
  allocator <> NULL ->
  init w logger impl allocator level = (AWS_OP_SUCCESS, logger', impl', vtable', w') ->
  let '(impl'', w'') := test_logger_cleanup w' logger' impl' in
  impl_log_buffer impl'' = mkBuf 0 NULL 0 NULL /\
  released w'' =
    (allocator, logger_p_impl logger')
      :: (allocator, buf_buffer (impl_log_buffer impl')) :: released w /\
  acquired w'' =
    [(allocator, TEST_LOGGER_MAX_BUFFER_SIZE); (allocator, sizeof_aws_logger_vtable);
     (allocator, sizeof_test_logger_impl)] ++ acquired w /\
  (logger_vtable logger' <> logger_p_impl logger' ->
   logger_vtable logger' <> buf_buffer (impl_log_buffer impl') ->
   ~ In (allocator, logger_vtable logger') (released w) ->
   ~ In (allocator, logger_vtable logger') (released w'')).
Proof.
  intros Halloc Hinit.
  unfold test_logger_init, aws_byte_buf_init in Hinit.
  destruct (aws_mem_acquire_log mem_acquire w allocator sizeof_test_logger_impl)
    as (R1 & A1 & _).
  destruct (acquire w allocator sizeof_test_logger_impl) as [p1 w1].
  cbn [fst snd] in *.
  destruct (Z.eqb_spec p1 NULL) as [N1|N1]; [discriminate Hinit|].
  destruct (aws_mem_acquire_log mem_acquire w1 allocator sizeof_aws_logger_vtable)
    as (R2 & A2 & _).
  destruct (acquire w1 allocator sizeof_aws_logger_vtable) as [p2 w2].
  cbn [fst snd] in *.
  destruct (Z.eqb_spec p2 NULL) as [N2|N2]; [discriminate Hinit|].
  destruct (aws_mem_acquire_log mem_acquire w2 allocator TEST_LOGGER_MAX_BUFFER_SIZE)
    as (R3 & A3 & _).
  destruct (acquire w2 allocator TEST_LOGGER_MAX_BUFFER_SIZE) as [p3 w3].
  cbn [fst snd] in *.
  cbn [buf_buffer buf_len buf_capacity buf_allocator] in Hinit.
  destruct (Z.eqb_spec p3 NULL) as [N3|N3]; [discriminate Hinit|].
  cbn in Hinit. injection Hinit as <- <- <- <-.
  unfold test_logger_cleanup, aws_byte_buf_clean_up, aws_mem_release.
  cbn [impl_log_buffer impl_allocator impl_level buf_allocator buf_buffer
       logger_p_impl logger_vtable].
  destruct (Z.eqb_spec allocator NULL) as [|_]; [contradiction|].
  destruct (Z.eqb_spec p3 NULL) as [|_]; [contradiction|].
  cbn. rewrite R3, R2, R1, A3, A2, A1.
  repeat split.
  intros D1 D3 Hnot [H|[H|H]]; [congruence | congruence | contradiction].
Qed.

End TestLoggerLifecycle.

Lemma test_logger_cleanup_keeps_the_vtable_witness :
  let impl0 := mkImpl 0 (mkBuf 0 0 0 0) 0 in
  let logger' := mkLogger 2000 1000 in
  let impl' := mkImpl 3 (mkBuf 0 3000 4096 7) 7 in
  let vtable' := mkVtable (Some s_test_logger_get_log_level_fn) (Some s_test_logger_log_fn) in
  let w' := mkWorld (fun _ => x00) AWS_ERROR_SUCCESS [(7, 4096); (7, 16); (7, 48)] [] in
  released (snd (test_logger_cleanup w' logger' impl')) = [(7, 1000); (7, 3000)] /\
  let '(impl'', w'') := test_logger_cleanup w' logger' impl' in
  impl_log_buffer impl'' = mkBuf 0 NULL 0 NULL /\
  released w'' =
    (7, logger_p_impl logger')
      :: (7, buf_buffer (impl_log_buffer impl')) :: released empty_world /\
  acquired w'' = [(7, 4096); (7, 16); (7, 48)] ++ acquired empty_world /\
  (logger_vtable logger' <> logger_p_impl logger' ->
   logger_vtable logger' <> buf_buffer (impl_log_buffer impl') ->
   ~ In (7, logger_vtable logger') (released empty_world) ->
   ~ In (7, logger_vtable logger') (released w'')).
Proof.
  intros impl0 logger' impl' vtable' w'. split; [reflexivity|].
  apply (test_logger_cleanup_keeps_the_vtable 4096 48 16 (counting_allocator 3)
           empty_world w' (mkLogger 0 0) logger' impl0 impl' vtable' 7 3).
  - discriminate.
  - reflexivity.
Defined.

Lemma test_logger_init_outcomes_witness :
  let r := test_logger_init 4096 48 16 (counting_allocator 2) empty_world
             (mkLogger 0 0) (mkImpl 0 (mkBuf 0 0 0 0) 0) 7 3 in
  fst (fst (fst (fst r))) = AWS_OP_ERR /\
  last_error (snd r) = AWS_ERROR_OOM /\
  released (snd r) = [(7, 1000); (7, 2000)].
Proof.
  intros r. split; [reflexivity|].
  pose proof (test_logger_init_outcomes 4096 48 16 (counting_allocator 2) empty_world
                (mkLogger 0 0) (mkImpl 0 (mkBuf 0 0 0 0) 0) 7 3) as H.
  cbv zeta in H.
  change (test_logger_init 4096 48 16 (counting_allocator 2) empty_world
            (mkLogger 0 0) (mkImpl 0 (mkBuf 0 0 0 0) 0) 7 3) with r in H.
  destruct r as [[[[rc logger'] impl'] vtable'] w'] eqn:E.
  destruct H as (_ & _ & Herr & _).
  assert (Hrc : rc = AWS_OP_ERR).
  { apply (f_equal (fun x => fst (fst (fst (fst x))))) in E. cbn [fst] in E.
    rewrite <- E. reflexivity. }
  destruct (Herr Hrc) as (_ & HL & HR). split; [exact HL | exact HR].
Defined.
